(** * decompress_common.h: bit reader, Huffman symbol decoder, LZ77 match copier

    A shallow embedding of [libntfs-3g/decompress_common.h] (the code shared by
    the XPRESS and LZX decompressors) and the properties of it that the
    specification states.

    Conventions of the embedding.
    - C integers are [Z]; the wrap-around of [u32]/[unsigned] arithmetic is
      written out with [wrap32], that of [size_t] with [wrapw].
    - A buffer is a [list Z] of bytes.  A pointer into a buffer is the [Z]
      offset from the buffer's first byte.  A load or store outside the buffer
      object is undefined behaviour in C; here it yields [Fault].
    - Loops take a fuel argument and yield [OutOfFuel] when it runs out, so
      that "the call returns" is a statement of its own ([Done]). *)

From Stdlib Require Import ZArith Lia List Bool.
From stdpp Require Import base tactics list.
Import ListNotations.

Local Open Scope Z_scope.

(** ** Outcomes of running a piece of the program *)

Inductive result (A : Type) : Type :=
| Done (a : A)
| Fault
| OutOfFuel.

Arguments Done {A} a.
Arguments Fault {A}.
Arguments OutOfFuel {A}.

Definition rbind {A B : Type} (r : result A) (k : A -> result B) : result B :=
  match r with
  | Done a => k a
  | Fault => Fault
  | OutOfFuel => OutOfFuel
  end.

Declare Scope result_scope.
Delimit Scope result_scope with result.
Notation "'let*' x := e 'in' k" := (rbind e (fun x => k))
  (at level 10, x name, e at level 200, k at level 200) : result_scope.
Notation "'let*' ' p := e 'in' k" := (rbind e (fun p => k))
  (at level 10, p pattern, e at level 200, k at level 200) : result_scope.
Local Open Scope result_scope.

(** ** Memory: byte buffers addressed by offset *)

Module Mem.

(** [*p] *)
Definition load (m : list Z) (p : Z) : result Z :=
  if decide (0 <= p) then
    match m !! Z.to_nat p with
    | Some b => Done b
    | None => Fault
    end
  else Fault.

(** [*p = v] *)
Definition store (m : list Z) (p : Z) (v : Z) : result (list Z) :=
  if decide (0 <= p < Z.of_nat (length m)) then Done (<[Z.to_nat p := v]> m)
  else Fault.

(** [n] consecutive bytes starting at [p] (as [memcpy] or a packed-struct
    access reads them). *)
Definition load_bytes (m : list Z) (p : Z) (n : nat) : result (list Z) :=
  if decide (0 <= p /\ p + Z.of_nat n <= Z.of_nat (length m))
  then Done (take n (drop (Z.to_nat p) m))
  else Fault.

(** The bytes [bs] written at [p], [p+1], ... *)
Definition store_bytes (m : list Z) (p : Z) (bs : list Z) : result (list Z) :=
  if decide (0 <= p /\ p + Z.of_nat (length bs) <= Z.of_nat (length m))
  then Done (take (Z.to_nat p) m ++ bs ++ drop (Z.to_nat p + length bs) m)
  else Fault.

(** Every cell holds a [u8]. *)
Definition bytes_ok (m : list Z) : Prop := Forall (fun b => 0 <= b < 256) m.

End Mem.

(** ** Fixed-width arithmetic *)

Definition wrap32 (x : Z) : Z := x mod 2 ^ 32.

(** [x << n] and [x >> n] on a [u32].  C leaves a shift by 32 or more
    undefined; the embedding gives it the value the mathematical shift has
    after truncation, which is 0. *)
Definition shl32 (x n : Z) : Z := if n <? 32 then wrap32 (Z.shiftl x n) else 0.
Definition shr32 (x n : Z) : Z := if n <? 32 then Z.shiftr x n else 0.

(** ** The input bitstream (struct input_bitstream) *)

Record input_bitstream : Type := {
  bitbuf : Z;      (* u32: bits read from the input, left-justified *)
  bitsleft : Z;    (* unsigned: number of bits held in bitbuf *)
  next : Z;        (* const u8 *: next byte to be retrieved *)
  end_ : Z         (* const u8 *: just past the end of the input *)
}.

Definition get_unaligned_le16 (m : list Z) (p : Z) : result Z :=
  let* b0 := Mem.load m p in
  let* b1 := Mem.load m (p + 1) in
  Done (Z.lor b0 (Z.shiftl b1 8)).

Definition get_unaligned_le32 (m : list Z) (p : Z) : result Z :=
  let* b0 := Mem.load m p in
  let* b1 := Mem.load m (p + 1) in
  let* b2 := Mem.load m (p + 2) in
  let* b3 := Mem.load m (p + 3) in
  Done (Z.lor (Z.lor (Z.lor b0 (Z.shiftl b1 8)) (Z.shiftl b2 16)) (Z.shiftl b3 24)).

(** The buffer handed to [init_input_bitstream] starts at offset 0. *)
Definition init_input_bitstream (size : Z) : input_bitstream :=
  {| bitbuf := 0; bitsleft := 0; next := 0; end_ := 0 + size |}.

Section Bitstream.

(** The input buffer the stream reads from. *)
Variable buf : list Z.

Definition bitstream_ensure_bits (istream : input_bitstream) (num_bits : Z)
  : result input_bitstream :=
  if bitsleft istream <? num_bits then
    if end_ istream - next istream >=? 2 then
      let* v := get_unaligned_le16 buf (next istream) in
      Done {| bitbuf := Z.lor (bitbuf istream) (shl32 v (wrap32 (16 - bitsleft istream)));
              bitsleft := wrap32 (bitsleft istream + 16);
              next := next istream + 2;
              end_ := end_ istream |}
    else
      Done {| bitbuf := bitbuf istream;
              bitsleft := wrap32 (bitsleft istream + 16);
              next := next istream;
              end_ := end_ istream |}
  else Done istream.

Definition bitstream_peek_bits (istream : input_bitstream) (num_bits : Z) : Z :=
  if num_bits =? 0 then 0
  else shr32 (bitbuf istream) (wrap32 (32 - num_bits)).

Definition bitstream_remove_bits (istream : input_bitstream) (num_bits : Z)
  : input_bitstream :=
  {| bitbuf := shl32 (bitbuf istream) num_bits;
     bitsleft := wrap32 (bitsleft istream - num_bits);
     next := next istream;
     end_ := end_ istream |}.

Definition bitstream_pop_bits (istream : input_bitstream) (num_bits : Z)
  : Z * input_bitstream :=
  let bits := bitstream_peek_bits istream num_bits in
  (bits, bitstream_remove_bits istream num_bits).

Definition bitstream_read_bits (istream : input_bitstream) (num_bits : Z)
  : result (Z * input_bitstream) :=
  let* is1 := bitstream_ensure_bits istream num_bits in
  Done (bitstream_pop_bits is1 num_bits).

Definition bitstream_read_byte (istream : input_bitstream)
  : result (Z * input_bitstream) :=
  if end_ istream =? next istream then Done (0, istream)
  else
    let* b := Mem.load buf (next istream) in
    Done (b, {| bitbuf := bitbuf istream; bitsleft := bitsleft istream;
                next := next istream + 1; end_ := end_ istream |}).

Definition bitstream_read_u16 (istream : input_bitstream)
  : result (Z * input_bitstream) :=
  if end_ istream - next istream <? 2 then Done (0, istream)
  else
    let* v := get_unaligned_le16 buf (next istream) in
    Done (v, {| bitbuf := bitbuf istream; bitsleft := bitsleft istream;
                next := next istream + 2; end_ := end_ istream |}).

Definition bitstream_read_u32 (istream : input_bitstream)
  : result (Z * input_bitstream) :=
  if end_ istream - next istream <? 4 then Done (0, istream)
  else
    let* v := get_unaligned_le32 buf (next istream) in
    Done (v, {| bitbuf := bitbuf istream; bitsleft := bitsleft istream;
                next := next istream + 4; end_ := end_ istream |}).

(** [size_bits] is the width of [size_t].  The bytes copied into
    [dst_buffer] are returned; [None] is the NULL return. *)
Definition bitstream_read_bytes (size_bits : Z) (istream : input_bitstream) (count : Z)
  : result (option (list Z) * input_bitstream) :=
  if (end_ istream - next istream) mod 2 ^ size_bits <? count then Done (None, istream)
  else
    let* bs := Mem.load_bytes buf (next istream) (Z.to_nat count) in
    Done (Some bs, {| bitbuf := bitbuf istream; bitsleft := bitsleft istream;
                      next := next istream + count; end_ := end_ istream |}).

Definition bitstream_align (istream : input_bitstream) : input_bitstream :=
  {| bitbuf := 0; bitsleft := 0; next := next istream; end_ := end_ istream |}.

End Bitstream.

(** ** The Huffman symbol decoder (read_huffsym) *)

(** The [do ... while] loop of the slow case: it runs with the tree node
    [entry] just read and pops one bit per iteration. *)
Fixpoint huff_tree_walk (fuel : nat) (decode_table : list Z) (entry : Z)
    (istream : input_bitstream) : result (Z * input_bitstream) :=
  match fuel with
  | O => OutOfFuel
  | S fuel' =>
      let '(bit, istream1) := bitstream_pop_bits istream 1 in
      let key_bits := Z.land entry 0x3FFF + bit in
      let* entry1 := Mem.load decode_table key_bits in
      if entry1 >=? 0xC000 then huff_tree_walk fuel' decode_table entry1 istream1
      else Done (entry1, istream1)
  end.

Definition read_huffsym (buf : list Z) (fuel : nat) (istream : input_bitstream)
    (decode_table : list Z) (table_bits max_codeword_len : Z)
  : result (Z * input_bitstream) :=
  let* istream1 := bitstream_ensure_bits buf istream max_codeword_len in
  let key_bits := bitstream_peek_bits istream1 table_bits in
  let* entry := Mem.load decode_table key_bits in
  if entry <? 0xC000 then
    Done (Z.land entry 0x7FF, bitstream_remove_bits istream1 (Z.shiftr entry 11))
  else
    huff_tree_walk fuel decode_table entry
      (bitstream_remove_bits istream1 table_bits).

(** ** The match copier (lz_copy) *)

(** What the preprocessor fixes: the size of a machine word ([size_t]),
    whether whole-word match copying is compiled in, and the byte order of a
    word in memory. *)
Record platform : Type := {
  WORDSIZE : Z;
  FAST_UNALIGNED_ACCESS : bool;
  BIG_ENDIAN : bool
}.

Definition platform_ok (P : platform) : Prop := WORDSIZE P = 4 \/ WORDSIZE P = 8.

Fixpoint le_decode (bs : list Z) : Z :=
  match bs with
  | [] => 0
  | b :: rest => b + 256 * le_decode rest
  end.

Fixpoint le_encode (n : nat) (v : Z) : list Z :=
  match n with
  | O => []
  | S n' => v mod 256 :: le_encode n' (v / 256)
  end.

Section LzCopy.

Variable P : platform.

Definition wrapw (x : Z) : Z := x mod 2 ^ (8 * WORDSIZE P).

Definition word_of_bytes (bs : list Z) : Z :=
  le_decode (if BIG_ENDIAN P then rev bs else bs).

Definition bytes_of_word (v : Z) : list Z :=
  let bs := le_encode (Z.to_nat (WORDSIZE P)) v in
  if BIG_ENDIAN P then rev bs else bs.

Definition get_unaligned_word (m : list Z) (p : Z) : result Z :=
  let* bs := Mem.load_bytes m p (Z.to_nat (WORDSIZE P)) in
  Done (word_of_bytes bs).

Definition put_unaligned_word (v : Z) (m : list Z) (p : Z) : result (list Z) :=
  Mem.store_bytes m p (bytes_of_word v).

Definition copy_unaligned_word (m : list Z) (src dst : Z) : result (list Z) :=
  let* v := get_unaligned_word m src in
  put_unaligned_word v m dst.

Definition repeat_byte (b : Z) : Z :=
  let v := b in
  let v := Z.lor v (wrapw (Z.shiftl v 8)) in
  let v := Z.lor v (wrapw (Z.shiftl v 16)) in
  let v := Z.lor v (wrapw (Z.shiftl v (if WORDSIZE P =? 8 then 32 else 0))) in
  v.

(** [do { copy_unaligned_word(src, dst); src += WORDSIZE; dst += WORDSIZE; }
    while (dst < end);] *)
Fixpoint word_copy_loop (fuel : nat) (m : list Z) (src dst end_p : Z)
  : result (list Z) :=
  match fuel with
  | O => OutOfFuel
  | S fuel' =>
      let* m1 := copy_unaligned_word m src dst in
      let src1 := src + WORDSIZE P in
      let dst1 := dst + WORDSIZE P in
      if dst1 <? end_p then word_copy_loop fuel' m1 src1 dst1 end_p
      else Done m1
  end.

(** [do { put_unaligned_word(v, dst); src += WORDSIZE; dst += WORDSIZE; }
    while (dst < end);]  ([src] is not read in this loop.) *)
Fixpoint word_fill_loop (fuel : nat) (m : list Z) (v : Z) (dst end_p : Z)
  : result (list Z) :=
  match fuel with
  | O => OutOfFuel
  | S fuel' =>
      let* m1 := put_unaligned_word v m dst in
      let dst1 := dst + WORDSIZE P in
      if dst1 <? end_p then word_fill_loop fuel' m1 v dst1 end_p
      else Done m1
  end.

(** [*dst++ = *src++;]  (the pointer increments are done by the caller) *)
Definition copy_byte (m : list Z) (src dst : Z) : result (list Z) :=
  let* b := Mem.load m src in
  Mem.store m dst b.

(** [if (cond) { *dst++ = *src++; length--; }] on the tuple
    (memory, src, dst, length); [length] is a [u32]. *)
Definition unrolled_copy (cond : bool) (st : list Z * Z * Z * Z)
  : result (list Z * Z * Z * Z) :=
  let '(m, src, dst, length) := st in
  if cond then
    let* m1 := copy_byte m src dst in
    Done (m1, src + 1, dst + 1, wrap32 (length - 1))
  else Done st.

(** [do { *dst++ = *src++; } while (--length);] *)
Fixpoint bytewise_loop (fuel : nat) (m : list Z) (src dst length : Z)
  : result (list Z * Z) :=
  match fuel with
  | O => OutOfFuel
  | S fuel' =>
      let* m1 := copy_byte m src dst in
      let length1 := wrap32 (length - 1) in
      if length1 =? 0 then Done (m1, dst + 1)
      else bytewise_loop fuel' m1 (src + 1) (dst + 1) length1
  end.

(** The part of [lz_copy] after [#endif]: "Fall back to a bytewise copy". *)
Definition lz_copy_bytewise (fuel : nat) (m : list Z) (src dst length min_length : Z)
  : result (list Z * Z) :=
  let* st1 := unrolled_copy (min_length >=? 2) (m, src, dst, length) in
  let* st2 := unrolled_copy (min_length >=? 3) st1 in
  let '(m2, src2, dst2, length2) := st2 in
  bytewise_loop fuel m2 src2 dst2 length2.

(** The result is the output buffer after the call and the returned
    pointer. *)
Definition lz_copy (fuel : nat) (m : list Z) (dst length offset bufend min_length : Z)
  : result (list Z * Z) :=
  let src := dst - offset in
  let end_p := dst + length in
  if FAST_UNALIGNED_ACCESS P && (bufend - end_p >=? WORDSIZE P - 1) then
    if offset >=? WORDSIZE P then
      let* m1 := copy_unaligned_word m src dst in
      let src1 := src + WORDSIZE P in
      let dst1 := dst + WORDSIZE P in
      if dst1 <? end_p then
        let* m2 := word_copy_loop fuel m1 src1 dst1 end_p in
        Done (m2, end_p)
      else Done (m1, end_p)
    else if offset =? 1 then
      let* b := Mem.load m (dst - 1) in
      let v := repeat_byte b in
      let* m1 := word_fill_loop fuel m v dst end_p in
      Done (m1, end_p)
    else lz_copy_bytewise fuel m src dst length min_length
  else lz_copy_bytewise fuel m src dst length min_length.

End LzCopy.

(** ** Reference definitions the specification compares the code with *)

(** The reference byte-by-byte, left-to-right copy loop of the specification:
    [n] times, [out[dst] = out[dst - offset]; dst++]. *)
Fixpoint reference_copy (n : nat) (out : list Z) (dst offset : Z) : result (list Z) :=
  match n with
  | O => Done out
  | S n' =>
      let* b := Mem.load out (dst - offset) in
      let* out1 := Mem.store out dst b in
      reference_copy n' out1 (dst + 1) offset
  end.

(** Bit strings, most significant bit first. *)
Definition bits_value (bs : list bool) : Z :=
  fold_left (fun acc (b : bool) => 2 * acc + Z.b2z b) bs 0.

Fixpoint bits_of (n : nat) (v : Z) : list bool :=
  match n with
  | O => []
  | S n' => Z.testbit v (Z.of_nat n') :: bits_of n' v
  end.

(** The reference bit-writer of the specification's round-trip property:
    bits are collected high to low in a 16-bit coding unit; a full unit is
    emitted as two bytes, low byte first; [bw_finish] pads the last unit with
    zero bits. *)
Record bit_writer : Type := {
  bw_out : list Z;       (* bytes emitted so far *)
  bw_unit : list bool    (* bits of the unit being filled, first bit first *)
}.

Definition bw_init : bit_writer := {| bw_out := []; bw_unit := [] |}.

Definition unit_bytes (bs : list bool) : list Z :=
  let u := bits_value bs in [u mod 256; u / 256].

Definition bw_put_bit (w : bit_writer) (b : bool) : bit_writer :=
  let cur := bw_unit w ++ [b] in
  if (length cur =? 16)%nat
  then {| bw_out := bw_out w ++ unit_bytes cur; bw_unit := [] |}
  else {| bw_out := bw_out w; bw_unit := cur |}.

Definition bw_write_bits (w : bit_writer) (n : nat) (v : Z) : bit_writer :=
  fold_left bw_put_bit (bits_of n v) w.

Definition bw_finish (w : bit_writer) : list Z :=
  match bw_unit w with
  | [] => bw_out w
  | cur => bw_out w ++ unit_bytes (cur ++ replicate (16 - length cur) false)
  end.

(** Write the values [chunks] (pairs of a bit count and a value) and read them
    back with [bitstream_read_bits], one call per chunk. *)
Definition write_chunks (chunks : list (nat * Z)) : list Z :=
  bw_finish (fold_left (fun w '(n, v) => bw_write_bits w n v) chunks bw_init).

Fixpoint read_chunks (buf : list Z) (istream : input_bitstream) (sizes : list nat)
  : result (list Z * input_bitstream) :=
  match sizes with
  | [] => Done ([], istream)
  | n :: rest =>
      let* '(v, istream1) := bitstream_read_bits buf istream (Z.of_nat n) in
      let* '(vs, istream2) := read_chunks buf istream1 rest in
      Done (v :: vs, istream2)
  end.

(** ** Predicates and abstractions of the statements *)

(** The cursor lies inside the input buffer, whose last byte is just before
    [end_]; the buffer size is a [u32], as [init_input_bitstream] takes it. *)
Definition cursor_ok (buf : list Z) (istream : input_bitstream) : Prop :=
  0 <= next istream <= end_ istream /\
  end_ istream = Z.of_nat (length buf) /\
  end_ istream < 2 ^ 32.

(** The accumulator holds exactly the bits [l], left-justified: the documented
    meaning of the fields [bitbuf] and [bitsleft]. *)
Definition acc_holds (istream : input_bitstream) (l : list bool) : Prop :=
  bitsleft istream = Z.of_nat (length l) /\
  (length l <= 32)%nat /\
  bitbuf istream = bits_value l * 2 ^ (32 - Z.of_nat (length l)).

(** The bits a run of input bytes stands for: each complete little-endian
    16-bit coding unit gives its bits high to low; a trailing single byte is
    not a unit. *)
Fixpoint stream_bits (bytes : list Z) : list bool :=
  match bytes with
  | b0 :: b1 :: rest => bits_of 16 (b0 + 256 * b1) ++ stream_bits rest
  | _ => []
  end.

(** The bits a stream delivers from its state on: those in the accumulator,
    then those of the input from the cursor on. *)
Definition pending (buf : list Z) (istream : input_bitstream) (l : list bool) : Prop :=
  exists acc, acc_holds istream acc /\
              l = acc ++ stream_bits (drop (Z.to_nat (next istream)) buf).

(** A chunk for the round trip: a bit count of at most 16 and a value that
    fits in that many bits. *)
Definition chunk_ok (c : nat * Z) : Prop :=
  (fst c <= 16)%nat /\ 0 <= snd c < 2 ^ Z.of_nat (fst c).

(** The reference bit-writer between two bits: whole units emitted, fewer
    than 16 bits waiting. *)
Definition bw_ok (w : bit_writer) : Prop :=
  Nat.even (length (bw_out w)) = true /\ (length (bw_unit w) < 16)%nat /\
  Mem.bytes_ok (bw_out w).

(** The bits the writer has taken so far. *)
Definition bw_written (w : bit_writer) : list bool :=
  stream_bits (bw_out w) ++ bw_unit w.

(** The bits of a list of chunks, in the order they are written. *)
Definition chunks_bits (chunks : list (nat * Z)) : list bool :=
  concat (map (fun c => bits_of (fst c) (snd c)) chunks).

(** The bit-granular operations on a stream, as a caller may sequence them. *)
Inductive bit_op : Type :=
| OpEnsure (num_bits : Z)
| OpPeek (num_bits : Z)
| OpRemove (num_bits : Z)
| OpPop (num_bits : Z)
| OpRead (num_bits : Z)
| OpAlign.

(** Run one operation; a [void] operation yields 0. *)
Definition run_bit_op (buf : list Z) (istream : input_bitstream) (op : bit_op)
  : result (Z * input_bitstream) :=
  match op with
  | OpEnsure n => let* istream1 := bitstream_ensure_bits buf istream n in Done (0, istream1)
  | OpPeek n => Done (bitstream_peek_bits istream n, istream)
  | OpRemove n => Done (0, bitstream_remove_bits istream n)
  | OpPop n => Done (bitstream_pop_bits istream n)
  | OpRead n => bitstream_read_bits buf istream n
  | OpAlign => Done (0, bitstream_align istream)
  end.

Fixpoint run_bit_ops (buf : list Z) (istream : input_bitstream) (ops : list bit_op)
  : result (list Z * input_bitstream) :=
  match ops with
  | [] => Done ([], istream)
  | op :: rest =>
      let* '(v, istream1) := run_bit_op buf istream op in
      let* '(vs, istream2) := run_bit_ops buf istream1 rest in
      Done (v :: vs, istream2)
  end.

(** The state of a match copy in progress.  [mem] is the output buffer at the
    call, [dst] the cursor at the call; [m] is the buffer now and [d] the
    cursor now: nothing before [dst] has changed, and every byte from [dst]
    up to [d] equals the byte [offset] positions before it. *)
Definition copied (mem : list Z) (dst offset : Z) (m : list Z) (d : Z) : Prop :=
  length m = length mem /\
  (forall i, 0 <= i < dst -> m !! Z.to_nat i = mem !! Z.to_nat i) /\
  (forall i, dst <= i < d -> m !! Z.to_nat i = m !! Z.to_nat (i - offset)).

(** The shortest match the bytewise path of [lz_copy] copes with: one byte
    for the loop and one for each unrolled copy that [min_length] enables. *)
Definition shortest_length (min_length : Z) : Z := Z.max 1 (Z.min min_length 3).

(** Two platforms: x86_64 (whole-word match copying compiled in) and a build
    where [FAST_UNALIGNED_ACCESS] is not defined. *)
Definition x86_64 : platform :=
  {| WORDSIZE := 8; FAST_UNALIGNED_ACCESS := true; BIG_ENDIAN := false |}.

Definition bytewise_only : platform :=
  {| WORDSIZE := 8; FAST_UNALIGNED_ACCESS := false; BIG_ENDIAN := false |}.

(** A decode table for [read_huffsym]: [u16] entries; an entry below
    [0xC000] is a fast record (low 11 bits symbol, high 5 bits codeword
    length), an entry from [0xC000] on is a tree node whose low 14 bits are the
    index of its first child, the second child being the next slot.
    [subtree_ok table depth entry]: below the tree node [entry], both child
    slots are inside the table, and every path reaches a fast record within
    [depth] steps. *)
Definition is_u16 (e : Z) : bool := (0 <=? e) && (e <? 65536).

Fixpoint subtree_ok (table : list Z) (depth : nat) (entry : Z) : bool :=
  match depth with
  | O => false
  | S depth' =>
      forallb (fun bit =>
                 match table !! Z.to_nat (Z.land entry 0x3FFF + bit) with
                 | Some e => is_u16 e && ((e <? 0xC000) || subtree_ok table depth' e)
                 | None => false
                 end) [0; 1]
  end.

(** An entry of the directly indexed region: a fast record of a codeword no
    longer than [max_codeword_len], or the root of a tree whose codewords,
    [table_bits] bits plus the path, are no longer than [max_codeword_len]. *)
Definition direct_entry_ok (table : list Z) (table_bits max_codeword_len : Z) (e : Z)
  : bool :=
  is_u16 e &&
  (if e <? 0xC000 then Z.shiftr e 11 <=? max_codeword_len
   else subtree_ok table (Z.to_nat (max_codeword_len - table_bits)) e).

Definition decode_table_ok (table : list Z) (table_bits max_codeword_len : Z) : bool :=
  (0 <=? table_bits) &&
  (2 ^ table_bits <=? Z.of_nat (length table)) &&
  forallb (direct_entry_ok table table_bits max_codeword_len)
          (take (Z.to_nat (2 ^ table_bits)) table).

(** ** Further code of the file and reference definitions for it *)

(** [put_unaligned_le32]: [p[0] = v >> 0; p[1] = v >> 8; p[2] = v >> 16;
    p[3] = v >> 24;], each store keeping the low 8 bits (conversion to
    [u8]).  The packed-struct variant stores the same four bytes. *)
Definition put_unaligned_le32 (v : Z) (m : list Z) (p : Z) : result (list Z) :=
  let* m0 := Mem.store m p (Z.shiftr v 0 mod 256) in
  let* m1 := Mem.store m0 (p + 1) (Z.shiftr v 8 mod 256) in
  let* m2 := Mem.store m1 (p + 2) (Z.shiftr v 16 mod 256) in
  Mem.store m2 (p + 3) (Z.shiftr v 24 mod 256).

(** Following a decode-table tree by a bit string: from the tree node [entry],
    each bit selects the child slot [(entry & 0x3FFF) + bit]; the walk ends at
    the first entry below [0xC000].  The result is that entry and the number
    of bits used; [None] when the bits run out or a slot is outside the
    table. *)
Fixpoint trie_walk (table : list Z) (entry : Z) (bits : list bool) : option (Z * nat) :=
  match bits with
  | [] => None
  | b :: rest =>
      match table !! Z.to_nat (Z.land entry 0x3FFF + Z.b2z b) with
      | Some e =>
          if e >=? 0xC000 then
            match trie_walk table e rest with
            | Some (sym, k) => Some (sym, S k)
            | None => None
            end
          else Some (e, 1%nat)
      | None => None
      end
  end.

(** How far past the end of the match a call of [lz_copy] may write: the
    word-at-a-time paths copy whole words, so up to [WORDSIZE - 1] bytes
    after [dst + length]; the bytewise path writes nothing there. *)
Definition lz_copy_overrun (P : platform) (dst len offset bufend : Z) : Z :=
  if FAST_UNALIGNED_ACCESS P && (bufend - (dst + len) >=? WORDSIZE P - 1)
     && ((offset >=? WORDSIZE P) || (offset =? 1))
  then WORDSIZE P - 1 else 0.

(** * Properties *)

(** ** Memory lemmas *)

Lemma load_Done (m : list Z) (p b : Z) :
  0 <= p -> m !! Z.to_nat p = Some b -> Mem.load m p = Done b.
Proof.
  intros Hp Hl. unfold Mem.load. destruct (decide (0 <= p)); [|lia].
  now rewrite Hl.
Qed.

Lemma load_in_range (m : list Z) (p : Z) :
  0 <= p < Z.of_nat (length m) -> exists b, Mem.load m p = Done b /\ m !! Z.to_nat p = Some b.
Proof.
  intros Hp. destruct (lookup_lt_is_Some_2 m (Z.to_nat p)) as [b Hb]; [lia|].
  exists b. split; [apply load_Done; [lia|exact Hb]|exact Hb].
Qed.

Lemma bytes_ok_lookup (m : list Z) (i : nat) (b : Z) :
  Mem.bytes_ok m -> m !! i = Some b -> 0 <= b < 256.
Proof.
  intros Hm Hl. unfold Mem.bytes_ok in Hm. rewrite Forall_lookup in Hm.
  exact (Hm i b Hl).
Qed.

Lemma get_unaligned_le16_Done (m : list Z) (p : Z) :
  0 <= p -> p + 2 <= Z.of_nat (length m) ->
  exists b0 b1, m !! Z.to_nat p = Some b0 /\ m !! Z.to_nat (p + 1) = Some b1 /\
    get_unaligned_le16 m p = Done (Z.lor b0 (Z.shiftl b1 8)).
Proof.
  intros H0 H2.
  destruct (load_in_range m p) as (b0 & L0 & E0); [lia|].
  destruct (load_in_range m (p + 1)) as (b1 & L1 & E1); [lia|].
  exists b0, b1. unfold get_unaligned_le16. rewrite L0, L1. auto.
Qed.

Lemma get_unaligned_le32_Done (m : list Z) (p : Z) :
  0 <= p -> p + 4 <= Z.of_nat (length m) ->
  exists v, get_unaligned_le32 m p = Done v.
Proof.
  intros H0 H4.
  destruct (load_in_range m p) as (b0 & L0 & _); [lia|].
  destruct (load_in_range m (p + 1)) as (b1 & L1 & _); [lia|].
  destruct (load_in_range m (p + 2)) as (b2 & L2 & _); [lia|].
  destruct (load_in_range m (p + 3)) as (b3 & L3 & _); [lia|].
  unfold get_unaligned_le32. rewrite L0, L1, L2, L3. eauto.
Qed.

(** ** Arithmetic of bit strings *)

Lemma wrap32_small (x : Z) : 0 <= x < 2 ^ 32 -> wrap32 x = x.
Proof. intros H. unfold wrap32. now apply Z.mod_small. Qed.

Lemma bits_value_fold (l : list bool) (acc : Z) :
  fold_left (fun a (b : bool) => 2 * a + Z.b2z b) l acc
  = acc * 2 ^ Z.of_nat (length l) + bits_value l.
Proof.
  unfold bits_value. revert acc. induction l as [|b l IH]; intros acc.
  - simpl. lia.
  - cbn [fold_left length]. rewrite IH, (IH (2 * 0 + Z.b2z b)).
    rewrite Nat2Z.inj_succ, Z.pow_succ_r by lia. ring.
Qed.

Lemma bits_value_cons (b : bool) (l : list bool) :
  bits_value (b :: l) = Z.b2z b * 2 ^ Z.of_nat (length l) + bits_value l.
Proof.
  unfold bits_value at 1. cbn [fold_left]. rewrite bits_value_fold. ring.
Qed.

Lemma bits_value_app (a b : list bool) :
  bits_value (a ++ b) = bits_value a * 2 ^ Z.of_nat (length b) + bits_value b.
Proof.
  unfold bits_value at 1. rewrite fold_left_app.
  fold (bits_value a). apply bits_value_fold.
Qed.

Lemma bits_value_bound (l : list bool) : 0 <= bits_value l < 2 ^ Z.of_nat (length l).
Proof.
  induction l as [|b l IH].
  - cbn. lia.
  - rewrite bits_value_cons. cbn [length]. rewrite Nat2Z.inj_succ, Z.pow_succ_r by lia.
    set (p := 2 ^ Z.of_nat (length l)) in *.
    destruct b; cbn [Z.b2z]; lia.
Qed.

Lemma bits_value_zeros (n : nat) : bits_value (replicate n false) = 0.
Proof.
  induction n as [|n IH]; [reflexivity|].
  cbn [replicate]. rewrite bits_value_cons, IH. cbn. lia.
Qed.

Lemma bits_of_length (n : nat) (v : Z) : length (bits_of n v) = n.
Proof. induction n; cbn; congruence. Qed.

Lemma bits_value_bits_of (n : nat) (v : Z) :
  bits_value (bits_of n v) = v mod 2 ^ Z.of_nat n.
Proof.
  induction n as [|n IH].
  - cbn. now rewrite Z.mod_1_r.
  - cbn [bits_of]. rewrite bits_value_cons, bits_of_length, IH.
    rewrite Z.testbit_spec' by lia.
    rewrite Nat2Z.inj_succ, Z.pow_succ_r by lia.
    rewrite (Z.mul_comm 2), Z.rem_mul_r by lia. ring.
Qed.

Lemma bits_value_take_drop (n : nat) (l : list bool) :
  (n <= length l)%nat ->
  bits_value l
  = bits_value (take n l) * 2 ^ (Z.of_nat (length l) - Z.of_nat n) + bits_value (drop n l).
Proof.
  intros Hn. rewrite <- (take_drop n l) at 1.
  rewrite bits_value_app, length_drop, Nat2Z.inj_sub by lia. reflexivity.
Qed.

Lemma lor_shifted_add (a b m : Z) :
  0 <= m -> 0 <= b < 2 ^ m -> Z.lor (a * 2 ^ m) b = a * 2 ^ m + b.
Proof.
  intros Hm Hb. symmetry. apply Z.add_nocarry_lor.
  apply Z.bits_inj'. intros i Hi. rewrite Z.land_spec, Z.bits_0.
  destruct (Z.lt_ge_cases i m).
  - rewrite Z.mul_pow2_bits_low by lia. reflexivity.
  - rewrite <- (Z.mod_small b (2 ^ m)) by lia.
    rewrite Z.mod_pow2_bits_high by lia. apply andb_false_r.
Qed.

Lemma le16_value (b0 b1 : Z) :
  0 <= b0 < 256 -> 0 <= b1 < 256 ->
  Z.lor b0 (Z.shiftl b1 8) = b0 + 256 * b1 /\ 0 <= b0 + 256 * b1 < 65536.
Proof.
  intros H0 H1. rewrite Z.shiftl_mul_pow2 by lia. rewrite Z.lor_comm.
  rewrite lor_shifted_add by (cbn; lia). cbn. lia.
Qed.

(** ** The accumulator as a bit string *)

Lemma acc_refill (istream : input_bitstream) (l : list bool) (u nxt : Z) :
  acc_holds istream l -> (length l < 16)%nat -> 0 <= u < 65536 ->
  acc_holds {| bitbuf := Z.lor (bitbuf istream) (shl32 u (wrap32 (16 - bitsleft istream)));
               bitsleft := wrap32 (bitsleft istream + 16);
               next := nxt; end_ := end_ istream |}
            (l ++ bits_of 16 u).
Proof.
  intros (Hb & Hl & Hv) Hlt Hu. unfold acc_holds. cbn [bitbuf bitsleft].
  rewrite length_app, bits_of_length, Hb, Hv.
  set (L := Z.of_nat (length l)) in *. assert (0 <= L < 16) by lia.
  rewrite !wrap32_small by lia.
  split; [lia|]. split; [lia|].
  unfold shl32. destruct (Z.ltb_spec (16 - L) 32); [|lia].
  rewrite Z.shiftl_mul_pow2 by lia.
  assert (Hp : 2 ^ (32 - L) = 2 ^ 16 * 2 ^ (16 - L))
    by (rewrite <- Z.pow_add_r by lia; f_equal; lia).
  assert (0 < 2 ^ (16 - L)) by (apply Z.pow_pos_nonneg; lia).
  assert (Hub : 0 <= u * 2 ^ (16 - L) < 2 ^ (32 - L)) by (rewrite Hp; nia).
  rewrite wrap32_small.
  2:{ split; [lia|]. eapply Z.lt_le_trans; [apply Hub|].
      apply Z.pow_le_mono_r; lia. }
  rewrite lor_shifted_add by lia.
  rewrite bits_value_app, bits_of_length, bits_value_bits_of.
  replace (32 - Z.of_nat (length l + 16)) with (16 - L) by lia.
  rewrite Hp. change (Z.of_nat 16) with 16. rewrite Z.mod_small by lia. ring.
Qed.

Lemma acc_pad (istream : input_bitstream) (l : list bool) :
  acc_holds istream l -> (length l < 16)%nat ->
  acc_holds {| bitbuf := bitbuf istream;
               bitsleft := wrap32 (bitsleft istream + 16);
               next := next istream; end_ := end_ istream |}
            (l ++ replicate 16 false).
Proof.
  intros (Hb & Hl & Hv) Hlt. unfold acc_holds. cbn [bitbuf bitsleft].
  rewrite length_app, length_replicate, Hb, Hv.
  set (L := Z.of_nat (length l)) in *. assert (0 <= L < 16) by lia.
  rewrite wrap32_small by lia.
  split; [lia|]. split; [lia|].
  rewrite bits_value_app, length_replicate, bits_value_zeros.
  replace (32 - Z.of_nat (length l + 16)) with (16 - L) by lia.
  replace (32 - L) with (16 + (16 - L)) by lia. rewrite Z.pow_add_r by lia.
  change (Z.of_nat 16) with 16. ring.
Qed.

Lemma acc_peek (istream : input_bitstream) (l : list bool) (n : nat) :
  acc_holds istream l -> (n <= length l)%nat ->
  bitstream_peek_bits istream (Z.of_nat n) = bits_value (take n l).
Proof.
  intros (Hb & Hl & Hv) Hn. unfold bitstream_peek_bits.
  destruct (Z.eqb_spec (Z.of_nat n) 0) as [E|E].
  - replace n with O by lia. reflexivity.
  - rewrite wrap32_small by lia. unfold shr32.
    destruct (Z.ltb_spec (32 - Z.of_nat n) 32); [|lia].
    rewrite Z.shiftr_div_pow2, Hv by lia.
    rewrite (bits_value_take_drop n l Hn).
    set (L := Z.of_nat (length l)). set (N := Z.of_nat n).
    pose proof (bits_value_bound (drop n l)) as Hd. rewrite length_drop in Hd.
    rewrite Nat2Z.inj_sub in Hd by lia. fold L N in Hd.
    replace (32 - N) with ((L - N) + (32 - L)) by lia.
    rewrite Z.pow_add_r by lia.
    assert (0 < 2 ^ (L - N)) by (apply Z.pow_pos_nonneg; lia).
    assert (0 < 2 ^ (32 - L)) by (apply Z.pow_pos_nonneg; lia).
    rewrite Z.div_mul_cancel_r by lia.
    rewrite Z.div_add_l by lia. rewrite Z.div_small by lia. lia.
Qed.

Lemma acc_remove (istream : input_bitstream) (l : list bool) (n : nat) :
  acc_holds istream l -> (n <= length l)%nat ->
  acc_holds (bitstream_remove_bits istream (Z.of_nat n)) (drop n l).
Proof.
  intros (Hb & Hl & Hv) Hn. unfold acc_holds, bitstream_remove_bits.
  cbn [bitbuf bitsleft]. rewrite length_drop, Hb, Hv.
  rewrite wrap32_small by lia.
  split; [lia|]. split; [lia|].
  rewrite Nat2Z.inj_sub by lia.
  set (L := Z.of_nat (length l)). set (N := Z.of_nat n).
  assert (0 <= N <= L /\ L <= 32) by lia.
  pose proof (bits_value_bound (drop n l)) as Hd. rewrite length_drop in Hd.
  rewrite Nat2Z.inj_sub in Hd by lia. fold L N in Hd.
  unfold shl32. destruct (Z.ltb_spec N 32).
  - rewrite Z.shiftl_mul_pow2 by lia.
    rewrite (bits_value_take_drop n l Hn). fold L N.
    set (Hi := bits_value (take n l)). set (T := bits_value (drop n l)) in *.
    assert (Hp : 2 ^ (32 - (L - N)) = 2 ^ (32 - L) * 2 ^ N)
      by (rewrite <- Z.pow_add_r by lia; f_equal; lia).
    assert (H32 : 2 ^ 32 = 2 ^ (L - N) * 2 ^ (32 - (L - N)))
      by (rewrite <- Z.pow_add_r by lia; f_equal; lia).
    assert (0 < 2 ^ (32 - (L - N))) by (apply Z.pow_pos_nonneg; lia).
    replace ((Hi * 2 ^ (L - N) + T) * 2 ^ (32 - L) * 2 ^ N)
      with (T * 2 ^ (32 - (L - N)) + Hi * 2 ^ 32) by (rewrite H32, Hp; ring).
    unfold wrap32. rewrite Z.mod_add by lia.
    apply Z.mod_small. rewrite H32. nia.
  - replace (L - N) with 0 in * by lia. change (2 ^ 0) with 1 in Hd.
    replace (bits_value (drop n l)) with 0 by lia. reflexivity.
Qed.

(** ** bitstream_ensure_bits *)

(** The three ways through [bitstream_ensure_bits], with the loads resolved. *)
Lemma ensure_bits_cases (buf : list Z) (istream : input_bitstream) (n : Z) :
  cursor_ok buf istream ->
  (bitsleft istream < n /\ 2 <= end_ istream - next istream /\
   exists b0 b1,
     buf !! Z.to_nat (next istream) = Some b0 /\
     buf !! Z.to_nat (next istream + 1) = Some b1 /\
     bitstream_ensure_bits buf istream n =
       Done {| bitbuf := Z.lor (bitbuf istream)
                           (shl32 (Z.lor b0 (Z.shiftl b1 8)) (wrap32 (16 - bitsleft istream)));
               bitsleft := wrap32 (bitsleft istream + 16);
               next := next istream + 2;
               end_ := end_ istream |}) \/
  (bitsleft istream < n /\ end_ istream - next istream < 2 /\
   bitstream_ensure_bits buf istream n =
     Done {| bitbuf := bitbuf istream;
             bitsleft := wrap32 (bitsleft istream + 16);
             next := next istream;
             end_ := end_ istream |}) \/
  (n <= bitsleft istream /\ bitstream_ensure_bits buf istream n = Done istream).
Proof.
  intros (Hn & He & _). unfold bitstream_ensure_bits.
  destruct (Z.ltb_spec (bitsleft istream) n); [|right; right; auto].
  destruct (Z.geb_spec (end_ istream - next istream) 2).
  - left. repeat split; [lia..|].
    destruct (get_unaligned_le16_Done buf (next istream)) as (b0 & b1 & E0 & E1 & ->);
      [lia..|].
    exists b0, b1. auto.
  - right; left. repeat split; auto; lia.
Qed.

Lemma ensure_bits_cursor (buf : list Z) (istream : input_bitstream) (n : Z) :
  cursor_ok buf istream ->
  exists istream', bitstream_ensure_bits buf istream n = Done istream' /\
    cursor_ok buf istream' /\
    next istream <= next istream' <= next istream + 2.
Proof.
  intros Hc. pose proof Hc as (Hn & He & Hs).
  destruct (ensure_bits_cases buf istream n Hc)
    as [(_ & H2 & b0 & b1 & _ & _ & ->)|[(_ & _ & ->)|(_ & ->)]];
    eexists; (split; [reflexivity|]); unfold cursor_ok; cbn [next end_]; lia.
Qed.

(** C4.  For a stream whose cursor is inside the buffer and [n <= 16],
    [bitstream_ensure_bits] returns, and afterwards at least [n] bits are
    buffered.  When fewer than [n] bits were buffered: with two or more input
    bytes left it loads the little-endian 16-bit unit at the cursor, moves the
    cursor past it and the accumulator holds its old bits followed by the 16
    bits of the unit; with fewer than two bytes left the cursor stays and the
    accumulator holds its old bits followed by 16 zero bits. *)
Theorem ensure_bits_refill (buf : list Z) (istream : input_bitstream) (n : Z) :
  cursor_ok buf istream -> Mem.bytes_ok buf -> 0 <= bitsleft istream -> n <= 16 ->
  exists istream',
    bitstream_ensure_bits buf istream n = Done istream' /\
    n <= bitsleft istream' /\
    cursor_ok buf istream' /\
    (n <= bitsleft istream -> istream' = istream) /\
    (bitsleft istream < n -> 2 <= end_ istream - next istream ->
       exists b0 b1,
         buf !! Z.to_nat (next istream) = Some b0 /\
         buf !! Z.to_nat (next istream + 1) = Some b1 /\
         next istream' = next istream + 2 /\
         bitsleft istream' = bitsleft istream + 16 /\
         forall l, acc_holds istream l ->
                   acc_holds istream' (l ++ bits_of 16 (b0 + 256 * b1))) /\
    (bitsleft istream < n -> end_ istream - next istream < 2 ->
       next istream' = next istream /\
       bitsleft istream' = bitsleft istream + 16 /\
       bitbuf istream' = bitbuf istream /\
       forall l, acc_holds istream l ->
                 acc_holds istream' (l ++ replicate 16 false)).
Proof.
  intros Hc Hbytes Hbl Hn16.
  destruct (ensure_bits_cursor buf istream n Hc) as (is' & Hdone & Hc' & _).
  exists is'. split; [exact Hdone|].
  destruct (ensure_bits_cases buf istream n Hc)
    as [(Hlt & H2 & b0 & b1 & E0 & E1 & E)|[(Hlt & H2 & E)|(Hge & E)]];
    rewrite E in Hdone; injection Hdone as <-.
  - assert (Hw : wrap32 (bitsleft istream + 16) = bitsleft istream + 16)
      by (apply wrap32_small; lia).
    split; [cbn [bitsleft]; lia|]. split; [exact Hc'|].
    split; [lia|]. split; [|lia].
    intros _ _. exists b0, b1.
    split; [exact E0|]. split; [exact E1|].
    split; [reflexivity|]. split; [exact Hw|].
    intros l Hl.
    destruct (le16_value b0 b1) as (Hv & Hr);
      [eapply bytes_ok_lookup; eauto..|].
    rewrite Hv. apply acc_refill; [exact Hl| |exact Hr].
    destruct Hl as (Hb & _). lia.
  - assert (Hw : wrap32 (bitsleft istream + 16) = bitsleft istream + 16)
      by (apply wrap32_small; lia).
    split; [cbn [bitsleft]; lia|]. split; [exact Hc'|].
    split; [lia|]. split; [lia|].
    intros _ _.
    split; [reflexivity|]. split; [exact Hw|]. split; [reflexivity|].
    intros l Hl. apply acc_pad; [exact Hl|]. destruct Hl as (Hb & _). lia.
  - split; [lia|]. split; [exact Hc'|]. split; [auto|]. split; lia.
Qed.

Lemma ensure_bits_refill_witness :
  exists istream',
    bitstream_ensure_bits [0x34; 0x12; 0xFF] (init_input_bitstream 3) 5 = Done istream' /\
    5 <= bitsleft istream'.
Proof.
  destruct (ensure_bits_refill [0x34; 0x12; 0xFF] (init_input_bitstream 3) 5)
    as (is' & H1 & H2 & _).
  - unfold cursor_ok; cbn; lia.
  - repeat constructor; lia.
  - cbn; lia.
  - lia.
  - exists is'. split; assumption.
Defined.

(** ** The byte-granular reads *)

Lemma read_byte_cases (buf : list Z) (istream : input_bitstream) :
  cursor_ok buf istream ->
  (end_ istream = next istream /\ bitstream_read_byte buf istream = Done (0, istream)) \/
  (next istream < end_ istream /\
   exists b, buf !! Z.to_nat (next istream) = Some b /\
     bitstream_read_byte buf istream =
       Done (b, {| bitbuf := bitbuf istream; bitsleft := bitsleft istream;
                   next := next istream + 1; end_ := end_ istream |})).
Proof.
  intros (Hn & He & _). unfold bitstream_read_byte.
  destruct (Z.eqb_spec (end_ istream) (next istream)); [left; auto|].
  right. split; [lia|].
  destruct (load_in_range buf (next istream)) as (b & -> & Hb); [lia|].
  exists b. auto.
Qed.

Lemma read_u16_cases (buf : list Z) (istream : input_bitstream) :
  cursor_ok buf istream ->
  (end_ istream - next istream < 2 /\ bitstream_read_u16 buf istream = Done (0, istream)) \/
  (2 <= end_ istream - next istream /\
   exists v, bitstream_read_u16 buf istream =
       Done (v, {| bitbuf := bitbuf istream; bitsleft := bitsleft istream;
                   next := next istream + 2; end_ := end_ istream |})).
Proof.
  intros (Hn & He & _). unfold bitstream_read_u16.
  destruct (Z.ltb_spec (end_ istream - next istream) 2); [left; auto|].
  right. split; [lia|].
  destruct (get_unaligned_le16_Done buf (next istream)) as (b0 & b1 & _ & _ & ->);
    [lia..|].
  eauto.
Qed.

Lemma read_u32_cases (buf : list Z) (istream : input_bitstream) :
  cursor_ok buf istream ->
  (end_ istream - next istream < 4 /\ bitstream_read_u32 buf istream = Done (0, istream)) \/
  (4 <= end_ istream - next istream /\
   exists v, bitstream_read_u32 buf istream =
       Done (v, {| bitbuf := bitbuf istream; bitsleft := bitsleft istream;
                   next := next istream + 4; end_ := end_ istream |})).
Proof.
  intros (Hn & He & _). unfold bitstream_read_u32.
  destruct (Z.ltb_spec (end_ istream - next istream) 4); [left; auto|].
  right. split; [lia|].
  destruct (get_unaligned_le32_Done buf (next istream)) as (v & ->); [lia..|].
  eauto.
Qed.

Lemma read_bytes_cases (buf : list Z) (size_bits : Z) (istream : input_bitstream) (count : Z) :
  cursor_ok buf istream -> 32 <= size_bits -> 0 <= count ->
  (end_ istream - next istream < count /\
   bitstream_read_bytes buf size_bits istream count = Done (None, istream)) \/
  (count <= end_ istream - next istream /\
   bitstream_read_bytes buf size_bits istream count =
     Done (Some (take (Z.to_nat count) (drop (Z.to_nat (next istream)) buf)),
           {| bitbuf := bitbuf istream; bitsleft := bitsleft istream;
              next := next istream + count; end_ := end_ istream |})).
Proof.
  intros (Hn & He & Hs) Hsb Hc. unfold bitstream_read_bytes.
  assert (2 ^ 32 <= 2 ^ size_bits) by (apply Z.pow_le_mono_r; lia).
  rewrite (Z.mod_small (end_ istream - next istream)) by lia.
  destruct (Z.ltb_spec (end_ istream - next istream) count); [left; auto|].
  right. split; [lia|]. unfold Mem.load_bytes.
  destruct (decide _) as [_|Hbad]; [reflexivity|]. lia.
Qed.

(** C5.  [init_input_bitstream] puts the cursor inside the buffer, every
    operation on the stream keeps it there, and every operation returns
    ([Done]): none of its loads falls outside the buffer, whose last byte is
    the one before [end_].  ([bitstream_peek_bits] takes the stream read-only
    and loads nothing.) *)
Theorem cursor_never_exceeds_end (buf : list Z) :
  (Z.of_nat (length buf) < 2 ^ 32 ->
   cursor_ok buf (init_input_bitstream (Z.of_nat (length buf)))) /\
  forall istream, cursor_ok buf istream ->
    (forall n, exists istream',
        bitstream_ensure_bits buf istream n = Done istream' /\ cursor_ok buf istream') /\
    (forall n, cursor_ok buf (bitstream_remove_bits istream n)) /\
    (forall n, cursor_ok buf (snd (bitstream_pop_bits istream n))) /\
    (forall n, exists v istream',
        bitstream_read_bits buf istream n = Done (v, istream') /\ cursor_ok buf istream') /\
    (exists v istream',
        bitstream_read_byte buf istream = Done (v, istream') /\ cursor_ok buf istream') /\
    (exists v istream',
        bitstream_read_u16 buf istream = Done (v, istream') /\ cursor_ok buf istream') /\
    (exists v istream',
        bitstream_read_u32 buf istream = Done (v, istream') /\ cursor_ok buf istream') /\
    (forall size_bits count, 32 <= size_bits -> 0 <= count ->
      exists r istream',
        bitstream_read_bytes buf size_bits istream count = Done (r, istream') /\
        cursor_ok buf istream') /\
    cursor_ok buf (bitstream_align istream).
Proof.
  split.
  { intros Hs. unfold cursor_ok, init_input_bitstream. cbn. lia. }
  intros istream Hc. pose proof Hc as (Hn & He & Hs).
  split.
  { intros n. destruct (ensure_bits_cursor buf istream n Hc) as (is' & E & Hc' & _).
    eauto. }
  split; [intros n; exact Hc|].
  split; [intros n; exact Hc|].
  split.
  { intros n. unfold bitstream_read_bits.
    destruct (ensure_bits_cursor buf istream n Hc) as (is' & -> & Hc' & _).
    cbn [rbind]. eexists _, _. split; [reflexivity|]. exact Hc'. }
  split.
  { destruct (read_byte_cases buf istream Hc) as [(_ & ->)|(Hlt & b & _ & ->)];
      eexists _, _; (split; [reflexivity|]); [exact Hc|].
    unfold cursor_ok; cbn [next end_]; lia. }
  split.
  { destruct (read_u16_cases buf istream Hc) as [(_ & ->)|(Hlt & v & ->)];
      eexists _, _; (split; [reflexivity|]); [exact Hc|].
    unfold cursor_ok; cbn [next end_]; lia. }
  split.
  { destruct (read_u32_cases buf istream Hc) as [(_ & ->)|(Hlt & v & ->)];
      eexists _, _; (split; [reflexivity|]); [exact Hc|].
    unfold cursor_ok; cbn [next end_]; lia. }
  split.
  { intros size_bits count Hsb Hcount.
    destruct (read_bytes_cases buf size_bits istream count Hc Hsb Hcount)
      as [(_ & ->)|(Hle & ->)];
      eexists _, _; (split; [reflexivity|]); [exact Hc|].
    unfold cursor_ok; cbn [next end_]; lia. }
  exact Hc.
Qed.

Lemma cursor_never_exceeds_end_witness :
  exists v istream',
    bitstream_read_u16 [1; 2; 3] (init_input_bitstream 3) = Done (v, istream') /\
    cursor_ok [1; 2; 3] istream'.
Proof.
  destruct (cursor_never_exceeds_end [1; 2; 3]) as (Hinit & Hops).
  assert (Hc : cursor_ok [1; 2; 3] (init_input_bitstream 3))
    by (apply Hinit; cbn; lia).
  destruct (Hops _ Hc) as (_ & _ & _ & _ & _ & H16 & _).
  exact H16.
Defined.

(** C7.  With the cursor inside the buffer: [bitstream_read_byte] returns 0
    when no byte is left, [bitstream_read_u16] when fewer than 2 are left,
    [bitstream_read_u32] when fewer than 4 are left, and
    [bitstream_read_bytes] returns NULL exactly when fewer than [count] are
    left; in each of these cases the stream is unchanged.  All four calls
    return whatever the stream holds: no load falls outside the buffer. *)
Theorem byte_reads_on_exhaustion (buf : list Z) (istream : input_bitstream) :
  cursor_ok buf istream ->
  (end_ istream - next istream = 0 ->
     bitstream_read_byte buf istream = Done (0, istream)) /\
  (end_ istream - next istream < 2 ->
     bitstream_read_u16 buf istream = Done (0, istream)) /\
  (end_ istream - next istream < 4 ->
     bitstream_read_u32 buf istream = Done (0, istream)) /\
  (forall size_bits count, 32 <= size_bits -> 0 <= count ->
     (end_ istream - next istream < count ->
        bitstream_read_bytes buf size_bits istream count = Done (None, istream)) /\
     (count <= end_ istream - next istream ->
        exists bs istream',
          bitstream_read_bytes buf size_bits istream count = Done (Some bs, istream') /\
          Z.of_nat (length bs) = count /\
          next istream' = next istream + count)) /\
  (exists r, bitstream_read_byte buf istream = Done r) /\
  (exists r, bitstream_read_u16 buf istream = Done r) /\
  (exists r, bitstream_read_u32 buf istream = Done r) /\
  (forall size_bits count, 32 <= size_bits -> 0 <= count ->
     exists r, bitstream_read_bytes buf size_bits istream count = Done r).
Proof.
  intros Hc. pose proof Hc as (Hn & He & Hs).
  pose proof (read_byte_cases buf istream Hc) as H8.
  pose proof (read_u16_cases buf istream Hc) as H16.
  pose proof (read_u32_cases buf istream Hc) as H32.
  split; [intros Hz; destruct H8 as [(_ & E)|(Hlt & _)]; [exact E|lia]|].
  split; [intros Hz; destruct H16 as [(_ & E)|(Hlt & _)]; [exact E|lia]|].
  split; [intros Hz; destruct H32 as [(_ & E)|(Hlt & _)]; [exact E|lia]|].
  split.
  { intros size_bits count Hsb Hcount.
    destruct (read_bytes_cases buf size_bits istream count Hc Hsb Hcount)
      as [(Hlt & E)|(Hle & E)]; (split; [intros Hz|intros Hz]); try lia.
    - exact E.
    - eexists _, _. split; [exact E|]. split; [|reflexivity].
      rewrite length_take, length_drop. lia. }
  split; [destruct H8 as [(_ & E)|(_ & b & _ & E)]; eauto|].
  split; [destruct H16 as [(_ & E)|(_ & b & E)]; eauto|].
  split; [destruct H32 as [(_ & E)|(_ & b & E)]; eauto|].
  intros size_bits count Hsb Hcount.
  destruct (read_bytes_cases buf size_bits istream count Hc Hsb Hcount)
    as [(_ & E)|(_ & E)]; eauto.
Qed.

Lemma byte_reads_on_exhaustion_witness :
  bitstream_read_u32 [7; 8; 9]
    {| bitbuf := 0; bitsleft := 0; next := 1; end_ := 3 |}
  = Done (0, {| bitbuf := 0; bitsleft := 0; next := 1; end_ := 3 |}).
Proof.
  destruct (byte_reads_on_exhaustion [7; 8; 9]
              {| bitbuf := 0; bitsleft := 0; next := 1; end_ := 3 |})
    as (_ & _ & H32 & _).
  - unfold cursor_ok; cbn; lia.
  - apply H32. cbn. lia.
Defined.

(** ** read_huffsym *)

Lemma shl32_range (x n : Z) : 0 <= shl32 x n < 2 ^ 32.
Proof.
  unfold shl32, wrap32. destruct (n <? 32); [apply Z.mod_pos_bound|]; lia.
Qed.

Lemma shl32_shl32 (x a b : Z) :
  0 <= a -> 0 <= b -> shl32 (shl32 x a) b = shl32 x (a + b).
Proof.
  intros Ha Hb. unfold shl32, wrap32.
  destruct (Z.ltb_spec a 32), (Z.ltb_spec b 32), (Z.ltb_spec (a + b) 32);
    try lia; try reflexivity.
  - rewrite !Z.shiftl_mul_pow2 by lia.
    rewrite Z.mul_mod_idemp_l by lia. rewrite Z.pow_add_r by lia.
    f_equal. ring.
  - rewrite !Z.shiftl_mul_pow2 by lia.
    rewrite Z.mul_mod_idemp_l by lia.
    replace (x * 2 ^ a * 2 ^ b) with (x * 2 ^ (a + b - 32) * 2 ^ 32).
    + apply Z.mod_mul. lia.
    + rewrite <- !Z.mul_assoc, <- !Z.pow_add_r by lia. do 2 f_equal. lia.
  - rewrite Z.shiftl_0_l. reflexivity.
Qed.

Lemma remove_bits_remove_bits (istream : input_bitstream) (a b : Z) :
  0 <= a -> 0 <= b ->
  bitstream_remove_bits (bitstream_remove_bits istream a) b
  = bitstream_remove_bits istream (a + b).
Proof.
  intros Ha Hb. unfold bitstream_remove_bits. cbn [bitbuf bitsleft next end_].
  rewrite shl32_shl32 by lia. f_equal.
  unfold wrap32. rewrite Zminus_mod_idemp_l. f_equal. lia.
Qed.

Lemma peek_bits_range (istream : input_bitstream) (n : Z) :
  0 <= bitbuf istream < 2 ^ 32 -> 0 <= n ->
  0 <= bitstream_peek_bits istream n < 2 ^ n.
Proof.
  intros Hb Hn. unfold bitstream_peek_bits.
  assert (0 < 2 ^ n) by (apply Z.pow_pos_nonneg; lia).
  destruct (Z.eqb_spec n 0); [lia|].
  unfold shr32.
  destruct (Z.ltb_spec (wrap32 (32 - n)) 32) as [Hlt|Hge]; [|lia].
  assert (Hw : 0 <= wrap32 (32 - n)) by (unfold wrap32; apply Z.mod_pos_bound; lia).
  rewrite Z.shiftr_div_pow2 by lia.
  assert (0 < 2 ^ wrap32 (32 - n)) by (apply Z.pow_pos_nonneg; lia).
  split; [apply Z.div_pos; lia|].
  destruct (Z.le_gt_cases 32 n) as [Hbig|Hsmall].
  - apply Z.le_lt_trans with (bitbuf istream).
    + apply Z.div_le_upper_bound; [lia|]. nia.
    + apply Z.lt_le_trans with (2 ^ 32); [lia|]. apply Z.pow_le_mono_r; lia.
  - rewrite wrap32_small by lia.
    apply Z.div_lt_upper_bound; [apply Z.pow_pos_nonneg; lia|].
    rewrite <- Z.pow_add_r by lia. replace (32 - n + n) with 32 by lia. lia.
Qed.

Lemma is_u16_true (e : Z) : is_u16 e = true -> 0 <= e < 65536.
Proof. unfold is_u16. intros H. apply andb_true_iff in H. lia. Qed.

(** The tree walk reaches a fast record within the depth of the tree. *)
Lemma huff_tree_walk_Done (table : list Z) (depth : nat) :
  forall (fuel : nat) (entry : Z) (istream : input_bitstream),
    subtree_ok table depth entry = true ->
    (depth <= fuel)%nat ->
    0 <= bitbuf istream < 2 ^ 32 ->
    exists sym k,
      huff_tree_walk fuel table entry istream
        = Done (sym, bitstream_remove_bits istream k) /\
      1 <= k <= Z.of_nat depth /\ 0 <= sym < 0xC000.
Proof.
  induction depth as [|d IH]; intros fuel entry istream Hok Hfuel Hbuf.
  - discriminate.
  - destruct fuel as [|fuel]; [lia|].
    cbn [huff_tree_walk bitstream_pop_bits].
    pose proof (peek_bits_range istream 1 Hbuf ltac:(lia)) as Hbit.
    change (2 ^ 1) with 2 in Hbit.
    set (bit := bitstream_peek_bits istream 1) in *.
    cbn [subtree_ok forallb] in Hok.
    apply andb_true_iff in Hok as (Hc0 & Hc1). apply andb_true_iff in Hc1 as (Hc1 & _).
    assert (Hchild : match table !! Z.to_nat (Z.land entry 0x3FFF + bit) with
                     | Some e => is_u16 e && ((e <? 0xC000) || subtree_ok table d e)
                     | None => false
                     end = true).
    { assert (bit = 0 \/ bit = 1) as [->| ->] by lia; assumption. }
    assert (Hidx : 0 <= Z.land entry 0x3FFF + bit).
    { pose proof (Z.land_nonneg entry 0x3FFF). lia. }
    destruct (table !! Z.to_nat (Z.land entry 0x3FFF + bit)) as [e|] eqn:El;
      [|discriminate].
    rewrite (load_Done _ _ e Hidx El). cbn [rbind].
    apply andb_true_iff in Hchild as (Hu & Hsub). apply is_u16_true in Hu.
    destruct (Z.geb_spec e 0xC000) as [Hnode|Hleaf].
    + apply orb_true_iff in Hsub as [Hlt|Hsub]; [lia|].
      destruct (IH fuel e (bitstream_remove_bits istream 1) Hsub ltac:(lia))
        as (sym & k & E & Hk & Hsym).
      { cbn [bitstream_remove_bits bitbuf]. apply shl32_range. }
      exists sym, (1 + k). rewrite E, remove_bits_remove_bits by lia.
      split; [reflexivity|]. lia.
    + exists e, 1. split; [reflexivity|]. lia.
Qed.

Lemma ensure_bits_bitbuf_range (buf : list Z) (istream istream' : input_bitstream) (n : Z) :
  0 <= bitbuf istream < 2 ^ 32 ->
  bitstream_ensure_bits buf istream n = Done istream' ->
  0 <= bitbuf istream' < 2 ^ 32.
Proof.
  intros Hb. unfold bitstream_ensure_bits.
  destruct (bitsleft istream <? n); [|intros [= <-]; exact Hb].
  destruct (end_ istream - next istream >=? 2); [|intros [= <-]; exact Hb].
  destruct (get_unaligned_le16 buf (next istream)) as [v| |]; cbn [rbind];
    [|discriminate..].
  intros [= <-]. cbn [bitbuf].
  pose proof (shl32_range v (wrap32 (16 - bitsleft istream))) as Hs.
  split.
  - apply Z.lor_nonneg. lia.
  - destruct (Z.eq_dec (Z.lor (bitbuf istream) (shl32 v (wrap32 (16 - bitsleft istream)))) 0)
      as [->|Hne]; [lia|].
    apply Z.log2_lt_pow2; [pose proof (Z.lor_nonneg (bitbuf istream)
        (shl32 v (wrap32 (16 - bitsleft istream)))); lia|].
    rewrite Z.log2_lor by lia.
    apply Z.max_lub_lt.
    + destruct (Z.eq_dec (bitbuf istream) 0) as [->|]; [cbn; lia|].
      apply Z.log2_lt_pow2; lia.
    + destruct (Z.eq_dec (shl32 v (wrap32 (16 - bitsleft istream))) 0) as [->|];
        [cbn; lia|].
      apply Z.log2_lt_pow2; lia.
Qed.

Lemma direct_entry_lookup (table : list Z) (table_bits max_codeword_len key : Z) :
  decode_table_ok table table_bits max_codeword_len = true ->
  0 <= key < 2 ^ table_bits ->
  exists e, table !! Z.to_nat key = Some e /\
            direct_entry_ok table table_bits max_codeword_len e = true.
Proof.
  unfold decode_table_ok. intros Hok Hkey.
  apply andb_true_iff in Hok as (Hok & Hall). apply andb_true_iff in Hok as (Htb & Hlen).
  destruct (lookup_lt_is_Some_2 table (Z.to_nat key)) as [e He]; [lia|].
  exists e. split; [exact He|].
  rewrite forallb_forall in Hall. apply Hall.
  apply list_elem_of_In, list_elem_of_lookup. exists (Z.to_nat key).
  rewrite lookup_take_lt by lia. exact He.
Qed.

(** C3.  With the cursor inside the buffer and a decode table whose fast
    records and trees describe codewords of at most [max_codeword_len] bits,
    [read_huffsym] returns a symbol once the fuel covers [max_codeword_len]
    loop iterations; the stream it leaves is the stream after
    [bitstream_ensure_bits] with [k <= max_codeword_len] bits removed; the
    cursor stays inside the buffer; and when fewer than two input bytes are
    left the cursor does not move and no bits are added to the accumulator
    (the missing bits are zeros). *)
Theorem read_huffsym_terminates (buf : list Z) (fuel : nat) (istream : input_bitstream)
    (decode_table : list Z) (table_bits max_codeword_len : Z) :
  cursor_ok buf istream ->
  0 <= bitbuf istream < 2 ^ 32 ->
  decode_table_ok decode_table table_bits max_codeword_len = true ->
  (Z.to_nat max_codeword_len <= fuel)%nat ->
  exists istream1 sym istream' k,
    bitstream_ensure_bits buf istream max_codeword_len = Done istream1 /\
    read_huffsym buf fuel istream decode_table table_bits max_codeword_len
      = Done (sym, istream') /\
    0 <= sym < 0xC000 /\
    0 <= k <= max_codeword_len /\
    istream' = bitstream_remove_bits istream1 k /\
    cursor_ok buf istream' /\
    next istream' <= next istream + 2 /\
    (end_ istream - next istream < 2 ->
       next istream' = next istream /\ bitbuf istream1 = bitbuf istream).
Proof.
  intros Hc Hbuf Hok Hfuel.
  destruct (ensure_bits_cursor buf istream max_codeword_len Hc)
    as (is1 & Hens & Hc1 & Hnext).
  pose proof (ensure_bits_bitbuf_range _ _ _ _ Hbuf Hens) as Hbuf1.
  assert (Htb : 0 <= table_bits).
  { unfold decode_table_ok in Hok. apply andb_true_iff in Hok as (Hok & _).
    apply andb_true_iff in Hok as (Htb & _). lia. }
  assert (Hexh : end_ istream - next istream < 2 ->
                 next is1 = next istream /\ bitbuf is1 = bitbuf istream).
  { intros Hlt.
    destruct (ensure_bits_cases buf istream max_codeword_len Hc)
      as [(_ & H2 & _)|[(_ & _ & E)|(_ & E)]]; [lia| |];
      rewrite E in Hens; injection Hens as <-; auto. }
  pose proof (peek_bits_range is1 table_bits Hbuf1 Htb) as Hkey.
  destruct (direct_entry_lookup _ _ _ _ Hok Hkey) as (e & He & Hde).
  unfold direct_entry_ok in Hde. apply andb_true_iff in Hde as (Hu & Hde).
  apply is_u16_true in Hu.
  exists is1. unfold read_huffsym. rewrite Hens. cbn [rbind].
  rewrite (load_Done _ _ e (proj1 Hkey) He). cbn [rbind].
  destruct (Z.ltb_spec e 0xC000) as [Hfast|Hnode].
  - exists (Z.land e 0x7FF), (bitstream_remove_bits is1 (Z.shiftr e 11)), (Z.shiftr e 11).
    split; [reflexivity|]. split; [reflexivity|].
    assert (0 <= Z.shiftr e 11) by (apply Z.shiftr_nonneg; lia).
    split.
    { change 0x7FF with (Z.ones 11). rewrite Z.land_ones by lia.
      pose proof (Z.mod_pos_bound e (2 ^ 11) ltac:(lia)). lia. }
    split; [lia|]. split; [reflexivity|]. split; [exact Hc1|].
    cbn [bitstream_remove_bits next]. split; [lia|exact Hexh].
  - destruct (huff_tree_walk_Done decode_table (Z.to_nat (max_codeword_len - table_bits))
                fuel e (bitstream_remove_bits is1 table_bits) Hde ltac:(lia))
      as (sym & k & E & Hk & Hsym).
    { cbn [bitstream_remove_bits bitbuf]. apply shl32_range. }
    exists sym, (bitstream_remove_bits is1 (table_bits + k)), (table_bits + k).
    split; [reflexivity|].
    rewrite E, remove_bits_remove_bits by lia.
    split; [reflexivity|]. split; [exact Hsym|]. split; [lia|].
    split; [reflexivity|]. split; [exact Hc1|].
    cbn [bitstream_remove_bits next]. split; [lia|exact Hexh].
Qed.

(** C8.  If, after [bitstream_ensure_bits], the table entry indexed by the
    next [table_bits] bits is a fast record [entry < 0xC000], [read_huffsym]
    returns the low 11 bits of [entry] and removes [entry >> 11] bits, the high
    5 bits of the [u16]: the cursor is untouched, [bitsleft] drops by that
    count, and an accumulator holding the bits [l] holds [l] without its first
    [entry >> 11] bits afterwards. *)
Theorem read_huffsym_fast_record (buf : list Z) (fuel : nat)
    (istream istream1 : input_bitstream) (decode_table : list Z)
    (table_bits max_codeword_len entry : Z) :
  bitstream_ensure_bits buf istream max_codeword_len = Done istream1 ->
  0 <= bitbuf istream1 ->
  decode_table !! Z.to_nat (bitstream_peek_bits istream1 table_bits) = Some entry ->
  0 <= entry < 0xC000 ->
  exists istream',
    read_huffsym buf fuel istream decode_table table_bits max_codeword_len
      = Done (entry mod 2 ^ 11, istream') /\
    next istream' = next istream1 /\
    end_ istream' = end_ istream1 /\
    bitsleft istream' = wrap32 (bitsleft istream1 - entry / 2 ^ 11) /\
    0 <= entry / 2 ^ 11 < 2 ^ 5 /\
    forall l, acc_holds istream1 l ->
              entry / 2 ^ 11 <= Z.of_nat (length l) ->
              bitsleft istream' = bitsleft istream1 - entry / 2 ^ 11 /\
              acc_holds istream' (drop (Z.to_nat (entry / 2 ^ 11)) l).
Proof.
  intros Hens Hbuf He Hfast.
  assert (Hkey : 0 <= bitstream_peek_bits istream1 table_bits).
  { unfold bitstream_peek_bits, shr32.
    destruct (table_bits =? 0); [lia|].
    destruct (wrap32 (32 - table_bits) <? 32); [|lia].
    apply Z.shiftr_nonneg. exact Hbuf. }
  exists (bitstream_remove_bits istream1 (Z.shiftr entry 11)).
  unfold read_huffsym. rewrite Hens. cbn [rbind].
  rewrite (load_Done _ _ entry Hkey He). cbn [rbind].
  destruct (Z.ltb_spec entry 0xC000); [|lia].
  change 0x7FF with (Z.ones 11). rewrite Z.land_ones, Z.shiftr_div_pow2 by lia.
  split; [reflexivity|]. split; [reflexivity|]. split; [reflexivity|].
  split; [reflexivity|].
  assert (Hlen : 0 <= entry / 2 ^ 11 < 2 ^ 5).
  { split; [apply Z.div_pos; lia|]. apply Z.div_lt_upper_bound; lia. }
  split; [exact Hlen|].
  intros l Hl Hle.
  pose proof (acc_remove istream1 l (Z.to_nat (entry / 2 ^ 11)) Hl ltac:(lia)) as Hr.
  rewrite Z2Nat.id in Hr by lia.
  split; [|exact Hr].
  destruct Hr as (Hb & _). rewrite Hb, length_drop.
  destruct Hl as (Hb1 & _). rewrite Hb1. lia.
Qed.

Lemma read_huffsym_fast_record_witness :
  exists istream',
    read_huffsym [0x00; 0x80] 0 (init_input_bitstream 2)
                 [2048; 2048; 4097; 49156; 2; 3] 2 3
      = Done (4097 mod 2 ^ 11, istream') /\
    bitsleft istream' = wrap32 (16 - 4097 / 2 ^ 11).
Proof.
  destruct (read_huffsym_fast_record [0x00; 0x80] 0 (init_input_bitstream 2)
              {| bitbuf := 0x80000000; bitsleft := 16; next := 2; end_ := 2 |}
              [2048; 2048; 4097; 49156; 2; 3] 2 3 4097)
    as (is' & H1 & _ & _ & H2 & _).
  - reflexivity.
  - cbn. lia.
  - reflexivity.
  - lia.
  - exists is'. split; assumption.
Defined.

Lemma read_huffsym_terminates_witness :
  exists sym istream',
    read_huffsym [0xC0; 0xFF] 3 (init_input_bitstream 2)
                 [2048; 2048; 4097; 49156; 2; 3] 2 3
      = Done (sym, istream') /\
    0 <= sym < 0xC000.
Proof.
  destruct (read_huffsym_terminates [0xC0; 0xFF] 3 (init_input_bitstream 2)
              [2048; 2048; 4097; 49156; 2; 3] 2 3)
    as (is1 & sym & is' & k & _ & H1 & H2 & _).
  - unfold cursor_ok; cbn; lia.
  - cbn; lia.
  - reflexivity.
  - cbn; lia.
  - exists sym, is'. split; assumption.
Defined.

(** ** Reading back what the reference bit-writer wrote *)

Lemma bits_value_inj (a b : list bool) :
  length a = length b -> bits_value a = bits_value b -> a = b.
Proof.
  revert b. induction a as [|x a IH]; intros [|y b] Hlen Hv; try discriminate.
  - reflexivity.
  - injection Hlen as Hlen. rewrite !bits_value_cons, Hlen in Hv.
    pose proof (bits_value_bound a) as Ha. pose proof (bits_value_bound b) as Hb.
    rewrite Hlen in Ha. set (p := 2 ^ Z.of_nat (length b)) in *.
    destruct x, y; cbn [Z.b2z] in Hv; try lia;
      (f_equal; apply IH; [exact Hlen|lia]).
Qed.

Lemma bits_of_bits_value (l : list bool) : bits_of (length l) (bits_value l) = l.
Proof.
  apply bits_value_inj; [apply bits_of_length|].
  rewrite bits_value_bits_of. apply Z.mod_small, bits_value_bound.
Qed.

Lemma stream_bits_app (a b : list Z) :
  Nat.even (length a) = true -> stream_bits (a ++ b) = stream_bits a ++ stream_bits b.
Proof.
  revert b. induction a as [a IH] using (well_founded_induction
    (well_founded_ltof _ (@length Z))).
  intros b Hev. destruct a as [|x [|y a]]; [reflexivity|discriminate|].
  cbn [app stream_bits]. rewrite IH; [now rewrite app_assoc| |exact Hev].
  unfold ltof. cbn. lia.
Qed.

Lemma unit_bytes_stream (cur : list bool) :
  length cur = 16%nat -> stream_bits (unit_bytes cur) = cur.
Proof.
  intros Hlen. unfold unit_bytes. cbn [stream_bits].
  rewrite app_nil_r.
  replace (bits_value cur mod 256 + 256 * (bits_value cur / 256)) with (bits_value cur)
    by (pose proof (Z.div_mod (bits_value cur) 256); lia).
  rewrite <- Hlen. apply bits_of_bits_value.
Qed.

Lemma unit_bytes_ok (cur : list bool) :
  length cur = 16%nat -> Mem.bytes_ok (unit_bytes cur).
Proof.
  intros Hlen. pose proof (bits_value_bound cur) as Hb. rewrite Hlen in Hb.
  change (2 ^ Z.of_nat 16) with 65536 in Hb.
  unfold unit_bytes, Mem.bytes_ok. repeat constructor.
  - apply Z.mod_pos_bound; lia.
  - apply Z.mod_pos_bound; lia.
  - apply Z.div_pos; lia.
  - apply Z.div_lt_upper_bound; lia.
Qed.

Lemma bw_put_bit_spec (w : bit_writer) (b : bool) :
  bw_ok w ->
  bw_ok (bw_put_bit w b) /\ bw_written (bw_put_bit w b) = bw_written w ++ [b].
Proof.
  intros (Hev & Hlt & Hbytes). unfold bw_put_bit, bw_written, bw_ok.
  destruct (Nat.eqb_spec (length (bw_unit w ++ [b])) 16) as [Hfull|Hnot];
    cbn [bw_out bw_unit].
  - split.
    + rewrite length_app. split; [|split; [cbn; lia|]].
      * rewrite Nat.even_add, Hev. reflexivity.
      * apply Forall_app. split; [exact Hbytes|]. now apply unit_bytes_ok.
    + rewrite stream_bits_app by exact Hev.
      rewrite unit_bytes_stream by exact Hfull.
      now rewrite app_nil_r, app_assoc.
  - split.
    + rewrite length_app in *. cbn [length] in *. split; [exact Hev|].
      split; [lia|exact Hbytes].
    + now rewrite app_assoc.
Qed.

Lemma bw_put_bits_spec (bits : list bool) :
  forall w, bw_ok w ->
    bw_ok (fold_left bw_put_bit bits w) /\
    bw_written (fold_left bw_put_bit bits w) = bw_written w ++ bits.
Proof.
  induction bits as [|b bits IH]; intros w Hw; cbn [fold_left].
  - now rewrite app_nil_r.
  - destruct (bw_put_bit_spec w b Hw) as (Hw1 & E1).
    destruct (IH _ Hw1) as (Hw2 & E2).
    split; [exact Hw2|]. rewrite E2, E1, <- app_assoc. reflexivity.
Qed.

Lemma bw_write_chunks_spec (chunks : list (nat * Z)) :
  forall w, bw_ok w ->
    let w' := fold_left (fun w '(n, v) => bw_write_bits w n v) chunks w in
    bw_ok w' /\ bw_written w' = bw_written w ++ chunks_bits chunks.
Proof.
  induction chunks as [|[n v] chunks IH]; intros w Hw; cbn [fold_left].
  - unfold chunks_bits. cbn. now rewrite app_nil_r.
  - destruct (bw_put_bits_spec (bits_of n v) w Hw) as (Hw1 & E1).
    fold (bw_write_bits w n v) in Hw1, E1.
    destruct (IH _ Hw1) as (Hw2 & E2).
    split; [exact Hw2|]. cbn zeta in E2. rewrite E2, E1, <- app_assoc. reflexivity.
Qed.

Lemma bw_finish_spec (w : bit_writer) :
  bw_ok w ->
  Mem.bytes_ok (bw_finish w) /\
  exists k, stream_bits (bw_finish w) = bw_written w ++ replicate k false.
Proof.
  intros (Hev & Hlt & Hbytes). unfold bw_finish, bw_written.
  destruct (bw_unit w) as [|b cur] eqn:Hu.
  - split; [exact Hbytes|]. exists O. cbn [replicate]. now rewrite !app_nil_r.
  - rewrite <- Hu in *.
    assert (Hlen : length (bw_unit w ++ replicate (16 - length (bw_unit w)) false) = 16%nat)
      by (rewrite length_app, length_replicate; lia).
    split.
    + apply Forall_app. split; [exact Hbytes|]. now apply unit_bytes_ok.
    + exists (16 - length (bw_unit w))%nat.
      rewrite stream_bits_app by exact Hev.
      rewrite unit_bytes_stream by exact Hlen. now rewrite app_assoc.
Qed.

Lemma write_chunks_spec (chunks : list (nat * Z)) :
  Mem.bytes_ok (write_chunks chunks) /\
  exists k, stream_bits (write_chunks chunks) = chunks_bits chunks ++ replicate k false.
Proof.
  unfold write_chunks.
  assert (H0 : bw_ok bw_init).
  { unfold bw_ok, Mem.bytes_ok. cbn. split; [reflexivity|]. split; [lia|constructor]. }
  destruct (bw_write_chunks_spec chunks bw_init H0) as (Hw & E). cbn zeta in Hw, E.
  destruct (bw_finish_spec _ Hw) as (Hb & k & Ek).
  split; [exact Hb|]. exists k. rewrite Ek, E. reflexivity.
Qed.

(** The cases of [bitstream_ensure_bits] in terms of the bits the accumulator
    holds, for use in the proofs about reading. *)
Lemma ensure_bits_acc (buf : list Z) (istream : input_bitstream) (n : Z) :
  cursor_ok buf istream -> Mem.bytes_ok buf -> 0 <= bitsleft istream -> n <= 16 ->
  exists istream',
    bitstream_ensure_bits buf istream n = Done istream' /\
    n <= bitsleft istream' /\
    cursor_ok buf istream' /\
    (n <= bitsleft istream -> istream' = istream) /\
    (bitsleft istream < n -> 2 <= end_ istream - next istream ->
       exists b0 b1,
         buf !! Z.to_nat (next istream) = Some b0 /\
         buf !! Z.to_nat (next istream + 1) = Some b1 /\
         next istream' = next istream + 2 /\
         bitsleft istream' = bitsleft istream + 16 /\
         forall l, acc_holds istream l ->
                   acc_holds istream' (l ++ bits_of 16 (b0 + 256 * b1))) /\
    (bitsleft istream < n -> end_ istream - next istream < 2 ->
       next istream' = next istream /\
       bitsleft istream' = bitsleft istream + 16 /\
       bitbuf istream' = bitbuf istream /\
       forall l, acc_holds istream l ->
                 acc_holds istream' (l ++ replicate 16 false)).
Proof.
  intros Hc Hbytes Hbl Hn16.
  destruct (ensure_bits_cursor buf istream n Hc) as (is' & Hdone & Hc' & _).
  exists is'. split; [exact Hdone|].
  destruct (ensure_bits_cases buf istream n Hc)
    as [(Hlt & H2 & b0 & b1 & E0 & E1 & E)|[(Hlt & H2 & E)|(Hge & E)]];
    rewrite E in Hdone; injection Hdone as <-.
  - assert (Hw : wrap32 (bitsleft istream + 16) = bitsleft istream + 16)
      by (apply wrap32_small; lia).
    split; [cbn [bitsleft]; lia|]. split; [exact Hc'|].
    split; [lia|]. split; [|lia].
    intros _ _. exists b0, b1.
    split; [exact E0|]. split; [exact E1|].
    split; [reflexivity|]. split; [exact Hw|].
    intros l Hl.
    destruct (le16_value b0 b1) as (Hv & Hr);
      [eapply bytes_ok_lookup; eauto..|].
    rewrite Hv. apply acc_refill; [exact Hl| |exact Hr].
    destruct Hl as (Hb & _). lia.
  - assert (Hw : wrap32 (bitsleft istream + 16) = bitsleft istream + 16)
      by (apply wrap32_small; lia).
    split; [cbn [bitsleft]; lia|]. split; [exact Hc'|].
    split; [lia|]. split; [lia|].
    intros _ _.
    split; [reflexivity|]. split; [exact Hw|]. split; [reflexivity|].
    intros l Hl. apply acc_pad; [exact Hl|]. destruct Hl as (Hb & _). lia.
  - split; [lia|]. split; [exact Hc'|]. split; [auto|]. split; lia.
Qed.

(** One [bitstream_read_bits] call delivers the next [n] pending bits. *)
Lemma read_bits_pending (buf : list Z) (istream : input_bitstream) (l : list bool) (n : nat) :
  cursor_ok buf istream -> Mem.bytes_ok buf ->
  pending buf istream l -> (n <= 16)%nat -> (n <= length l)%nat ->
  exists istream',
    bitstream_read_bits buf istream (Z.of_nat n)
      = Done (bits_value (take n l), istream') /\
    cursor_ok buf istream' /\ pending buf istream' (drop n l).
Proof.
  intros Hc Hbytes (acc & Hacc & ->) Hn16 Hnl.
  assert (Hstep : forall is1 acc1 tail,
             acc_holds is1 acc1 -> (n <= length acc1)%nat ->
             tail = stream_bits (drop (Z.to_nat (next is1)) buf) ->
             bits_value (take n (acc1 ++ tail))
               = fst (bitstream_pop_bits is1 (Z.of_nat n)) /\
             pending buf (snd (bitstream_pop_bits is1 (Z.of_nat n)))
                     (drop n (acc1 ++ tail))).
  { intros is1 acc1 tail H1 Hlen ->. cbn [bitstream_pop_bits fst snd]. split.
    - rewrite take_app_le by exact Hlen. symmetry. now apply acc_peek.
    - exists (drop n acc1). split; [now apply acc_remove|].
      rewrite drop_app_le by exact Hlen. reflexivity. }
  unfold bitstream_read_bits.
  pose proof Hacc as (Hbl & _ & _).
  destruct (ensure_bits_acc buf istream (Z.of_nat n) Hc Hbytes ltac:(lia) ltac:(lia))
    as (is1 & -> & _ & Hc1 & Hsame & Hrefill & Hpad).
  cbn [rbind]. exists (snd (bitstream_pop_bits is1 (Z.of_nat n))).
  destruct (Z.le_gt_cases (Z.of_nat n) (bitsleft istream)) as [Hge|Hlt].
  - rewrite (Hsame Hge) in *.
    destruct (Hstep istream acc _ Hacc ltac:(lia) eq_refl) as (Ev & Hp).
    rewrite Ev. split; [now destruct (bitstream_pop_bits istream (Z.of_nat n))|].
    split; [exact Hc|exact Hp].
  - destruct (Z.le_gt_cases 2 (end_ istream - next istream)) as [H2|H2].
    + destruct (Hrefill Hlt H2) as (b0 & b1 & E0 & E1 & Hnext & Hbl1 & Hacc1).
      specialize (Hacc1 acc Hacc).
      assert (Hdrop : drop (Z.to_nat (next istream)) buf
                      = b0 :: b1 :: drop (Z.to_nat (next is1)) buf).
      { destruct Hc as (Hn0 & _).
        rewrite (drop_S _ _ _ E0). f_equal.
        replace (Z.to_nat (next istream + 1)) with (S (Z.to_nat (next istream))) in E1 by lia.
        rewrite (drop_S _ _ _ E1). do 2 f_equal. lia. }
      rewrite Hdrop. cbn [stream_bits]. rewrite app_assoc.
      destruct (Hstep is1 _ _ Hacc1 ltac:(rewrite length_app, bits_of_length; lia) eq_refl)
        as (Ev & Hp).
      rewrite Ev. split; [now destruct (bitstream_pop_bits is1 (Z.of_nat n))|].
      split; [exact Hc1|exact Hp].
    + exfalso.
      assert (Hnil : stream_bits (drop (Z.to_nat (next istream)) buf) = []).
      { destruct Hc as (Hn0 & He & _).
        pose proof (length_drop buf (Z.to_nat (next istream))) as Hl.
        destruct (drop (Z.to_nat (next istream)) buf) as [|x [|y r]]; try reflexivity.
        cbn [length] in Hl. lia. }
      rewrite Hnil, app_nil_r in Hnl. lia.
Qed.

Lemma read_chunks_pending (buf : list Z) (chunks : list (nat * Z)) :
  Mem.bytes_ok buf -> Forall chunk_ok chunks ->
  forall (istream : input_bitstream) (rest : list bool),
    cursor_ok buf istream ->
    pending buf istream (chunks_bits chunks ++ rest) ->
    exists istream',
      read_chunks buf istream (map fst chunks) = Done (map snd chunks, istream') /\
      pending buf istream' rest.
Proof.
  intros Hbytes Hall. induction Hall as [|[n v] chunks (Hn & Hv) _ IH];
    intros istream rest Hc Hp.
  - exists istream. split; [reflexivity|exact Hp].
  - cbn [fst snd] in Hn, Hv. cbn [map fst snd read_chunks].
    unfold chunks_bits in Hp. cbn [map concat fst snd] in Hp.
    fold (chunks_bits chunks) in Hp. rewrite <- app_assoc in Hp.
    destruct (read_bits_pending buf istream _ n Hc Hbytes Hp Hn) as (is1 & E & Hc1 & Hp1).
    { rewrite length_app, bits_of_length. lia. }
    rewrite <- (bits_of_length n v) in E at 2. rewrite take_app_length in E.
    rewrite bits_value_bits_of, Z.mod_small in E by exact Hv.
    rewrite <- (bits_of_length n v) in Hp1 at 1. rewrite drop_app_length in Hp1.
    destruct (IH is1 rest Hc1 Hp1) as (is2 & E2 & Hp2).
    exists is2. rewrite E. cbn [rbind]. rewrite E2. cbn [rbind].
    split; [reflexivity|exact Hp2].
Qed.

(** C6.  Chunks of at most 16 bits each, written by the reference bit-writer
    into little-endian 16-bit coding units with the bits ordered high to low,
    are read back by [init_input_bitstream] and one [bitstream_read_bits] call
    per chunk with the same sizes: the calls return the original values in
    order.  This holds for any number of bits the [u32] buffer size allows. *)
Theorem bit_reader_roundtrip (chunks : list (nat * Z)) :
  Forall chunk_ok chunks ->
  Z.of_nat (length (write_chunks chunks)) < 2 ^ 32 ->
  exists istream',
    read_chunks (write_chunks chunks)
                (init_input_bitstream (Z.of_nat (length (write_chunks chunks))))
                (map fst chunks)
    = Done (map snd chunks, istream').
Proof.
  intros Hall Hsize.
  destruct (write_chunks_spec chunks) as (Hbytes & k & Hk).
  set (buf := write_chunks chunks) in *.
  destruct (read_chunks_pending buf chunks Hbytes Hall
              (init_input_bitstream (Z.of_nat (length buf))) (replicate k false))
    as (is' & E & _).
  - unfold cursor_ok, init_input_bitstream. cbn. lia.
  - exists []. split.
    + unfold acc_holds, init_input_bitstream. cbn. lia.
    + cbn. rewrite drop_0. symmetry. exact Hk.
  - exists is'. exact E.
Qed.

Lemma bit_reader_roundtrip_witness :
  exists istream',
    read_chunks [121; 181; 64; 160] (init_input_bitstream 4) [3; 16; 0; 7]%nat
    = Done ([5; 0xABCD; 0; 1], istream').
Proof.
  assert (Hall : Forall chunk_ok [(3%nat, 5); (16%nat, 0xABCD); (0%nat, 0); (7%nat, 1)])
    by (repeat constructor; vm_compute; congruence).
  assert (Hsize : Z.of_nat (length (write_chunks
            [(3%nat, 5); (16%nat, 0xABCD); (0%nat, 0); (7%nat, 1)])) < 2 ^ 32)
    by (vm_compute; reflexivity).
  exact (bit_reader_roundtrip _ Hall Hsize).
Defined.

(** ** The last byte of an input of odd size *)

Lemma load_app_l (m t : list Z) (p : Z) :
  p < Z.of_nat (length m) -> Mem.load (m ++ t) p = Mem.load m p.
Proof.
  intros Hp. unfold Mem.load. destruct (decide (0 <= p)); [|reflexivity].
  rewrite lookup_app_l by lia. reflexivity.
Qed.

Lemma even_of_nat (n : nat) : Z.even (Z.of_nat n) = Nat.even n.
Proof.
  destruct (Nat.Even_or_Odd n) as [[k ->]|[k ->]].
  - rewrite Nat2Z.inj_mul, Z.even_mul, Nat.even_mul. reflexivity.
  - rewrite Nat2Z.inj_add, Nat2Z.inj_mul, Z.even_add, Z.even_mul.
    rewrite Nat.even_add, Nat.even_mul. reflexivity.
Qed.

Lemma ensure_bits_app_l (body t : list Z) (istream : input_bitstream) (n : Z) :
  end_ istream - next istream >= 2 -> end_ istream <= Z.of_nat (length body) + 1 ->
  Z.even (next istream) = true -> Nat.even (length body) = true ->
  bitstream_ensure_bits (body ++ t) istream n = bitstream_ensure_bits body istream n.
Proof.
  intros H2 He Hev Hbody. unfold bitstream_ensure_bits, get_unaligned_le16.
  assert (next istream + 1 < Z.of_nat (length body)).
  { assert (Hne : next istream + 1 <> Z.of_nat (length body)).
    { intros Heq. apply (f_equal Z.even) in Heq.
      rewrite Z.even_add, Hev in Heq. cbn in Heq.
      rewrite even_of_nat in Heq. congruence. }
    lia. }
  rewrite !load_app_l by lia. reflexivity.
Qed.

Lemma run_bit_op_even (buf : list Z) (istream : input_bitstream) (op : bit_op)
    (v : Z) (istream' : input_bitstream) :
  run_bit_op buf istream op = Done (v, istream') ->
  Z.even (next istream) = true ->
  Z.even (next istream') = true /\ end_ istream' = end_ istream.
Proof.
  assert (Hens : forall n s, bitstream_ensure_bits buf istream n = Done s ->
                   Z.even (next istream) = true ->
                   Z.even (next s) = true /\ end_ s = end_ istream).
  { intros n s. unfold bitstream_ensure_bits.
    destruct (bitsleft istream <? n); [|intros [= <-]; auto].
    destruct (end_ istream - next istream >=? 2); [|intros [= <-]; auto].
    destruct (get_unaligned_le16 buf (next istream)); cbn [rbind]; [|discriminate..].
    intros [= <-] Hev. cbn [next end_]. rewrite Z.even_add, Hev. auto. }
  destruct op as [n|n|n|n|n|]; cbn [run_bit_op]; unfold bitstream_read_bits.
  - destruct (bitstream_ensure_bits buf istream n) as [s| |] eqn:E; cbn [rbind];
      [|discriminate..]. intros [= _ <-]. eauto.
  - intros [= _ <-]. auto.
  - intros [= _ <-]. auto.
  - intros [= _ <-]. auto.
  - destruct (bitstream_ensure_bits buf istream n) as [s| |] eqn:E; cbn [rbind];
      [|discriminate..]. intros [= _ <-]. cbn [bitstream_remove_bits next end_]. eauto.
  - intros [= _ <-]. auto.
Qed.

Lemma run_bit_op_app_l (body t : list Z) (istream : input_bitstream) (op : bit_op) :
  end_ istream <= Z.of_nat (length body) + 1 ->
  Z.even (next istream) = true -> Nat.even (length body) = true ->
  run_bit_op (body ++ t) istream op = run_bit_op body istream op.
Proof.
  intros He Hev Hbody.
  assert (Hens : forall n, bitstream_ensure_bits (body ++ t) istream n
                           = bitstream_ensure_bits body istream n).
  { intros n. destruct (Z_ge_lt_dec (end_ istream - next istream) 2) as [H2|H2].
    - now apply ensure_bits_app_l.
    - unfold bitstream_ensure_bits.
      destruct (Z.geb_spec (end_ istream - next istream) 2); [lia|reflexivity]. }
  destruct op; cbn [run_bit_op]; unfold bitstream_read_bits; rewrite ?Hens; reflexivity.
Qed.

Lemma run_bit_ops_app_l (body t : list Z) (ops : list bit_op) :
  Nat.even (length body) = true ->
  forall istream,
    end_ istream <= Z.of_nat (length body) + 1 ->
    Z.even (next istream) = true ->
    run_bit_ops (body ++ t) istream ops = run_bit_ops body istream ops.
Proof.
  intros Hbody. induction ops as [|op ops IH]; intros istream He Hev; [reflexivity|].
  cbn [run_bit_ops]. rewrite run_bit_op_app_l by assumption.
  destruct (run_bit_op body istream op) as [[v s]| |] eqn:E; cbn [rbind]; try reflexivity.
  destruct (run_bit_op_even _ _ _ _ _ E Hev) as (Hev' & He').
  rewrite IH by (try assumption; lia). reflexivity.
Qed.

(** C10, as stated, fails once a byte-granular read has moved the cursor to
    an odd offset: in a 3-byte input, after [bitstream_read_byte] the last
    byte is the high half of a complete coding unit, and
    [bitstream_read_bits] returns it. *)
Lemma final_byte_read_after_read_byte :
  (let* '(_, s) := bitstream_read_byte [0; 0; 1] (init_input_bitstream 3) in
   bitstream_read_bits [0; 0; 1] s 8)
  = Done (1, {| bitbuf := 0; bitsleft := 8; next := 3; end_ := 3 |}) /\
  (let* '(_, s) := bitstream_read_byte [0; 0; 2] (init_input_bitstream 3) in
   bitstream_read_bits [0; 0; 2] s 8)
  = Done (2, {| bitbuf := 0; bitsleft := 8; next := 3; end_ := 3 |}).
Proof. split; vm_compute; reflexivity. Qed.

Lemma run_bit_ops_Done (buf : list Z) (ops : list bit_op) :
  forall istream, cursor_ok buf istream ->
    exists r, run_bit_ops buf istream ops = Done r.
Proof.
  induction ops as [|op ops IH]; intros istream Hc; [eexists; reflexivity|].
  assert (Hop : exists v s, run_bit_op buf istream op = Done (v, s) /\ cursor_ok buf s).
  { destruct op as [n|n|n|n|n|]; cbn [run_bit_op]; unfold bitstream_read_bits;
      try (eexists _, _; split; [reflexivity|exact Hc]);
      destruct (ensure_bits_cursor buf istream n Hc) as (s & -> & Hs & _);
      cbn [rbind]; eexists _, _; (split; [reflexivity|exact Hs]). }
  destruct Hop as (v & s & E & Hs). destruct (IH s Hs) as ([vs s'] & E').
  cbn [run_bit_ops]. rewrite E. cbn [rbind]. rewrite E'. cbn [rbind]. eauto.
Qed.

(** C10, amended.  When exactly one input byte is left,
    [bitstream_ensure_bits] loads nothing (its result is the same over any
    buffer), leaves the cursor where it is and, when a refill is due, adds 16
    to [bitsleft] with [bitbuf] unchanged.  Consequently, for an input of odd
    size and a stream whose cursor is at an even offset (as it is from
    [init_input_bitstream] on while only bit-granular operations run), the
    results of any sequence of bit-granular operations and the stream they
    leave do not depend on the last byte. *)
Theorem final_odd_byte_ignored :
  (forall (buf buf' : list Z) (istream : input_bitstream) (n : Z),
      end_ istream - next istream = 1 ->
      exists istream',
        bitstream_ensure_bits buf istream n = Done istream' /\
        bitstream_ensure_bits buf' istream n = Done istream' /\
        next istream' = next istream /\
        (bitsleft istream < n ->
           bitbuf istream' = bitbuf istream /\
           bitsleft istream' = wrap32 (bitsleft istream + 16))) /\
  (forall (body : list Z) (b b' : Z) (istream : input_bitstream) (ops : list bit_op),
      Nat.even (length body) = true ->
      cursor_ok (body ++ [b]) istream ->
      Z.even (next istream) = true ->
      exists r,
        run_bit_ops (body ++ [b]) istream ops = Done r /\
        run_bit_ops (body ++ [b']) istream ops = Done r).
Proof.
  split.
  - intros buf buf' istream n H1. unfold bitstream_ensure_bits.
    destruct (Z.ltb_spec (bitsleft istream) n).
    + destruct (Z.geb_spec (end_ istream - next istream) 2); [lia|].
      eexists. split; [reflexivity|]. split; [reflexivity|]. cbn. auto.
    + eexists. split; [reflexivity|]. split; [reflexivity|]. split; [reflexivity|lia].
  - intros body b b' istream ops Hbody Hc Hev.
    destruct (run_bit_ops_Done (body ++ [b]) ops istream Hc) as (r & E).
    exists r. split; [exact E|]. rewrite <- E.
    destruct Hc as (_ & He & _). rewrite length_app in He. cbn [length] in He.
    rewrite !run_bit_ops_app_l; try assumption; try reflexivity; lia.
Qed.

Lemma final_odd_byte_ignored_witness :
  exists r,
    run_bit_ops [0x34; 0x12; 0x11] (init_input_bitstream 3) [OpRead 16; OpRead 8; OpEnsure 3]
      = Done r /\
    run_bit_ops [0x34; 0x12; 0xEE] (init_input_bitstream 3) [OpRead 16; OpRead 8; OpEnsure 3]
      = Done r.
Proof.
  apply (proj2 final_odd_byte_ignored [0x34; 0x12] 0x11 0xEE (init_input_bitstream 3)
           [OpRead 16; OpRead 8; OpEnsure 3]).
  - reflexivity.
  - unfold cursor_ok. cbn. lia.
  - reflexivity.
Defined.

(** ** lz_copy: memory and word lemmas *)

Lemma store_Done (m : list Z) (p v : Z) :
  0 <= p < Z.of_nat (length m) -> Mem.store m p v = Done (<[Z.to_nat p := v]> m).
Proof. intros Hp. unfold Mem.store. destruct (decide _); [reflexivity|lia]. Qed.

Lemma store_bytes_Done (m : list Z) (p : Z) (bs : list Z) :
  0 <= p -> p + Z.of_nat (length bs) <= Z.of_nat (length m) ->
  exists m', Mem.store_bytes m p bs = Done m' /\
    length m' = length m /\
    forall i, 0 <= i ->
      m' !! Z.to_nat i =
        if decide (p <= i < p + Z.of_nat (length bs))
        then bs !! Z.to_nat (i - p) else m !! Z.to_nat i.
Proof.
  intros Hp Hlen. unfold Mem.store_bytes.
  destruct (decide _) as [_|Hbad]; [|lia].
  eexists. split; [reflexivity|].
  assert (Htake : length (take (Z.to_nat p) m) = Z.to_nat p)
    by (rewrite length_take; lia).
  split.
  - rewrite !length_app, Htake, length_drop. lia.
  - intros i Hi. destruct (decide (p <= i < p + Z.of_nat (length bs))) as [Hin|Hout].
    + rewrite lookup_app_r by lia. rewrite Htake.
      rewrite lookup_app_l by lia. f_equal. lia.
    + destruct (Z.lt_ge_cases i p).
      * rewrite lookup_app_l by lia. apply lookup_take_lt. lia.
      * rewrite lookup_app_r by lia. rewrite Htake.
        rewrite lookup_app_r by lia. rewrite lookup_drop. f_equal. lia.
Qed.

Lemma load_bytes_Done (m : list Z) (p : Z) (n : nat) :
  0 <= p -> p + Z.of_nat n <= Z.of_nat (length m) ->
  Mem.load_bytes m p n = Done (take n (drop (Z.to_nat p) m)) /\
  length (take n (drop (Z.to_nat p) m)) = n /\
  forall j, (j < n)%nat ->
    take n (drop (Z.to_nat p) m) !! j = m !! (Z.to_nat p + j)%nat.
Proof.
  intros Hp Hlen. unfold Mem.load_bytes.
  destruct (decide _) as [_|Hbad]; [|lia].
  split; [reflexivity|]. split.
  - rewrite length_take, length_drop. lia.
  - intros j Hj. rewrite lookup_take_lt by lia. apply lookup_drop.
Qed.

Lemma le_encode_decode (bs : list Z) :
  Mem.bytes_ok bs -> le_encode (length bs) (le_decode bs) = bs.
Proof.
  induction 1 as [|b bs Hb _ IH]; [reflexivity|].
  cbn [length le_encode le_decode].
  replace ((b + 256 * le_decode bs) mod 256) with b.
  - replace ((b + 256 * le_decode bs) / 256) with (le_decode bs); [now rewrite IH|].
    rewrite Z.mul_comm, Z.div_add by lia. rewrite Z.div_small by lia. lia.
  - rewrite Z.mul_comm, Z.mod_add by lia. symmetry. now apply Z.mod_small.
Qed.

Lemma bytes_of_word_of_bytes (P : platform) (bs : list Z) :
  length bs = Z.to_nat (WORDSIZE P) -> Mem.bytes_ok bs ->
  bytes_of_word P (word_of_bytes P bs) = bs.
Proof.
  intros Hlen Hok. unfold bytes_of_word, word_of_bytes. rewrite <- Hlen.
  destruct (BIG_ENDIAN P).
  - rewrite <- (length_rev bs) at 1. rewrite le_encode_decode.
    + apply rev_involutive.
    + unfold Mem.bytes_ok. now apply Forall_rev.
  - now apply le_encode_decode.
Qed.

Lemma all_equal_replicate (b : Z) (l : list Z) :
  forallb (Z.eqb b) l = true -> l = replicate (length l) b.
Proof.
  induction l as [|x l IH]; [reflexivity|].
  cbn [forallb length replicate]. intros H. apply andb_true_iff in H as (Hx & Hl).
  apply Z.eqb_eq in Hx. subst x. f_equal. now apply IH.
Qed.

Lemma bytes_of_repeat_byte (P : platform) (b : Z) :
  platform_ok P -> 0 <= b < 256 ->
  bytes_of_word P (repeat_byte P b) = replicate (Z.to_nat (WORDSIZE P)) b.
Proof.
  intros HP Hb.
  assert (Hall : forall W be,
    forallb (fun b =>
      let P0 := {| WORDSIZE := W; FAST_UNALIGNED_ACCESS := true; BIG_ENDIAN := be |} in
      forallb (Z.eqb b) (bytes_of_word P0 (repeat_byte P0 b)))
      (map Z.of_nat (seq 0 256)) = true ->
    forall f, let P1 := {| WORDSIZE := W; FAST_UNALIGNED_ACCESS := f; BIG_ENDIAN := be |} in
    bytes_of_word P1 (repeat_byte P1 b) = replicate (length (bytes_of_word P1 (repeat_byte P1 b))) b).
  { intros W be Hf f P1. rewrite forallb_forall in Hf.
    apply all_equal_replicate.
    apply (Hf b). replace b with (Z.of_nat (Z.to_nat b)) by lia.
    apply in_map, in_seq. lia. }
  destruct P as [W f be]. unfold platform_ok in HP. cbn [WORDSIZE] in *.
  destruct HP as [-> | ->]; destruct be;
    (rewrite Hall by (vm_compute; reflexivity));
    unfold bytes_of_word; cbn [WORDSIZE BIG_ENDIAN];
    rewrite ?length_rev; reflexivity.
Qed.

(** ** lz_copy: the copy invariant *)

Lemma copied_start (mem : list Z) (dst offset : Z) : copied mem dst offset mem dst.
Proof. unfold copied. split; [reflexivity|]. split; [auto|]. intros i Hi. lia. Qed.

Lemma copied_weaken (mem : list Z) (dst offset : Z) (m : list Z) (d d' : Z) :
  copied mem dst offset m d' -> d <= d' -> copied mem dst offset m d.
Proof.
  intros (Hlen & Hpre & Hrec) Hle. split; [exact Hlen|]. split; [exact Hpre|].
  intros i Hi. apply Hrec. lia.
Qed.

(** The invariant determines the buffer up to the cursor. *)
Lemma copied_unique (mem : list Z) (dst offset : Z) (m1 m2 : list Z) (d : Z) :
  1 <= offset <= dst ->
  copied mem dst offset m1 d -> copied mem dst offset m2 d ->
  forall i, 0 <= i < d -> m1 !! Z.to_nat i = m2 !! Z.to_nat i.
Proof.
  intros Hoff (_ & Hpre1 & Hrec1) (_ & Hpre2 & Hrec2) i Hi.
  assert (Hgen : forall n : nat, forall i, 0 <= i < d -> i < Z.of_nat n ->
                   m1 !! Z.to_nat i = m2 !! Z.to_nat i).
  { induction n as [|n IH]; intros j Hj Hn; [lia|].
    destruct (Z.lt_ge_cases j dst).
    - rewrite Hpre1, Hpre2 by lia. reflexivity.
    - rewrite Hrec1, Hrec2 by lia. apply IH; lia. }
  apply (Hgen (S (Z.to_nat i))); lia.
Qed.

(** The invariant in closed form: the copied bytes repeat the [offset] bytes
    before [dst] periodically. *)
Lemma copied_periodic (mem : list Z) (dst offset : Z) (m : list Z) (d : Z) :
  1 <= offset <= dst ->
  copied mem dst offset m d ->
  forall i, dst <= i < d ->
    m !! Z.to_nat i = mem !! Z.to_nat (dst - offset + (i - dst) mod offset).
Proof.
  intros Hoff (_ & Hpre & Hrec) i Hi.
  assert (Hgen : forall n : nat, forall i, dst <= i < d -> i < Z.of_nat n ->
            m !! Z.to_nat i = mem !! Z.to_nat (dst - offset + (i - dst) mod offset)).
  { induction n as [|n IH]; intros j Hj Hn; [lia|].
    rewrite Hrec by lia.
    destruct (Z.lt_ge_cases (j - offset) dst).
    - rewrite Hpre by lia. rewrite Z.mod_small by lia. f_equal. lia.
    - rewrite IH by lia. do 2 f_equal.
      replace (j - dst) with ((j - offset - dst) + 1 * offset) by lia.
      rewrite Z.mod_add by lia. reflexivity. }
  apply (Hgen (S (Z.to_nat i))); lia.
Qed.

Lemma copy_byte_step (mem : list Z) (dst offset : Z) (m : list Z) (d : Z) :
  copied mem dst offset m d ->
  0 <= offset <= dst -> dst <= d < Z.of_nat (length mem) ->
  exists m', copy_byte m (d - offset) d = Done m' /\
    copied mem dst offset m' (d + 1) /\
    forall i, 0 <= i -> i <> d -> m' !! Z.to_nat i = m !! Z.to_nat i.
Proof.
  intros (Hlen & Hpre & Hrec) Hoff Hd.
  destruct (load_in_range m (d - offset)) as (b & Hload & Hb); [lia|].
  exists (<[Z.to_nat d := b]> m). unfold copy_byte. rewrite Hload. cbn [rbind].
  split; [apply store_Done; lia|].
  assert (Hother : forall i, 0 <= i -> i <> d ->
            <[Z.to_nat d := b]> m !! Z.to_nat i = m !! Z.to_nat i).
  { intros i Hi Hne. apply list_lookup_insert_ne. lia. }
  split; [|exact Hother].
  split; [rewrite length_insert; exact Hlen|].
  split.
  - intros i Hi. rewrite Hother by lia. apply Hpre. lia.
  - intros i Hi.
    destruct (Z.eq_dec offset 0) as [->|Hpos]; [now rewrite Z.sub_0_r|].
    rewrite (Hother (i - offset)) by lia.
    destruct (Z.eq_dec i d) as [->|Hne].
    + rewrite list_lookup_insert_eq by lia. symmetry. exact Hb.
    + rewrite Hother by lia. apply Hrec. lia.
Qed.

Lemma reference_copy_Done (mem : list Z) (dst offset : Z) (n : nat) :
  0 <= offset <= dst ->
  forall (m : list Z) (d : Z),
    copied mem dst offset m d -> dst <= d ->
    d + Z.of_nat n <= Z.of_nat (length mem) ->
    exists m', reference_copy n m d offset = Done m' /\
      copied mem dst offset m' (d + Z.of_nat n) /\
      forall i, 0 <= i -> ~ (d <= i < d + Z.of_nat n) ->
                m' !! Z.to_nat i = m !! Z.to_nat i.
Proof.
  intros Hoff. induction n as [|n IH]; intros m d Hc Hd Hlen.
  - exists m. split; [reflexivity|]. rewrite Z.add_0_r. auto.
  - destruct (copy_byte_step mem dst offset m d Hc Hoff ltac:(lia))
      as (m1 & E1 & Hc1 & Hfr1).
    destruct (IH m1 (d + 1) Hc1 ltac:(lia) ltac:(lia)) as (m2 & E2 & Hc2 & Hfr2).
    exists m2. cbn [reference_copy]. unfold copy_byte in E1.
    destruct (Mem.load m (d - offset)) as [b| |]; cbn [rbind] in *; try discriminate.
    rewrite E1. cbn [rbind]. rewrite E2.
    split; [reflexivity|]. split.
    + replace (d + Z.of_nat (S n)) with (d + 1 + Z.of_nat n) by lia. exact Hc2.
    + intros i Hi Hout. rewrite Hfr2 by lia. apply Hfr1; lia.
Qed.

(** The bytewise loop is the reference copy. *)
Lemma bytewise_loop_reference (offset : Z) (fuel : nat) :
  forall (m : list Z) (d len : Z),
    1 <= len < 2 ^ 32 -> (Z.to_nat len <= fuel)%nat ->
    bytewise_loop fuel m (d - offset) d len
    = (let* m' := reference_copy (Z.to_nat len) m d offset in Done (m', d + len)).
Proof.
  induction fuel as [|fuel IH]; intros m d len Hlen Hfuel; [lia|].
  replace (Z.to_nat len) with (S (Z.to_nat (len - 1))) by lia.
  cbn [bytewise_loop reference_copy]. unfold copy_byte.
  destruct (Mem.load m (d - offset)) as [b| |]; cbn [rbind]; try reflexivity.
  destruct (Mem.store m d b) as [m1| |]; cbn [rbind]; try reflexivity.
  rewrite wrap32_small by lia.
  destruct (Z.eqb_spec (len - 1) 0) as [E|E].
  - replace (Z.to_nat (len - 1)) with O by lia. cbn [reference_copy rbind].
    do 2 f_equal. lia.
  - replace (d - offset + 1) with ((d + 1) - offset) by lia.
    rewrite IH by lia.
    destruct (reference_copy (Z.to_nat (len - 1)) m1 (d + 1) offset); cbn [rbind];
      try reflexivity.
    do 2 f_equal. lia.
Qed.

(** So is the whole bytewise path, when the match is long enough for its
    unrolled copies. *)
Lemma lz_copy_bytewise_reference (fuel : nat) (m : list Z)
    (dst len offset min_length : Z) :
  shortest_length min_length <= len < 2 ^ 32 -> (Z.to_nat len <= fuel)%nat ->
  lz_copy_bytewise fuel m (dst - offset) dst len min_length
  = (let* m' := reference_copy (Z.to_nat len) m dst offset in Done (m', dst + len)).
Proof.
  unfold shortest_length. intros Hlen Hfuel. unfold lz_copy_bytewise, unrolled_copy.
  destruct (Z.geb_spec min_length 2) as [H2|H2].
  - replace (Z.to_nat len) with (S (Z.to_nat (len - 1))) by lia.
    cbn [reference_copy]. unfold copy_byte at 1.
    destruct (Mem.load m (dst - offset)) as [b| |]; cbn [rbind]; try reflexivity.
    destruct (Mem.store m dst b) as [m1| |]; cbn [rbind]; try reflexivity.
    rewrite (wrap32_small (len - 1)) by lia.
    destruct (Z.geb_spec min_length 3) as [H3|H3].
    + replace (Z.to_nat (len - 1)) with (S (Z.to_nat (len - 2))) by lia.
      cbn [reference_copy]. unfold copy_byte.
      replace (dst - offset + 1) with (dst + 1 - offset) by lia.
      destruct (Mem.load m1 (dst + 1 - offset)) as [b1| |]; cbn [rbind]; try reflexivity.
      destruct (Mem.store m1 (dst + 1) b1) as [m2| |]; cbn [rbind]; try reflexivity.
      replace (len - 1 - 1) with (len - 2) by lia.
      rewrite (wrap32_small (len - 2)) by lia.
      replace (dst + 1 - offset + 1) with (dst + 1 + 1 - offset) by lia.
      rewrite bytewise_loop_reference by lia.
      destruct (reference_copy (Z.to_nat (len - 2)) m2 (dst + 1 + 1) offset);
        cbn [rbind]; try reflexivity.
      do 2 f_equal. lia.
    + cbn [rbind].
      replace (dst - offset + 1) with (dst + 1 - offset) by lia.
      rewrite bytewise_loop_reference by lia.
      destruct (reference_copy (Z.to_nat (len - 1)) m1 (dst + 1) offset);
        cbn [rbind]; try reflexivity.
      do 2 f_equal. lia.
  - destruct (Z.geb_spec min_length 3) as [H3|H3]; [lia|].
    cbn [rbind]. apply bytewise_loop_reference; lia.
Qed.

(** ** lz_copy: the word-at-a-time paths *)

Lemma platform_ok_pos (P : platform) : platform_ok P -> 4 <= WORDSIZE P <= 8.
Proof. unfold platform_ok. lia. Qed.

Lemma copy_word_step (P : platform) (mem : list Z) (dst offset : Z) (m : list Z) (d : Z) :
  platform_ok P -> copied mem dst offset m d -> Mem.bytes_ok m ->
  WORDSIZE P <= offset <= dst -> dst <= d ->
  d + WORDSIZE P <= Z.of_nat (length mem) ->
  exists m', copy_unaligned_word P m (d - offset) d = Done m' /\
    copied mem dst offset m' (d + WORDSIZE P) /\ Mem.bytes_ok m'.
Proof.
  intros HP (Hlen & Hpre & Hrec) Hok Hoff Hd Hroom.
  apply platform_ok_pos in HP.
  set (n := Z.to_nat (WORDSIZE P)).
  destruct (load_bytes_Done m (d - offset) n) as (Eload & Hbl & Hbs); [lia..|].
  set (bs := take n (drop (Z.to_nat (d - offset)) m)) in *.
  assert (Hbsok : Mem.bytes_ok bs) by (apply Forall_take, Forall_drop, Hok).
  destruct (store_bytes_Done m d bs) as (m' & Estore & Hlen' & Hlook); [lia..|].
  exists m'. unfold copy_unaligned_word, get_unaligned_word, put_unaligned_word.
  fold n. rewrite Eload. cbn [rbind].
  rewrite bytes_of_word_of_bytes by (assumption || lia).
  split; [exact Estore|]. split.
  - split; [lia|]. split.
    + intros i Hi. rewrite Hlook by lia.
      destruct (decide _) as [Hin|_]; [lia|]. apply Hpre. lia.
    + intros i Hi. rewrite (Hlook (i - offset)) by lia.
      destruct (decide (d <= i - offset < _)) as [Hin|_]; [lia|].
      rewrite Hlook by lia. destruct (decide _) as [Hin|Hout].
      * rewrite Hbs by lia. f_equal. lia.
      * apply Hrec. lia.
  - unfold Mem.bytes_ok. rewrite Forall_lookup. intros i x Hx.
    replace i with (Z.to_nat (Z.of_nat i)) in Hx by lia.
    rewrite Hlook in Hx by lia. destruct (decide _) as [Hin|_].
    + eapply bytes_ok_lookup; [exact Hbsok|exact Hx].
    + eapply bytes_ok_lookup; [exact Hok|exact Hx].
Qed.

Lemma fill_word_step (P : platform) (mem : list Z) (dst : Z) (m : list Z) (d b : Z) :
  platform_ok P -> copied mem dst 1 m d -> 0 <= b < 256 ->
  m !! Z.to_nat (d - 1) = Some b ->
  1 <= dst <= d -> d + WORDSIZE P <= Z.of_nat (length mem) ->
  exists m', put_unaligned_word P (repeat_byte P b) m d = Done m' /\
    copied mem dst 1 m' (d + WORDSIZE P) /\
    m' !! Z.to_nat (d + WORDSIZE P - 1) = Some b.
Proof.
  intros HP (Hlen & Hpre & Hrec) Hb Hprev Hd Hroom.
  pose proof (platform_ok_pos P HP) as HW.
  unfold put_unaligned_word. rewrite bytes_of_repeat_byte by assumption.
  set (n := Z.to_nat (WORDSIZE P)).
  destruct (store_bytes_Done m d (replicate n b)) as (m' & Estore & Hlen' & Hlook);
    [rewrite ?length_replicate; lia..|].
  rewrite length_replicate in Hlook.
  assert (Hnew : forall i, d <= i < d + Z.of_nat n -> m' !! Z.to_nat i = Some b).
  { intros i Hi. rewrite Hlook by lia. destruct (decide _) as [_|Hout]; [|lia].
    apply lookup_replicate_2. lia. }
  assert (Hold : forall i, 0 <= i < d -> m' !! Z.to_nat i = m !! Z.to_nat i).
  { intros i Hi. rewrite Hlook by lia. destruct (decide _) as [Hin|_]; [lia|reflexivity]. }
  exists m'. split; [exact Estore|]. split.
  - split; [lia|]. split.
    + intros i Hi. rewrite Hold by lia. apply Hpre. lia.
    + intros i Hi. destruct (Z.lt_ge_cases i d).
      * rewrite !Hold by lia. apply Hrec. lia.
      * rewrite Hnew by lia. destruct (Z.eq_dec i d) as [->|Hne].
        -- rewrite Hold by lia. symmetry. exact Hprev.
        -- rewrite Hnew by lia. reflexivity.
  - apply Hnew. lia.
Qed.

Lemma word_copy_loop_Done (P : platform) (mem : list Z) (dst offset end_p : Z) (fuel : nat) :
  platform_ok P -> WORDSIZE P <= offset <= dst ->
  end_p + WORDSIZE P - 1 <= Z.of_nat (length mem) ->
  forall (m : list Z) (d : Z),
    copied mem dst offset m d -> Mem.bytes_ok m -> dst <= d < end_p ->
    (Z.to_nat (end_p - d) <= fuel)%nat ->
    exists m' d', word_copy_loop P fuel m (d - offset) d end_p = Done m' /\
      copied mem dst offset m' d' /\ end_p <= d'.
Proof.
  intros HP Hoff Hroom. pose proof (platform_ok_pos P HP) as HW.
  induction fuel as [|fuel IH]; intros m d Hc Hok Hd Hfuel; [lia|].
  destruct (copy_word_step P mem dst offset m d HP Hc Hok Hoff ltac:(lia) ltac:(lia))
    as (m1 & E1 & Hc1 & Hok1).
  cbn [word_copy_loop]. rewrite E1. cbn [rbind].
  destruct (Z.ltb_spec (d + WORDSIZE P) end_p) as [Hmore|Hdone].
  - replace (d - offset + WORDSIZE P) with (d + WORDSIZE P - offset) by lia.
    apply IH; try assumption; lia.
  - exists m1, (d + WORDSIZE P). auto.
Qed.

Lemma word_fill_loop_Done (P : platform) (mem : list Z) (dst end_p b : Z) (fuel : nat) :
  platform_ok P -> 0 <= b < 256 -> 1 <= dst ->
  end_p + WORDSIZE P - 1 <= Z.of_nat (length mem) ->
  forall (m : list Z) (d : Z),
    copied mem dst 1 m d -> m !! Z.to_nat (d - 1) = Some b -> dst <= d < end_p ->
    (Z.to_nat (end_p - d) <= fuel)%nat ->
    exists m' d', word_fill_loop P fuel m (repeat_byte P b) d end_p = Done m' /\
      copied mem dst 1 m' d' /\ end_p <= d'.
Proof.
  intros HP Hb Hdst Hroom. pose proof (platform_ok_pos P HP) as HW.
  induction fuel as [|fuel IH]; intros m d Hc Hprev Hd Hfuel; [lia|].
  destruct (fill_word_step P mem dst m d b HP Hc Hb Hprev ltac:(lia) ltac:(lia))
    as (m1 & E1 & Hc1 & Hprev1).
  cbn [word_fill_loop]. rewrite E1. cbn [rbind].
  destruct (Z.ltb_spec (d + WORDSIZE P) end_p) as [Hmore|Hdone].
  - apply IH; try assumption; lia.
  - exists m1, (d + WORDSIZE P). auto.
Qed.

(** Every path of [lz_copy] returns [dst + len] and leaves the copy
    invariant up to there. *)
Lemma lz_copy_copied (P : platform) (fuel : nat) (mem : list Z)
    (dst len offset bufend min_length : Z) :
  platform_ok P -> Mem.bytes_ok mem ->
  0 <= offset <= dst ->
  shortest_length min_length <= len < 2 ^ 32 ->
  dst + len <= bufend <= Z.of_nat (length mem) ->
  (Z.to_nat len <= fuel)%nat ->
  exists mem',
    lz_copy P fuel mem dst len offset bufend min_length = Done (mem', dst + len) /\
    copied mem dst offset mem' (dst + len).
Proof.
  intros HP Hok Hoff Hlen Hbuf Hfuel.
  pose proof (platform_ok_pos P HP) as HW.
  assert (H1 : 1 <= len) by (unfold shortest_length in Hlen; lia).
  assert (Hbytewise : exists mem',
    lz_copy_bytewise fuel mem (dst - offset) dst len min_length = Done (mem', dst + len) /\
    copied mem dst offset mem' (dst + len)).
  { rewrite lz_copy_bytewise_reference by assumption.
    destruct (reference_copy_Done mem dst offset (Z.to_nat len) Hoff mem dst
                (copied_start _ _ _) ltac:(lia) ltac:(lia)) as (m' & E & Hc & _).
    exists m'. rewrite E. cbn [rbind]. split; [reflexivity|].
    now replace (dst + Z.of_nat (Z.to_nat len)) with (dst + len) in Hc by lia. }
  unfold lz_copy.
  destruct (FAST_UNALIGNED_ACCESS P && (bufend - (dst + len) >=? WORDSIZE P - 1)) eqn:Efast;
    [|exact Hbytewise].
  apply andb_true_iff in Efast as (_ & Hroom). apply Z.geb_le in Hroom.
  destruct (Z.geb_spec offset (WORDSIZE P)) as [Hfar|Hnear].
  - destruct (copy_word_step P mem dst offset mem dst HP (copied_start _ _ _) Hok
                ltac:(lia) ltac:(lia) ltac:(lia)) as (m1 & E1 & Hc1 & Hok1).
    rewrite E1. cbn [rbind].
    destruct (Z.ltb_spec (dst + WORDSIZE P) (dst + len)) as [Hmore|Hdone].
    + replace (dst - offset + WORDSIZE P) with (dst + WORDSIZE P - offset) by lia.
      destruct (word_copy_loop_Done P mem dst offset (dst + len) fuel HP ltac:(lia)
                  ltac:(lia) m1 (dst + WORDSIZE P) Hc1 Hok1 ltac:(lia) ltac:(lia))
        as (m2 & d2 & E2 & Hc2 & Hd2).
      rewrite E2. cbn [rbind]. exists m2. split; [reflexivity|].
      eapply copied_weaken; eassumption.
    + exists m1. split; [reflexivity|]. eapply copied_weaken; [exact Hc1|lia].
  - destruct (Z.eqb_spec offset 1) as [->|Hne]; [|exact Hbytewise].
    destruct (load_in_range mem (dst - 1)) as (b & Eload & Hb); [lia|].
    rewrite Eload. cbn [rbind].
    destruct (word_fill_loop_Done P mem dst (dst + len) b fuel HP
                ltac:(eapply bytes_ok_lookup; eauto) ltac:(lia) ltac:(lia)
                mem dst (copied_start _ _ _) Hb ltac:(lia) ltac:(lia))
      as (m1 & d1 & E1 & Hc1 & Hd1).
    rewrite E1. cbn [rbind]. exists m1. split; [reflexivity|].
    eapply copied_weaken; eassumption.
Qed.

(** ** lz_copy: an out-of-bounds access does not depend on the fuel *)

Lemma word_copy_loop_fault_stable (P : platform) (fuel : nat) :
  forall (m : list Z) (src dst end_p : Z) (fuel' : nat),
    word_copy_loop P fuel m src dst end_p = Fault -> (fuel <= fuel')%nat ->
    word_copy_loop P fuel' m src dst end_p = Fault.
Proof.
  induction fuel as [|fuel IH]; intros m src dst end_p fuel' H Hle; [discriminate|].
  destruct fuel' as [|fuel']; [lia|]. cbn [word_copy_loop] in *.
  destruct (copy_unaligned_word P m src dst) as [m1| |]; cbn [rbind] in *;
    try assumption.
  destruct (dst + WORDSIZE P <? end_p); [|discriminate].
  apply IH; [exact H|lia].
Qed.

Lemma word_fill_loop_fault_stable (P : platform) (fuel : nat) :
  forall (m : list Z) (v dst end_p : Z) (fuel' : nat),
    word_fill_loop P fuel m v dst end_p = Fault -> (fuel <= fuel')%nat ->
    word_fill_loop P fuel' m v dst end_p = Fault.
Proof.
  induction fuel as [|fuel IH]; intros m v dst end_p fuel' H Hle; [discriminate|].
  destruct fuel' as [|fuel']; [lia|]. cbn [word_fill_loop] in *.
  destruct (put_unaligned_word P v m dst) as [m1| |]; cbn [rbind] in *;
    try assumption.
  destruct (dst + WORDSIZE P <? end_p); [|discriminate].
  apply IH; [exact H|lia].
Qed.

Lemma bytewise_loop_fault_stable (fuel : nat) :
  forall (m : list Z) (src dst len : Z) (fuel' : nat),
    bytewise_loop fuel m src dst len = Fault -> (fuel <= fuel')%nat ->
    bytewise_loop fuel' m src dst len = Fault.
Proof.
  induction fuel as [|fuel IH]; intros m src dst len fuel' H Hle; [discriminate|].
  destruct fuel' as [|fuel']; [lia|]. cbn [bytewise_loop] in *.
  destruct (copy_byte m src dst) as [m1| |]; cbn [rbind] in *; try assumption.
  destruct (wrap32 (len - 1) =? 0); [discriminate|].
  apply IH; [exact H|lia].
Qed.

Lemma lz_copy_fault_stable (P : platform) (fuel fuel' : nat) (m : list Z)
    (dst len offset bufend min_length : Z) :
  lz_copy P fuel m dst len offset bufend min_length = Fault -> (fuel <= fuel')%nat ->
  lz_copy P fuel' m dst len offset bufend min_length = Fault.
Proof.
  intros H Hle.
  assert (Hbytewise : forall src,
            lz_copy_bytewise fuel m src dst len min_length = Fault ->
            lz_copy_bytewise fuel' m src dst len min_length = Fault).
  { intros src. unfold lz_copy_bytewise.
    destruct (unrolled_copy (min_length >=? 2) (m, src, dst, len)) as [st1| |];
      cbn [rbind]; try (intros; assumption).
    destruct (unrolled_copy (min_length >=? 3) st1) as [[[[m2 src2] dst2] len2]| |];
      cbn [rbind]; try (intros; assumption).
    intros Hb. eapply bytewise_loop_fault_stable; eassumption. }
  unfold lz_copy in *.
  destruct (FAST_UNALIGNED_ACCESS P && (bufend - (dst + len) >=? WORDSIZE P - 1));
    [|now apply Hbytewise].
  destruct (offset >=? WORDSIZE P).
  - destruct (copy_unaligned_word P m (dst - offset) dst) as [m1| |]; cbn [rbind] in *;
      try assumption.
    destruct (dst + WORDSIZE P <? dst + len); [|discriminate].
    destruct (word_copy_loop P fuel m1 (dst - offset + WORDSIZE P) (dst + WORDSIZE P)
                (dst + len)) as [m2| |] eqn:E; cbn [rbind] in H; try discriminate.
    rewrite (word_copy_loop_fault_stable P fuel _ _ _ _ fuel' E Hle). reflexivity.
  - destruct (offset =? 1); [|now apply Hbytewise].
    destruct (Mem.load m (dst - 1)) as [b| |]; cbn [rbind] in *; try assumption.
    destruct (word_fill_loop P fuel m (repeat_byte P b) dst (dst + len)) as [m2| |] eqn:E;
      cbn [rbind] in H; try discriminate.
    rewrite (word_fill_loop_fault_stable P fuel _ _ _ _ fuel' E Hle). reflexivity.
Qed.

(** ** lz_copy: the claims *)

(** C1, as stated, fails: a match of length 1 copied with [min_length = 3]
    satisfies the stated preconditions, but the two unrolled copies of the
    bytewise path take the [u32] length counter from 1 through 0 to
    [2^32 - 1]; the loop then runs on past [dst + length], here until it
    leaves the 4-byte buffer.  The call never returns [dst + length]. *)
Lemma lz_copy_short_match_diverges :
  ~ exists fuel mem',
      lz_copy bytewise_only fuel [1; 2; 0; 0] 2 1 2 4 3 = Done (mem', 3).
Proof.
  intros (fuel & mem' & H).
  destruct fuel as [|fuel]; vm_compute in H; discriminate H.
Qed.

(** C1, amended.  If moreover [length >= min(min_length, 3)] (as it is when
    the caller passes its minimum match length), then on every platform
    [lz_copy] returns [dst + length], and below that position the buffer is
    what the reference byte-by-byte copy produces: the [offset] bytes before
    [dst] repeated periodically, a run of the byte before [dst] when
    [offset = 1]. *)
Theorem lz_copy_matches_reference (P : platform) (fuel : nat) (mem : list Z)
    (dst len offset bufend min_length : Z) :
  platform_ok P -> Mem.bytes_ok mem ->
  1 <= offset <= dst ->
  1 <= len < 2 ^ 32 ->
  Z.min min_length 3 <= len ->
  dst + len <= bufend <= Z.of_nat (length mem) ->
  (Z.to_nat len <= fuel)%nat ->
  exists mem' ref,
    lz_copy P fuel mem dst len offset bufend min_length = Done (mem', dst + len) /\
    reference_copy (Z.to_nat len) mem dst offset = Done ref /\
    take (Z.to_nat (dst + len)) mem' = take (Z.to_nat (dst + len)) ref /\
    (forall i, dst <= i < dst + len ->
       mem' !! Z.to_nat i = mem !! Z.to_nat (dst - offset + (i - dst) mod offset)) /\
    (offset = 1 ->
       forall i, dst <= i < dst + len -> mem' !! Z.to_nat i = mem !! Z.to_nat (dst - 1)).
Proof.
  intros HP Hok Hoff Hlen Hmin Hbuf Hfuel.
  destruct (lz_copy_copied P fuel mem dst len offset bufend min_length HP Hok
              ltac:(lia) ltac:(unfold shortest_length; lia) Hbuf Hfuel)
    as (mem' & E & Hc).
  destruct (reference_copy_Done mem dst offset (Z.to_nat len) ltac:(lia) mem dst
              (copied_start _ _ _) ltac:(lia) ltac:(lia)) as (ref & Eref & Hcref & _).
  replace (dst + Z.of_nat (Z.to_nat len)) with (dst + len) in Hcref by lia.
  pose proof (copied_periodic mem dst offset mem' (dst + len) Hoff Hc) as Hper.
  exists mem', ref. split; [exact E|]. split; [exact Eref|]. split; [|split].
  - apply list_eq. intros i.
    destruct (Nat.lt_ge_cases i (Z.to_nat (dst + len))) as [Hlt|Hge].
    + rewrite !lookup_take_lt by exact Hlt.
      replace i with (Z.to_nat (Z.of_nat i)) by lia.
      apply (copied_unique mem dst offset mem' ref (dst + len) Hoff Hc Hcref). lia.
    + rewrite !lookup_take_ge by exact Hge. reflexivity.
  - exact Hper.
  - intros -> i Hi. rewrite Hper by exact Hi. rewrite Z.mod_1_r. f_equal. lia.
Qed.

Lemma lz_copy_matches_reference_witness :
  exists mem' ref,
    lz_copy x86_64 5 [1; 2; 3; 0; 0; 0; 0; 0; 0; 0; 0; 0; 0; 0; 0; 0] 3 5 2 16 3
      = Done (mem', 8) /\
    reference_copy 5 [1; 2; 3; 0; 0; 0; 0; 0; 0; 0; 0; 0; 0; 0; 0; 0] 3 2 = Done ref /\
    take 8 mem' = take 8 ref.
Proof.
  destruct (lz_copy_matches_reference x86_64 5
              [1; 2; 3; 0; 0; 0; 0; 0; 0; 0; 0; 0; 0; 0; 0; 0] 3 5 2 16 3)
    as (mem' & ref & H1 & H2 & H3 & _).
  - right. reflexivity.
  - repeat constructor; lia.
  - lia.
  - lia.
  - lia.
  - cbn. lia.
  - cbn. lia.
  - exists mem', ref. split; [exact H1|]. split; [exact H2|exact H3].
Defined.

(** C2, as stated, fails on the same kind of call: length 1 with
    [min_length = 3], ending exactly at [bufend].  The second unrolled copy
    stores at [bufend], outside the buffer. *)
Lemma lz_copy_short_match_overruns :
  lz_copy x86_64 1 [1; 2; 0] 2 1 2 3 3 = Fault.
Proof. vm_compute. reflexivity. Qed.

(** C2, amended.  With [bufend] the end of the output buffer and
    [length >= min(min_length, 3)] besides the stated preconditions, [lz_copy]
    never makes a store at [bufend] or beyond (such a store is a [Fault]),
    however far it is run, on the word-at-a-time paths as well; it runs to its
    return and the buffer keeps its size. *)
Theorem lz_copy_stays_below_bufend (P : platform) (fuel : nat) (mem : list Z)
    (dst len offset bufend min_length : Z) :
  platform_ok P -> Mem.bytes_ok mem ->
  0 <= offset <= dst ->
  1 <= len < 2 ^ 32 ->
  Z.min min_length 3 <= len ->
  dst + len <= bufend ->
  bufend = Z.of_nat (length mem) ->
  lz_copy P fuel mem dst len offset bufend min_length <> Fault /\
  ((Z.to_nat len <= fuel)%nat ->
   exists mem',
     lz_copy P fuel mem dst len offset bufend min_length = Done (mem', dst + len) /\
     Z.of_nat (length mem') = bufend).
Proof.
  intros HP Hok Hoff Hlen Hmin Hbuf Hend.
  assert (Hdone : forall f, (Z.to_nat len <= f)%nat ->
            exists mem',
              lz_copy P f mem dst len offset bufend min_length = Done (mem', dst + len) /\
              Z.of_nat (length mem') = bufend).
  { intros f Hf.
    destruct (lz_copy_copied P f mem dst len offset bufend min_length HP Hok Hoff
                ltac:(unfold shortest_length; lia) ltac:(lia) Hf)
      as (mem' & E & Hl & _).
    exists mem'. split; [exact E|]. lia. }
  split; [|apply Hdone].
  intros HF.
  destruct (Hdone (Nat.max fuel (Z.to_nat len)) ltac:(lia)) as (mem' & E & _).
  rewrite (lz_copy_fault_stable P fuel _ _ _ _ _ _ _ HF) in E by lia.
  discriminate E.
Qed.

Lemma lz_copy_stays_below_bufend_witness :
  exists mem',
    lz_copy x86_64 5 [1; 2; 3; 4; 5; 6; 7; 8; 9; 0; 0; 0; 0; 0; 0; 0; 0; 0; 0; 0; 0] 9 5 8 21 3
      = Done (mem', 14) /\
    Z.of_nat (length mem') = 21.
Proof.
  apply (lz_copy_stays_below_bufend x86_64 5
           [1; 2; 3; 4; 5; 6; 7; 8; 9; 0; 0; 0; 0; 0; 0; 0; 0; 0; 0; 0; 0] 9 5 8 21 3).
  - right. reflexivity.
  - repeat constructor; lia.
  - lia.
  - lia.
  - lia.
  - lia.
  - reflexivity.
  - cbn. lia.
Defined.

(** C9.  On the bytewise path, with [min_length] 2 or 3 and
    [length >= min_length], the call returns [dst + length] having done
    exactly the reference copy: [length] bytes written, every other byte as
    before.  With [min_length = 3] and [length = 1] the unrolled copies leave
    the [u32] counter at [2^32 - 1], and the call never returns
    [dst + length]. *)
Theorem lz_copy_bytewise_needs_min_length :
  (forall (fuel : nat) (mem : list Z) (dst len offset min_length : Z),
      min_length = 2 \/ min_length = 3 ->
      min_length <= len < 2 ^ 32 ->
      0 <= offset <= dst ->
      dst + len <= Z.of_nat (length mem) ->
      (Z.to_nat len <= fuel)%nat ->
      exists mem',
        lz_copy_bytewise fuel mem (dst - offset) dst len min_length
          = Done (mem', dst + len) /\
        reference_copy (Z.to_nat len) mem dst offset = Done mem' /\
        length mem' = length mem /\
        forall i, 0 <= i -> ~ (dst <= i < dst + len) ->
                  mem' !! Z.to_nat i = mem !! Z.to_nat i) /\
  (let* st1 := unrolled_copy true ([1; 2; 0; 0; 0; 0], 0, 2, 1) in
   unrolled_copy true st1)
  = Done ([1; 2; 1; 2; 0; 0], 2, 4, 2 ^ 32 - 1) /\
  (forall (fuel : nat) (mem' : list Z),
      lz_copy_bytewise fuel [1; 2; 0; 0; 0; 0] 0 2 1 3 <> Done (mem', 3)).
Proof.
  split; [|split].
  - intros fuel mem dst len offset min_length Hmin Hlen Hoff Hroom Hfuel.
    rewrite lz_copy_bytewise_reference
      by (try assumption; unfold shortest_length; lia).
    destruct (reference_copy_Done mem dst offset (Z.to_nat len) Hoff mem dst
                (copied_start _ _ _) ltac:(lia) ltac:(lia)) as (m' & E & Hc & Hfr).
    exists m'. rewrite E. cbn [rbind].
    split; [reflexivity|]. split; [reflexivity|]. split; [apply Hc|].
    intros i Hi Hout. apply Hfr; lia.
  - vm_compute. reflexivity.
  - intros fuel mem'. destruct fuel as [|[|[|fuel]]]; vm_compute; discriminate.
Qed.

Lemma lz_copy_bytewise_needs_min_length_witness :
  exists mem',
    lz_copy_bytewise 4 [7; 8; 9; 0; 0; 0; 0] 0 3 4 3 = Done (mem', 7) /\
    reference_copy 4 [7; 8; 9; 0; 0; 0; 0] 3 3 = Done mem'.
Proof.
  destruct (proj1 lz_copy_bytewise_needs_min_length 4%nat [7; 8; 9; 0; 0; 0; 0] 3 4 3 3)
    as (mem' & H1 & H2 & _).
  - right. reflexivity.
  - lia.
  - lia.
  - cbn. lia.
  - cbn. lia.
  - exists mem'. split; [exact H1|exact H2].
Defined.

(** * Further properties of the code *)

(** ** Little-endian 32-bit access *)

Lemma lor_shiftl_add (x b k : Z) :
  0 <= k -> 0 <= x < 2 ^ k -> Z.lor x (Z.shiftl b k) = x + b * 2 ^ k.
Proof.
  intros Hk Hx. rewrite Z.shiftl_mul_pow2 by lia. rewrite Z.lor_comm.
  rewrite lor_shifted_add by lia. lia.
Qed.

Lemma get_unaligned_le32_value (m : list Z) (p b0 b1 b2 b3 : Z) :
  0 <= p ->
  m !! Z.to_nat p = Some b0 -> m !! Z.to_nat (p + 1) = Some b1 ->
  m !! Z.to_nat (p + 2) = Some b2 -> m !! Z.to_nat (p + 3) = Some b3 ->
  0 <= b0 < 256 -> 0 <= b1 < 256 -> 0 <= b2 < 256 -> 0 <= b3 < 256 ->
  get_unaligned_le32 m p = Done (b0 + 256 * b1 + 65536 * b2 + 16777216 * b3).
Proof.
  intros Hp E0 E1 E2 E3 H0 H1 H2 H3. unfold get_unaligned_le32.
  rewrite (load_Done m p b0), (load_Done m (p + 1) b1), (load_Done m (p + 2) b2),
    (load_Done m (p + 3) b3) by (assumption || lia).
  cbn [rbind]. f_equal.
  rewrite (lor_shiftl_add b0 b1 8) by lia.
  rewrite (lor_shiftl_add _ b2 16) by lia.
  rewrite (lor_shiftl_add _ b3 24) by lia.
  change (2 ^ 8) with 256. change (2 ^ 16) with 65536. change (2 ^ 24) with 16777216.
  lia.
Qed.

Lemma u32_bytes (v : Z) :
  0 <= v < 2 ^ 32 ->
  v = Z.shiftr v 0 mod 256 + 256 * (Z.shiftr v 8 mod 256)
      + 65536 * (Z.shiftr v 16 mod 256) + 16777216 * (Z.shiftr v 24 mod 256).
Proof.
  intros Hv. rewrite Z.shiftr_0_r, !Z.shiftr_div_pow2 by lia.
  change (2 ^ 8) with 256. change (2 ^ 16) with (256 * 256).
  change (2 ^ 24) with (256 * 256 * 256).
  rewrite <- !Z.div_div by lia.
  pose proof (Z.div_mod v 256 ltac:(lia)).
  pose proof (Z.div_mod (v / 256) 256 ltac:(lia)).
  pose proof (Z.div_mod (v / 256 / 256) 256 ltac:(lia)).
  pose proof (Z.div_mod (v / 256 / 256 / 256) 256 ltac:(lia)).
  assert (v / 256 / 256 / 256 / 256 = 0).
  { rewrite !Z.div_div by lia. apply Z.div_small. lia. }
  lia.
Qed.

(** X1.  [put_unaligned_le32] followed by [get_unaligned_le32] at the same
    place gives back the [u32] written; the store changes the four bytes at
    [p] only, keeps the buffer size and stores [u8] values. *)
Theorem le32_put_get (m : list Z) (p v : Z) :
  0 <= v < 2 ^ 32 -> 0 <= p -> p + 4 <= Z.of_nat (length m) ->
  exists m',
    put_unaligned_le32 v m p = Done m' /\
    get_unaligned_le32 m' p = Done v /\
    length m' = length m /\
    (forall i, 0 <= i -> ~ (p <= i < p + 4) -> m' !! Z.to_nat i = m !! Z.to_nat i) /\
    (Mem.bytes_ok m -> Mem.bytes_ok m').
Proof.
  intros Hv Hp Hlen.
  set (b0 := Z.shiftr v 0 mod 256). set (b1 := Z.shiftr v 8 mod 256).
  set (b2 := Z.shiftr v 16 mod 256). set (b3 := Z.shiftr v 24 mod 256).
  assert (Hb : 0 <= b0 < 256 /\ 0 <= b1 < 256 /\ 0 <= b2 < 256 /\ 0 <= b3 < 256)
    by (repeat split; apply Z.mod_pos_bound; lia).
  set (m0 := <[Z.to_nat p := b0]> m).
  set (m1 := <[Z.to_nat (p + 1) := b1]> m0).
  set (m2 := <[Z.to_nat (p + 2) := b2]> m1).
  set (m3 := <[Z.to_nat (p + 3) := b3]> m2).
  assert (L0 : length m0 = length m) by apply length_insert.
  assert (L1 : length m1 = length m) by (unfold m1; rewrite length_insert; exact L0).
  assert (L2 : length m2 = length m) by (unfold m2; rewrite length_insert; exact L1).
  assert (L3 : length m3 = length m) by (unfold m3; rewrite length_insert; exact L2).
  exists m3. split.
  { unfold put_unaligned_le32. fold b0 b1 b2 b3.
    rewrite (store_Done m p b0) by lia. cbn [rbind]. fold m0.
    rewrite (store_Done m0 (p + 1) b1) by lia. cbn [rbind]. fold m1.
    rewrite (store_Done m1 (p + 2) b2) by lia. cbn [rbind]. fold m2.
    apply store_Done. lia. }
  split.
  { rewrite (u32_bytes v Hv) at 1. fold b0 b1 b2 b3.
    apply get_unaligned_le32_value; try lia; unfold m3, m2, m1, m0.
    - rewrite !list_lookup_insert_ne by lia. apply list_lookup_insert_eq. lia.
    - rewrite !list_lookup_insert_ne by lia. apply list_lookup_insert_eq.
      rewrite length_insert. lia.
    - rewrite !list_lookup_insert_ne by lia. apply list_lookup_insert_eq.
      rewrite !length_insert. lia.
    - apply list_lookup_insert_eq. rewrite !length_insert. lia. }
  split; [exact L3|]. split.
  - intros i Hi Hout. unfold m3, m2, m1, m0.
    rewrite !list_lookup_insert_ne by lia. reflexivity.
  - intros Hok. unfold m3, m2, m1, m0, Mem.bytes_ok.
    repeat apply Forall_insert; (exact Hok || lia).
Qed.

Lemma le32_put_get_witness :
  exists m',
    put_unaligned_le32 0x12345678 [9; 0; 0; 0; 0; 9] 1 = Done m' /\
    get_unaligned_le32 m' 1 = Done 0x12345678.
Proof.
  destruct (le32_put_get [9; 0; 0; 0; 0; 9] 1 0x12345678) as (m' & H1 & H2 & _).
  - lia.
  - lia.
  - cbn. lia.
  - exists m'. split; assumption.
Defined.

(** ** Byte-granular reads and how they compose *)

Lemma read_u16_value (buf : list Z) (istream : input_bitstream) (b0 b1 : Z) :
  cursor_ok buf istream -> Mem.bytes_ok buf ->
  2 <= end_ istream - next istream ->
  buf !! Z.to_nat (next istream) = Some b0 ->
  buf !! Z.to_nat (next istream + 1) = Some b1 ->
  bitstream_read_u16 buf istream =
    Done (b0 + 256 * b1,
          {| bitbuf := bitbuf istream; bitsleft := bitsleft istream;
             next := next istream + 2; end_ := end_ istream |}) /\
  0 <= b0 + 256 * b1 < 65536.
Proof.
  intros (Hn & He & _) Hok H2 E0 E1. unfold bitstream_read_u16, get_unaligned_le16.
  destruct (Z.ltb_spec (end_ istream - next istream) 2); [lia|].
  rewrite (load_Done _ _ b0), (load_Done _ _ b1) by (assumption || lia).
  cbn [rbind].
  destruct (le16_value b0 b1) as (-> & Hr); [eapply bytes_ok_lookup; eauto..|].
  auto.
Qed.

(** X2.  With two or more bytes left, [bitstream_read_u16] returns
    [b0 + 256 * b1] for the bytes two successive [bitstream_read_byte] calls
    return, and leaves the stream they leave.  With exactly one byte left it
    returns 0 and does not consume that byte: [bitstream_read_byte] still
    returns it. *)
Theorem read_u16_is_two_read_byte (buf : list Z) (istream : input_bitstream) :
  cursor_ok buf istream -> Mem.bytes_ok buf ->
  (2 <= end_ istream - next istream ->
   exists b0 b1 s1 s2,
     bitstream_read_byte buf istream = Done (b0, s1) /\
     bitstream_read_byte buf s1 = Done (b1, s2) /\
     bitstream_read_u16 buf istream = Done (b0 + 256 * b1, s2)) /\
  (end_ istream - next istream = 1 ->
   bitstream_read_u16 buf istream = Done (0, istream) /\
   exists b s1,
     buf !! Z.to_nat (next istream) = Some b /\
     bitstream_read_byte buf istream = Done (b, s1) /\
     next s1 = end_ s1).
Proof.
  intros Hc Hok. pose proof Hc as (Hn & He & Hs). split.
  - intros H2.
    destruct (read_byte_cases buf istream Hc) as [(Hz & _)|(_ & b0 & E0 & R0)]; [lia|].
    set (s1 := {| bitbuf := bitbuf istream; bitsleft := bitsleft istream;
                  next := next istream + 1; end_ := end_ istream |}) in *.
    assert (Hc1 : cursor_ok buf s1) by (unfold cursor_ok, s1; cbn [next end_]; lia).
    destruct (read_byte_cases buf s1 Hc1) as [(Hz & _)|(_ & b1 & E1 & R1)];
      [unfold s1 in Hz; cbn [next end_] in Hz; lia|].
    cbn [next end_ bitbuf bitsleft s1] in E1, R1.
    destruct (read_u16_value buf istream b0 b1 Hc Hok H2 E0 E1) as (R16 & _).
    eexists b0, b1, s1, _. split; [exact R0|]. split; [exact R1|].
    rewrite R16. do 3 f_equal. lia.
  - intros H1.
    destruct (read_u16_cases buf istream Hc) as [(_ & R)|(H2 & _)]; [|lia].
    split; [exact R|].
    destruct (read_byte_cases buf istream Hc) as [(Hz & _)|(_ & b & E & R0)]; [lia|].
    eexists b, _. split; [exact E|]. split; [exact R0|]. cbn [next end_]. lia.
Qed.

Lemma read_u16_is_two_read_byte_witness :
  exists b0 b1 s1 s2,
    bitstream_read_byte [0x34; 0x12; 0x56] (init_input_bitstream 3) = Done (b0, s1) /\
    bitstream_read_byte [0x34; 0x12; 0x56] s1 = Done (b1, s2) /\
    bitstream_read_u16 [0x34; 0x12; 0x56] (init_input_bitstream 3)
      = Done (b0 + 256 * b1, s2).
Proof.
  apply (proj1 (read_u16_is_two_read_byte [0x34; 0x12; 0x56] (init_input_bitstream 3)
                  ltac:(unfold cursor_ok; cbn; lia) ltac:(repeat constructor; lia))).
  cbn. lia.
Defined.

(** X3.  With four or more bytes left, [bitstream_read_u32] returns
    [lo + 65536 * hi] for the values two successive [bitstream_read_u16]
    calls return, a [u32], and leaves the stream they leave.  With two or
    three bytes left it returns 0 and consumes nothing, while
    [bitstream_read_u16] would still read a unit. *)
Theorem read_u32_is_two_read_u16 (buf : list Z) (istream : input_bitstream) :
  cursor_ok buf istream -> Mem.bytes_ok buf ->
  (4 <= end_ istream - next istream ->
   exists lo hi s1 s2,
     bitstream_read_u16 buf istream = Done (lo, s1) /\
     bitstream_read_u16 buf s1 = Done (hi, s2) /\
     bitstream_read_u32 buf istream = Done (lo + 65536 * hi, s2) /\
     0 <= lo + 65536 * hi < 2 ^ 32) /\
  (2 <= end_ istream - next istream < 4 ->
   bitstream_read_u32 buf istream = Done (0, istream) /\
   exists v s1,
     bitstream_read_u16 buf istream = Done (v, s1) /\ next s1 = next istream + 2).
Proof.
  intros Hc Hok. pose proof Hc as (Hn & He & Hs). split.
  - intros H4.
    destruct (lookup_lt_is_Some_2 buf (Z.to_nat (next istream))) as [b0 E0]; [lia|].
    destruct (lookup_lt_is_Some_2 buf (Z.to_nat (next istream + 1))) as [b1 E1]; [lia|].
    destruct (lookup_lt_is_Some_2 buf (Z.to_nat (next istream + 2))) as [b2 E2]; [lia|].
    destruct (lookup_lt_is_Some_2 buf (Z.to_nat (next istream + 3))) as [b3 E3]; [lia|].
    pose proof (bytes_ok_lookup _ _ _ Hok E0). pose proof (bytes_ok_lookup _ _ _ Hok E1).
    pose proof (bytes_ok_lookup _ _ _ Hok E2). pose proof (bytes_ok_lookup _ _ _ Hok E3).
    destruct (read_u16_value buf istream b0 b1 Hc Hok ltac:(lia) E0 E1) as (R0 & Hr0).
    set (s1 := {| bitbuf := bitbuf istream; bitsleft := bitsleft istream;
                  next := next istream + 2; end_ := end_ istream |}) in *.
    assert (Hc1 : cursor_ok buf s1) by (unfold cursor_ok, s1; cbn [next end_]; lia).
    assert (E3' : buf !! Z.to_nat (next s1 + 1) = Some b3).
    { unfold s1. cbn [next].
      replace (next istream + 2 + 1) with (next istream + 3) by lia. exact E3. }
    destruct (read_u16_value buf s1 b2 b3 Hc1 Hok
                ltac:(unfold s1; cbn [next end_]; lia) E2 E3') as (R1 & Hr1).
    cbn [next end_ bitbuf bitsleft s1] in R1.
    eexists _, _, s1, _. split; [exact R0|]. split; [exact R1|]. split; [|lia].
    unfold bitstream_read_u32.
    destruct (Z.ltb_spec (end_ istream - next istream) 4); [lia|].
    rewrite (get_unaligned_le32_value buf _ b0 b1 b2 b3) by (assumption || lia).
    cbn [rbind]. f_equal. f_equal; [lia|]. f_equal. lia.
  - intros H23.
    destruct (read_u32_cases buf istream Hc) as [(_ & R)|(H4 & _)]; [|lia].
    split; [exact R|].
    destruct (read_u16_cases buf istream Hc) as [(H2 & _)|(_ & v & R16)]; [lia|].
    eexists v, _. split; [exact R16|]. reflexivity.
Qed.

Lemma read_u32_is_two_read_u16_witness :
  exists lo hi s1 s2,
    bitstream_read_u16 [0x78; 0x56; 0x34; 0x12] (init_input_bitstream 4) = Done (lo, s1) /\
    bitstream_read_u16 [0x78; 0x56; 0x34; 0x12] s1 = Done (hi, s2) /\
    bitstream_read_u32 [0x78; 0x56; 0x34; 0x12] (init_input_bitstream 4)
      = Done (lo + 65536 * hi, s2) /\
    0 <= lo + 65536 * hi < 2 ^ 32.
Proof.
  apply (proj1 (read_u32_is_two_read_u16 [0x78; 0x56; 0x34; 0x12] (init_input_bitstream 4)
                  ltac:(unfold cursor_ok; cbn; lia) ltac:(repeat constructor; lia))).
  cbn. lia.
Defined.

(** X4.  [bitstream_read_bytes] delivers exactly the [count] bytes at the
    cursor.  Reading [a] bytes and then [b] bytes is the same as reading
    [a + b] bytes at once; a read of 0 bytes succeeds (no NULL) even when the
    input is exhausted and leaves the cursor in place; and a read of one byte
    delivers the byte [bitstream_read_byte] returns. *)
Theorem read_bytes_compose (buf : list Z) (size_bits : Z) (istream : input_bitstream) :
  cursor_ok buf istream -> 32 <= size_bits ->
  (forall a b, 0 <= a -> 0 <= b -> a + b <= end_ istream - next istream ->
     exists x y s1 s2,
       bitstream_read_bytes buf size_bits istream a = Done (Some x, s1) /\
       bitstream_read_bytes buf size_bits s1 b = Done (Some y, s2) /\
       bitstream_read_bytes buf size_bits istream (a + b) = Done (Some (x ++ y), s2) /\
       x ++ y = take (Z.to_nat (a + b)) (drop (Z.to_nat (next istream)) buf)) /\
  (exists s, bitstream_read_bytes buf size_bits istream 0 = Done (Some [], s) /\
             next s = next istream) /\
  (next istream < end_ istream ->
   exists b s,
     bitstream_read_byte buf istream = Done (b, s) /\
     bitstream_read_bytes buf size_bits istream 1 = Done (Some [b], s)).
Proof.
  intros Hc Hsb. pose proof Hc as (Hn & He & Hs). split; [|split].
  - intros a b Ha Hb Hab.
    destruct (read_bytes_cases buf size_bits istream a Hc Hsb Ha) as [(Hlt & _)|(_ & Ra)];
      [lia|].
    set (s1 := {| bitbuf := bitbuf istream; bitsleft := bitsleft istream;
                  next := next istream + a; end_ := end_ istream |}) in *.
    assert (Hc1 : cursor_ok buf s1) by (unfold cursor_ok, s1; cbn [next end_]; lia).
    destruct (read_bytes_cases buf size_bits s1 b Hc1 Hsb Hb) as [(Hlt & _)|(_ & Rb)];
      [unfold s1 in Hlt; cbn [next end_] in Hlt; lia|].
    destruct (read_bytes_cases buf size_bits istream (a + b) Hc Hsb ltac:(lia))
      as [(Hlt & _)|(_ & Rab)]; [lia|].
    cbn [next end_ bitbuf bitsleft s1] in Rb.
    assert (Hcat : take (Z.to_nat a) (drop (Z.to_nat (next istream)) buf)
                   ++ take (Z.to_nat b) (drop (Z.to_nat (next istream + a)) buf)
                   = take (Z.to_nat (a + b)) (drop (Z.to_nat (next istream)) buf)).
    { replace (Z.to_nat (next istream + a))
        with (Z.to_nat (next istream) + Z.to_nat a)%nat by lia.
      rewrite <- drop_drop, take_take_drop. f_equal. lia. }
    eexists _, _, s1, _. split; [exact Ra|]. split; [exact Rb|].
    split; [|exact Hcat]. rewrite Rab, Hcat. do 3 f_equal. lia.
  - destruct (read_bytes_cases buf size_bits istream 0 Hc Hsb ltac:(lia))
      as [(Hlt & _)|(_ & R)]; [lia|].
    eexists. rewrite R. cbn [Z.to_nat take]. rewrite take_0.
    split; [reflexivity|]. cbn [next]. lia.
  - intros Hlt.
    destruct (read_byte_cases buf istream Hc) as [(Hz & _)|(_ & b & E & R)]; [lia|].
    destruct (read_bytes_cases buf size_bits istream 1 Hc Hsb ltac:(lia))
      as [(Hlt1 & _)|(_ & R1)]; [lia|].
    eexists b, _. split; [exact R|]. rewrite R1.
    rewrite (drop_S _ _ _ E). reflexivity.
Qed.

Lemma read_bytes_compose_witness :
  exists x y s1 s2,
    bitstream_read_bytes [1; 2; 3; 4; 5] 64 (init_input_bitstream 5) 2 = Done (Some x, s1) /\
    bitstream_read_bytes [1; 2; 3; 4; 5] 64 s1 3 = Done (Some y, s2) /\
    bitstream_read_bytes [1; 2; 3; 4; 5] 64 (init_input_bitstream 5) (2 + 3)
      = Done (Some (x ++ y), s2) /\
    x ++ y = take (Z.to_nat (2 + 3)) (drop (Z.to_nat 0) [1; 2; 3; 4; 5]).
Proof.
  apply (proj1 (read_bytes_compose [1; 2; 3; 4; 5] 64 (init_input_bitstream 5)
                  ltac:(unfold cursor_ok; cbn; lia) ltac:(lia))).
  - lia.
  - lia.
  - cbn. lia.
Defined.

(** ** Bit-granular reads: composition and bounds *)




(** X6.  Whatever the input holds, the index [read_huffsym] computes from
    the next [table_bits] bits is below [2 ^ table_bits]: its first table
    access is inside any decode table with at least [2 ^ table_bits]
    entries. *)
Theorem direct_index_in_table (buf : list Z) (istream : input_bitstream)
    (decode_table : list Z) (table_bits max_codeword_len : Z) :
  cursor_ok buf istream ->
  0 <= bitbuf istream < 2 ^ 32 ->
  0 <= table_bits ->
  2 ^ table_bits <= Z.of_nat (length decode_table) ->
  exists istream1 entry,
    bitstream_ensure_bits buf istream max_codeword_len = Done istream1 /\
    0 <= bitstream_peek_bits istream1 table_bits < 2 ^ table_bits /\
    Mem.load decode_table (bitstream_peek_bits istream1 table_bits) = Done entry.
Proof.
  intros Hc Hx Htb Hlen.
  destruct (ensure_bits_cursor buf istream max_codeword_len Hc) as (is1 & E & _ & _).
  pose proof (ensure_bits_bitbuf_range _ _ _ _ Hx E) as Hx1.
  pose proof (peek_bits_range is1 table_bits Hx1 Htb) as Hk.
  destruct (load_in_range decode_table (bitstream_peek_bits is1 table_bits))
    as (e & L & _); [lia|].
  exists is1, e. auto.
Qed.

Lemma direct_index_in_table_witness :
  exists istream1 entry,
    bitstream_ensure_bits [0xFF; 0xFF] (init_input_bitstream 2) 3 = Done istream1 /\
    0 <= bitstream_peek_bits istream1 2 < 2 ^ 2 /\
    Mem.load [2048; 2048; 4097; 49156; 2; 3] (bitstream_peek_bits istream1 2) = Done entry.
Proof.
  apply (direct_index_in_table [0xFF; 0xFF] (init_input_bitstream 2)
           [2048; 2048; 4097; 49156; 2; 3] 2 3).
  - unfold cursor_ok; cbn; lia.
  - cbn; lia.
  - lia.
  - cbn; lia.
Defined.

(** ** Reading at and past the end of the input *)

(** X7.  [bitstream_read_bits] delivers the next [n <= 16] pending bits of
    the stream (accumulator, then input units), and where the input ends
    before [n] bits are there, the missing bits are zeros: the value is that
    of the first [n] bits of the pending bits followed by zeros.  The value
    is below [2 ^ n]. *)
Theorem read_bits_pads_with_zeros (buf : list Z) (istream : input_bitstream)
    (l : list bool) (n : nat) :
  cursor_ok buf istream -> Mem.bytes_ok buf ->
  pending buf istream l -> (n <= 16)%nat ->
  exists istream',
    bitstream_read_bits buf istream (Z.of_nat n)
      = Done (bits_value (take n (l ++ replicate 16 false)), istream') /\
    0 <= bits_value (take n (l ++ replicate 16 false)) < 2 ^ Z.of_nat n /\
    cursor_ok buf istream' /\
    pending buf istream'
      (drop n (if (n <=? length l)%nat then l else l ++ replicate 16 false)).
Proof.
  intros Hc Hok Hp Hn.
  assert (Hrange : 0 <= bits_value (take n (l ++ replicate 16 false)) < 2 ^ Z.of_nat n).
  { pose proof (bits_value_bound (take n (l ++ replicate 16 false))) as Hb.
    rewrite length_take, length_app, length_replicate in Hb.
    replace (n `min` (length l + 16))%nat with n in Hb by lia. exact Hb. }
  destruct (Nat.leb_spec n (length l)) as [Hle|Hgt].
  - destruct (read_bits_pending buf istream l n Hc Hok Hp Hn Hle) as (is' & E & Hc' & Hp').
    exists is'. rewrite take_app_le in * by exact Hle. auto.
  - destruct Hp as (acc & Hacc & ->).
    pose proof Hacc as (Hbl & _ & _). rewrite length_app in Hgt.
    destruct (ensure_bits_acc buf istream (Z.of_nat n) Hc Hok ltac:(lia) ltac:(lia))
      as (is1 & E1 & _ & Hc1 & _ & Hrefill & Hpad).
    assert (Hnil : stream_bits (drop (Z.to_nat (next istream)) buf) = []).
    { destruct (Z.le_gt_cases 2 (end_ istream - next istream)) as [H2|H2].
      - exfalso.
        destruct (Hrefill ltac:(lia) H2) as (b0 & b1 & E0 & E1' & _).
        destruct Hc as (Hn0 & _).
        rewrite (drop_S _ _ _ E0) in Hgt.
        replace (Z.to_nat (next istream + 1)) with (S (Z.to_nat (next istream))) in E1' by lia.
        rewrite (drop_S _ _ _ E1') in Hgt. cbn [stream_bits] in Hgt.
        rewrite length_app, bits_of_length in Hgt. lia.
      - destruct Hc as (Hn0 & He & _).
        pose proof (length_drop buf (Z.to_nat (next istream))) as Hl.
        destruct (drop (Z.to_nat (next istream)) buf) as [|x [|y r]]; try reflexivity.
        cbn [length] in Hl. lia. }
    rewrite Hnil, app_nil_r in *.
    assert (H2 : end_ istream - next istream < 2).
    { destruct (Z.le_gt_cases 2 (end_ istream - next istream)) as [H2|H2]; [|exact H2].
      exfalso. destruct (Hrefill ltac:(lia) H2) as (b0 & b1 & E0 & E1' & _).
      destruct Hc as (Hn0 & _). rewrite (drop_S _ _ _ E0) in Hnil.
      replace (Z.to_nat (next istream + 1)) with (S (Z.to_nat (next istream))) in E1' by lia.
      rewrite (drop_S _ _ _ E1') in Hnil. cbn [stream_bits] in Hnil.
      apply (f_equal length) in Hnil. rewrite length_app, bits_of_length in Hnil.
      cbn in Hnil. lia. }
    destruct (Hpad ltac:(lia) H2) as (Hnext & _ & _ & Hacc1).
    specialize (Hacc1 acc Hacc).
    assert (Hlen1 : (n <= length (acc ++ replicate 16 false))%nat)
      by (rewrite length_app, length_replicate; lia).
    exists (bitstream_remove_bits is1 (Z.of_nat n)).
    unfold bitstream_read_bits. rewrite E1. cbn [rbind]. unfold bitstream_pop_bits.
    rewrite (acc_peek is1 _ n Hacc1 Hlen1).
    split; [reflexivity|]. split; [exact Hrange|]. split; [exact Hc1|].
    exists (drop n (acc ++ replicate 16 false)).
    split; [now apply acc_remove|].
    cbn [bitstream_remove_bits next]. rewrite Hnext, Hnil, app_nil_r. reflexivity.
Qed.

Lemma read_bits_pads_with_zeros_witness :
  exists istream',
    bitstream_read_bits [0xFF] {| bitbuf := 0xE0000000; bitsleft := 3; next := 0; end_ := 1 |}
                        (Z.of_nat 5)
      = Done (bits_value (take 5 ([true; true; true] ++ replicate 16 false)), istream').
Proof.
  destruct (read_bits_pads_with_zeros [0xFF]
              {| bitbuf := 0xE0000000; bitsleft := 3; next := 0; end_ := 1 |}
              [true; true; true] 5) as (is' & H & _).
  - unfold cursor_ok; cbn; lia.
  - repeat constructor; lia.
  - exists [true; true; true]. split; [|reflexivity].
    unfold acc_holds. cbn. lia.
  - lia.
  - exists is'. exact H.
Defined.

(** X8.  Once fewer than two input bytes are left and the accumulator is
    zero, every further [bitstream_read_bits], of any size, returns 0, the
    accumulator stays zero and the cursor stays where it is, so that a last
    odd byte is never consumed by bit reads. *)
Theorem exhausted_stream_reads_zeros (buf : list Z) (sizes : list nat) :
  forall istream,
    bitbuf istream = 0 -> end_ istream - next istream < 2 ->
    exists istream',
      read_chunks buf istream sizes = Done (map (fun _ => 0) sizes, istream') /\
      next istream' = next istream /\ end_ istream' = end_ istream /\
      bitbuf istream' = 0.
Proof.
  induction sizes as [|n sizes IH]; intros istream Hz Hend.
  - exists istream. auto.
  - cbn [read_chunks map]. unfold bitstream_read_bits, bitstream_ensure_bits.
    assert (Hpop : forall s, bitbuf s = 0 ->
              bitstream_pop_bits s (Z.of_nat n) = (0, bitstream_remove_bits s (Z.of_nat n)) /\
              bitbuf (bitstream_remove_bits s (Z.of_nat n)) = 0).
    { intros s Hs. unfold bitstream_pop_bits, bitstream_peek_bits, bitstream_remove_bits.
      cbn [bitbuf]. rewrite Hs. unfold shr32, shl32, wrap32.
      rewrite Z.shiftr_0_l, Z.shiftl_0_l.
      split.
      - f_equal. destruct (Z.of_nat n =? 0); [reflexivity|].
        destruct (_ <? 32); reflexivity.
      - destruct (Z.of_nat n <? 32); reflexivity. }
    destruct (Z.geb_spec (end_ istream - next istream) 2); [lia|].
    destruct (bitsleft istream <? Z.of_nat n); cbn [rbind].
    + destruct (Hpop {| bitbuf := bitbuf istream; bitsleft := wrap32 (bitsleft istream + 16);
                        next := next istream; end_ := end_ istream |} Hz) as (-> & Hz').
      cbn [rbind].
      destruct (IH _ Hz' ltac:(cbn [bitstream_remove_bits next end_]; lia))
        as (is' & -> & Hn' & He' & Hb').
      cbn [rbind]. exists is'. auto.
    + destruct (Hpop istream Hz) as (-> & Hz'). cbn [rbind].
      destruct (IH _ Hz' ltac:(cbn [bitstream_remove_bits next end_]; lia))
        as (is' & -> & Hn' & He' & Hb').
      cbn [rbind]. exists is'. auto.
Qed.

Lemma exhausted_stream_reads_zeros_witness :
  exists istream',
    read_chunks [0xAB] (init_input_bitstream 1) [3; 16; 7]%nat
      = Done ([0; 0; 0], istream') /\
    next istream' = 0.
Proof.
  destruct (exhausted_stream_reads_zeros [0xAB] [3; 16; 7]%nat (init_input_bitstream 1))
    as (is' & H1 & H2 & _).
  - reflexivity.
  - cbn. lia.
  - exists is'. split; assumption.
Defined.

(** ** The accumulator *)



(** X10.  The bits of a coding unit come out high to low: with an empty
    accumulator and a unit [u = b0 + 256 * b1] at the cursor, reading
    [n] bits ([1 <= n <= 16]) returns [u / 2 ^ (16 - n)] and moves the cursor
    past the unit; reading the remaining [16 - n] bits then returns
    [u mod 2 ^ (16 - n)] without touching the input, and empties the
    accumulator. *)
Theorem read_bits_unit_high_to_low (buf : list Z) (istream : input_bitstream)
    (b0 b1 : Z) (n : nat) :
  cursor_ok buf istream -> Mem.bytes_ok buf ->
  bitsleft istream = 0 -> bitbuf istream = 0 ->
  2 <= end_ istream - next istream ->
  buf !! Z.to_nat (next istream) = Some b0 ->
  buf !! Z.to_nat (next istream + 1) = Some b1 ->
  (1 <= n <= 16)%nat ->
  exists s1 s2,
    bitstream_read_bits buf istream (Z.of_nat n)
      = Done ((b0 + 256 * b1) / 2 ^ (16 - Z.of_nat n), s1) /\
    next s1 = next istream + 2 /\
    bitstream_read_bits buf s1 (16 - Z.of_nat n)
      = Done ((b0 + 256 * b1) mod 2 ^ (16 - Z.of_nat n), s2) /\
    next s2 = next istream + 2 /\ bitsleft s2 = 0 /\ bitbuf s2 = 0.
Proof.
  intros Hc Hok Hbl Hbb H2 E0 E1 Hn.
  assert (Hacc : acc_holds istream []) by (unfold acc_holds; rewrite Hbl, Hbb; cbn; lia).
  destruct (ensure_bits_acc buf istream (Z.of_nat n) Hc Hok ltac:(lia) ltac:(lia))
    as (is1 & Eens & _ & Hc1 & _ & Hrefill & _).
  destruct (Hrefill ltac:(lia) H2) as (c0 & c1 & F0 & F1 & Hnext & _ & Hacc1).
  rewrite E0 in F0. rewrite E1 in F1. injection F0 as <-. injection F1 as <-.
  specialize (Hacc1 [] Hacc). cbn [app] in Hacc1.
  set (u := b0 + 256 * b1) in *. set (bits := bits_of 16 u) in *.
  assert (Hu : 0 <= u < 65536).
  { pose proof (bytes_ok_lookup _ _ _ Hok E0). pose proof (bytes_ok_lookup _ _ _ Hok E1).
    unfold u. lia. }
  assert (Hlen : length bits = 16%nat) by apply bits_of_length.
  assert (Hval : bits_value bits = u).
  { unfold bits. rewrite bits_value_bits_of. apply Z.mod_small. cbn. lia. }
  pose proof (bits_value_take_drop n bits ltac:(lia)) as Hsplit.
  rewrite Hval, Hlen in Hsplit. change (Z.of_nat 16) with 16 in Hsplit.
  pose proof (bits_value_bound (drop n bits)) as Hd.
  rewrite length_drop, Hlen, Nat2Z.inj_sub in Hd by lia. change (Z.of_nat 16) with 16 in Hd.
  assert (Hpos : 0 < 2 ^ (16 - Z.of_nat n)) by (apply Z.pow_pos_nonneg; lia).
  assert (Hhi : bits_value (take n bits) = u / 2 ^ (16 - Z.of_nat n)).
  { rewrite Hsplit. rewrite Z.div_add_l by lia. rewrite Z.div_small by lia. lia. }
  assert (Hlo : bits_value (drop n bits) = u mod 2 ^ (16 - Z.of_nat n)).
  { rewrite Hsplit at 1. rewrite Z.add_comm, Z.mod_add by lia.
    symmetry. apply Z.mod_small. lia. }
  set (s1 := bitstream_remove_bits is1 (Z.of_nat n)).
  assert (Hacc2 : acc_holds s1 (drop n bits)) by (apply acc_remove; [exact Hacc1|lia]).
  assert (R1 : bitstream_read_bits buf istream (Z.of_nat n)
               = Done (u / 2 ^ (16 - Z.of_nat n), s1)).
  { unfold bitstream_read_bits. rewrite Eens. cbn [rbind]. unfold bitstream_pop_bits.
    rewrite (acc_peek is1 bits n Hacc1 ltac:(lia)), Hhi. reflexivity. }
  assert (Hbl2 : bitsleft s1 = 16 - Z.of_nat n).
  { destruct Hacc2 as (-> & _). rewrite length_drop. lia. }
  set (k := (16 - n)%nat).
  assert (Hk : 16 - Z.of_nat n = Z.of_nat k) by (unfold k; lia).
  exists s1, (bitstream_remove_bits s1 (Z.of_nat k)).
  split; [exact R1|]. split; [unfold s1; cbn [bitstream_remove_bits next]; exact Hnext|].
  assert (Hklen : (k <= length (drop n bits))%nat) by (rewrite length_drop; lia).
  pose proof (acc_remove s1 _ k Hacc2 Hklen) as Hacc3.
  rewrite drop_ge in Hacc3 by (rewrite length_drop; lia).
  split.
  { rewrite Hk. unfold bitstream_read_bits, bitstream_ensure_bits.
    destruct (Z.ltb_spec (bitsleft s1) (Z.of_nat k)); [lia|]. cbn [rbind].
    unfold bitstream_pop_bits. rewrite (acc_peek s1 _ k Hacc2 Hklen).
    rewrite take_ge by (rewrite length_drop; lia). rewrite Hlo, Hk. reflexivity. }
  split; [unfold s1; cbn [bitstream_remove_bits next]; exact Hnext|].
  destruct Hacc3 as (Hb3 & _ & Hv3). cbn in Hb3, Hv3.
  split; [exact Hb3|exact Hv3].
Qed.

Lemma read_bits_unit_high_to_low_witness :
  exists s1 s2,
    bitstream_read_bits [0xCD; 0xAB] (init_input_bitstream 2) (Z.of_nat 4)
      = Done ((0xCD + 256 * 0xAB) / 2 ^ (16 - Z.of_nat 4), s1) /\
    next s1 = 0 + 2 /\
    bitstream_read_bits [0xCD; 0xAB] s1 (16 - Z.of_nat 4)
      = Done ((0xCD + 256 * 0xAB) mod 2 ^ (16 - Z.of_nat 4), s2) /\
    next s2 = 0 + 2 /\ bitsleft s2 = 0 /\ bitbuf s2 = 0.
Proof.
  apply (read_bits_unit_high_to_low [0xCD; 0xAB] (init_input_bitstream 2) 0xCD 0xAB 4).
  - unfold cursor_ok; cbn; lia.
  - repeat constructor; lia.
  - reflexivity.
  - reflexivity.
  - cbn; lia.
  - reflexivity.
  - reflexivity.
  - lia.
Defined.

(** ** read_huffsym: the slow case follows the tree by the input bits *)

Lemma huff_tree_walk_trie (table : list Z) (l : list bool) :
  forall (fuel : nat) (entry : Z) (istream : input_bitstream) (sym : Z) (k : nat),
    acc_holds istream l ->
    trie_walk table entry l = Some (sym, k) ->
    (k <= fuel)%nat ->
    huff_tree_walk fuel table entry istream
      = Done (sym, bitstream_remove_bits istream (Z.of_nat k)) /\
    acc_holds (bitstream_remove_bits istream (Z.of_nat k)) (drop k l) /\
    (1 <= k <= length l)%nat /\ sym < 0xC000.
Proof.
  induction l as [|b rest IH]; intros fuel entry istream sym k Hacc Hw Hfuel;
    [discriminate|].
  cbn [trie_walk] in Hw.
  assert (Hpeek : bitstream_peek_bits istream 1 = Z.b2z b).
  { change 1 with (Z.of_nat 1). rewrite (acc_peek istream (b :: rest) 1 Hacc) by (cbn; lia).
    cbn [take]. rewrite take_0. unfold bits_value. cbn [fold_left]. lia. }
  pose proof (acc_remove istream (b :: rest) 1 Hacc ltac:(cbn; lia)) as Hacc1.
  cbn [drop] in Hacc1. rewrite drop_0 in Hacc1. change (Z.of_nat 1) with 1 in Hacc1.
  assert (Hidx : 0 <= Z.land entry 0x3FFF + Z.b2z b).
  { pose proof (Z.land_nonneg entry 0x3FFF). destruct b; cbn [Z.b2z]; lia. }
  destruct (table !! Z.to_nat (Z.land entry 0x3FFF + Z.b2z b)) as [e|] eqn:El;
    [|discriminate].
  destruct (Z.geb_spec e 0xC000) as [Hnode|Hleaf].
  - destruct (trie_walk table e rest) as [[sym' k']|] eqn:Hw'; [|discriminate].
    injection Hw as <- <-.
    destruct fuel as [|fuel]; [lia|].
    destruct (IH fuel e (bitstream_remove_bits istream 1) sym' k' Hacc1 Hw' ltac:(lia))
      as (E & Hacc' & Hk & Hsym).
    rewrite remove_bits_remove_bits in E, Hacc' by lia.
    replace (1 + Z.of_nat k') with (Z.of_nat (S k')) in E, Hacc' by lia.
    cbn [huff_tree_walk bitstream_pop_bits]. rewrite Hpeek.
    rewrite (load_Done _ _ e Hidx El). cbn [rbind].
    destruct (Z.geb_spec e 0xC000); [|lia].
    split; [exact E|]. split; [exact Hacc'|]. cbn [length]. split; [lia|exact Hsym].
  - injection Hw as <- <-.
    destruct fuel as [|fuel]; [lia|].
    cbn [huff_tree_walk bitstream_pop_bits]. rewrite Hpeek.
    rewrite (load_Done _ _ e Hidx El). cbn [rbind].
    destruct (Z.geb_spec e 0xC000); [lia|].
    split; [reflexivity|]. split; [exact Hacc1|]. cbn [length]. split; [lia|lia].
Qed.

(** X11.  The slow case of [read_huffsym].  When, after
    [bitstream_ensure_bits], the accumulator holds the bits [l] and the table
    entry indexed by the first [table_bits] of them is a tree node, the
    symbol returned is the entry reached by following the tree with the bits
    of [l] after those, one child per bit, and exactly those bits are
    removed; the cursor is untouched and the result is below [0xC000]. *)
Theorem read_huffsym_follows_tree (buf : list Z) (fuel : nat)
    (istream istream1 : input_bitstream) (decode_table : list Z)
    (table_bits : nat) (max_codeword_len entry sym : Z) (l : list bool) (k : nat) :
  bitstream_ensure_bits buf istream max_codeword_len = Done istream1 ->
  acc_holds istream1 l ->
  (table_bits <= length l)%nat ->
  decode_table !! Z.to_nat (bits_value (take table_bits l)) = Some entry ->
  0xC000 <= entry ->
  trie_walk decode_table entry (drop table_bits l) = Some (sym, k) ->
  (k <= fuel)%nat ->
  exists istream',
    read_huffsym buf fuel istream decode_table (Z.of_nat table_bits) max_codeword_len
      = Done (sym, istream') /\
    acc_holds istream' (drop (table_bits + k) l) /\
    next istream' = next istream1 /\
    (table_bits + k <= length l)%nat /\
    sym < 0xC000.
Proof.
  intros Hens Hacc Htb He Hnode Hw Hfuel.
  pose proof (acc_remove istream1 l table_bits Hacc Htb) as Hacc0.
  destruct (huff_tree_walk_trie decode_table (drop table_bits l) fuel entry
              (bitstream_remove_bits istream1 (Z.of_nat table_bits)) sym k Hacc0 Hw Hfuel)
    as (E & Hacc' & Hk & Hsym).
  rewrite length_drop in Hk. rewrite drop_drop in Hacc'.
  eexists. unfold read_huffsym. rewrite Hens. cbn [rbind].
  rewrite (acc_peek istream1 l table_bits Hacc Htb).
  rewrite (load_Done _ _ entry (proj1 (bits_value_bound _)) He). cbn [rbind].
  destruct (Z.ltb_spec entry 0xC000); [lia|].
  split; [exact E|]. split; [exact Hacc'|].
  split; [reflexivity|]. split; [lia|exact Hsym].
Qed.

Lemma read_huffsym_follows_tree_witness :
  exists istream',
    read_huffsym [0xC0; 0xFF] 1 (init_input_bitstream 2)
                 [2048; 2048; 4097; 49156; 2; 3] (Z.of_nat 2) 3
      = Done (3, istream') /\
    acc_holds istream' (drop (2 + 1) (bits_of 16 0xFFC0)).
Proof.
  destruct (read_huffsym_follows_tree [0xC0; 0xFF] 1 (init_input_bitstream 2)
              {| bitbuf := 0xFFC00000; bitsleft := 16; next := 2; end_ := 2 |}
              [2048; 2048; 4097; 49156; 2; 3] 2 3 49156 3 (bits_of 16 0xFFC0) 1)
    as (is' & H1 & H2 & _).
  - reflexivity.
  - unfold acc_holds. split; [reflexivity|]. split; [cbn; lia|vm_compute; reflexivity].
  - cbn. lia.
  - reflexivity.
  - lia.
  - reflexivity.
  - lia.
  - exists is'. split; assumption.
Defined.

(** ** Word access *)

Lemma le_encode_length (n : nat) (v : Z) : length (le_encode n v) = n.
Proof. revert v. induction n as [|n IH]; intros v; cbn; [reflexivity|now rewrite IH]. Qed.

Lemma bytes_of_word_length (P : platform) (v : Z) :
  length (bytes_of_word P v) = Z.to_nat (WORDSIZE P).
Proof.
  unfold bytes_of_word. destruct (BIG_ENDIAN P);
    rewrite ?length_rev; apply le_encode_length.
Qed.

Lemma store_bytes_inv (m : list Z) (p : Z) (bs m' : list Z) :
  Mem.store_bytes m p bs = Done m' ->
  0 <= p /\ p + Z.of_nat (length bs) <= Z.of_nat (length m) /\
  m' = take (Z.to_nat p) m ++ bs ++ drop (Z.to_nat p + length bs) m /\
  length m' = length m /\
  forall i, 0 <= i ->
    m' !! Z.to_nat i =
      if decide (p <= i < p + Z.of_nat (length bs))
      then bs !! Z.to_nat (i - p) else m !! Z.to_nat i.
Proof.
  intros E. pose proof E as E'. unfold Mem.store_bytes in E'.
  destruct (decide _) as [(Hp & Hl)|]; [|discriminate]. injection E' as E'.
  destruct (store_bytes_Done m p bs Hp Hl) as (m'' & E'' & Hlen & Hlook).
  rewrite E in E''. injection E'' as <-. auto.
Qed.

Lemma copy_unaligned_word_inv (P : platform) (m : list Z) (src dst : Z) (m' : list Z) :
  Mem.bytes_ok m -> 0 <= WORDSIZE P ->
  copy_unaligned_word P m src dst = Done m' ->
  0 <= src /\ src + WORDSIZE P <= Z.of_nat (length m) /\
  0 <= dst /\ dst + WORDSIZE P <= Z.of_nat (length m) /\
  m' = take (Z.to_nat dst) m
       ++ take (Z.to_nat (WORDSIZE P)) (drop (Z.to_nat src) m)
       ++ drop (Z.to_nat dst + Z.to_nat (WORDSIZE P)) m.
Proof.
  intros Hok HW E. unfold copy_unaligned_word, get_unaligned_word, put_unaligned_word in E.
  unfold Mem.load_bytes in E.
  destruct (decide _) as [(Hs & Hsl)|]; [|discriminate]. cbn [rbind] in E.
  set (bs := take (Z.to_nat (WORDSIZE P)) (drop (Z.to_nat src) m)) in *.
  assert (Hbl : length bs = Z.to_nat (WORDSIZE P))
    by (unfold bs; rewrite length_take, length_drop; lia).
  rewrite bytes_of_word_of_bytes in E
    by (exact Hbl || apply Forall_take, Forall_drop, Hok).
  apply store_bytes_inv in E as (Hd & Hdl & -> & _). rewrite Hbl in *.
  repeat split; lia || reflexivity.
Qed.

Lemma copy_unaligned_word_frame (P : platform) (m : list Z) (src dst : Z) (m' : list Z) :
  Mem.bytes_ok m -> 0 <= WORDSIZE P ->
  copy_unaligned_word P m src dst = Done m' ->
  forall i, 0 <= i -> ~ (dst <= i < dst + WORDSIZE P) ->
            m' !! Z.to_nat i = m !! Z.to_nat i.
Proof.
  intros Hok HW E i Hi Hout.
  unfold copy_unaligned_word, get_unaligned_word, put_unaligned_word in E.
  destruct (Mem.load_bytes m src (Z.to_nat (WORDSIZE P))) as [bs| |]; cbn [rbind] in E;
    try discriminate.
  apply store_bytes_inv in E as (_ & _ & _ & _ & Hlook).
  rewrite bytes_of_word_length in Hlook.
  rewrite Hlook by lia. destruct (decide _) as [Hin|_]; [lia|reflexivity].
Qed.

(** X12.  [copy_unaligned_word] moves one word: when both words lie inside
    the buffer it returns, the [WORDSIZE] bytes at [dst] are afterwards the
    bytes that were at [src] before the call, also when the two words
    overlap, and no other byte changes.  Word size and byte order do not
    matter. *)
Theorem copy_unaligned_word_moves (P : platform) (m : list Z) (src dst : Z) :
  Mem.bytes_ok m -> 0 <= WORDSIZE P ->
  0 <= src -> src + WORDSIZE P <= Z.of_nat (length m) ->
  0 <= dst -> dst + WORDSIZE P <= Z.of_nat (length m) ->
  exists m',
    copy_unaligned_word P m src dst = Done m' /\
    length m' = length m /\
    (forall j, 0 <= j < WORDSIZE P ->
       m' !! Z.to_nat (dst + j) = m !! Z.to_nat (src + j)) /\
    (forall i, 0 <= i -> ~ (dst <= i < dst + WORDSIZE P) ->
       m' !! Z.to_nat i = m !! Z.to_nat i).
Proof.
  intros Hok HW Hs Hsl Hd Hdl.
  set (n := Z.to_nat (WORDSIZE P)).
  destruct (load_bytes_Done m src n) as (Eload & Hbl & Hbs); [lia..|].
  set (bs := take n (drop (Z.to_nat src) m)) in *.
  destruct (store_bytes_Done m dst bs) as (m' & Estore & Hlen' & Hlook); [lia..|].
  exists m'. split.
  { unfold copy_unaligned_word, get_unaligned_word, put_unaligned_word.
    fold n. rewrite Eload. cbn [rbind].
    rewrite bytes_of_word_of_bytes
      by (exact Hbl || apply Forall_take, Forall_drop, Hok).
    exact Estore. }
  split; [exact Hlen'|]. split.
  - intros j Hj. rewrite Hlook by lia. destruct (decide _) as [_|Hout]; [|lia].
    rewrite Hbs by lia. f_equal. lia.
  - intros i Hi Hout. rewrite Hlook by lia.
    destruct (decide _) as [Hin|_]; [lia|reflexivity].
Qed.

Lemma copy_unaligned_word_moves_witness :
  exists m',
    copy_unaligned_word x86_64 [1; 2; 3; 4; 5; 6; 7; 8; 9; 10; 11; 12] 1 4 = Done m' /\
    length m' = 12%nat.
Proof.
  destruct (copy_unaligned_word_moves x86_64 [1; 2; 3; 4; 5; 6; 7; 8; 9; 10; 11; 12] 1 4)
    as (m' & H1 & H2 & _).
  - repeat constructor; lia.
  - cbn; lia.
  - lia.
  - cbn; lia.
  - lia.
  - cbn; lia.
  - exists m'. split; assumption.
Defined.

(** X13.  [repeat_byte (b)] is [b] times the word with every byte 1, and
    [put_unaligned_word] of it fills the [WORDSIZE] bytes at [p] with [b],
    leaving the rest of the buffer as it was, in either byte order. *)
Theorem repeat_byte_fills_word (P : platform) (m : list Z) (p b : Z) :
  platform_ok P -> 0 <= b < 256 ->
  0 <= p -> p + WORDSIZE P <= Z.of_nat (length m) ->
  repeat_byte P b = b * ((2 ^ (8 * WORDSIZE P) - 1) / 255) /\
  put_unaligned_word P (repeat_byte P b) m p
  = Done (take (Z.to_nat p) m ++ replicate (Z.to_nat (WORDSIZE P)) b
          ++ drop (Z.to_nat p + Z.to_nat (WORDSIZE P)) m).
Proof.
  intros HP Hb Hp Hlen. split.
  - assert (Hall : forall W,
      forallb (fun b =>
        let P0 := {| WORDSIZE := W; FAST_UNALIGNED_ACCESS := true; BIG_ENDIAN := false |} in
        repeat_byte P0 b =? b * ((2 ^ (8 * W) - 1) / 255))
        (map Z.of_nat (seq 0 256)) = true ->
      forall f be,
        let P1 := {| WORDSIZE := W; FAST_UNALIGNED_ACCESS := f; BIG_ENDIAN := be |} in
        repeat_byte P1 b = b * ((2 ^ (8 * W) - 1) / 255)).
    { intros W Hf f be P1. rewrite forallb_forall in Hf.
      apply Z.eqb_eq. apply (Hf b).
      replace b with (Z.of_nat (Z.to_nat b)) by lia. apply in_map, in_seq. lia. }
    destruct P as [W f be]. unfold platform_ok in HP. cbn [WORDSIZE] in *.
    destruct HP as [-> | ->]; apply Hall; vm_compute; reflexivity.
  - unfold put_unaligned_word. rewrite bytes_of_repeat_byte by assumption.
    unfold Mem.store_bytes. rewrite length_replicate.
    pose proof (platform_ok_pos P HP).
    destruct (decide _) as [_|Hbad]; [reflexivity|lia].
Qed.

Lemma repeat_byte_fills_word_witness :
  repeat_byte x86_64 0xAB = 0xAB * ((2 ^ (8 * 8) - 1) / 255) /\
  put_unaligned_word x86_64 (repeat_byte x86_64 0xAB) [1; 2; 3; 4; 5; 6; 7; 8; 9; 10] 1
  = Done (take (Z.to_nat 1) [1; 2; 3; 4; 5; 6; 7; 8; 9; 10]
          ++ replicate (Z.to_nat 8) 0xAB
          ++ drop (Z.to_nat 1 + Z.to_nat 8) [1; 2; 3; 4; 5; 6; 7; 8; 9; 10]).
Proof.
  apply (repeat_byte_fills_word x86_64 [1; 2; 3; 4; 5; 6; 7; 8; 9; 10] 1 0xAB).
  - right. reflexivity.
  - lia.
  - lia.
  - cbn; lia.
Defined.

(** ** lz_copy: what it leaves alone *)

Lemma word_copy_loop_frame (P : platform) (fuel : nat) :
  forall (m : list Z) (src d end_p : Z) (m' : list Z),
    Mem.bytes_ok m -> 0 < WORDSIZE P ->
    word_copy_loop P fuel m src d end_p = Done m' -> d < end_p ->
    forall i, 0 <= i -> i < d \/ end_p + WORDSIZE P - 1 <= i ->
              m' !! Z.to_nat i = m !! Z.to_nat i.
Proof.
  induction fuel as [|fuel IH]; intros m src d end_p m' Hok HW E Hd i Hi Hout;
    [discriminate|].
  cbn [word_copy_loop] in E.
  destruct (copy_unaligned_word P m src d) as [m1| |] eqn:E1; cbn [rbind] in E;
    try discriminate.
  pose proof (copy_unaligned_word_frame P m src d m1 Hok ltac:(lia) E1) as Hfr.
  assert (Hok1 : Mem.bytes_ok m1).
  { destruct (copy_unaligned_word_inv P m src d m1 Hok ltac:(lia) E1)
      as (_ & _ & _ & _ & ->).
    unfold Mem.bytes_ok. rewrite !Forall_app.
    split; [apply Forall_take, Hok|].
    split; [apply Forall_take, Forall_drop, Hok|apply Forall_drop, Hok]. }
  destruct (Z.ltb_spec (d + WORDSIZE P) end_p) as [Hmore|Hdone].
  - rewrite (IH _ _ _ _ _ Hok1 HW E Hmore i Hi) by lia. apply Hfr; lia.
  - injection E as <-. apply Hfr; lia.
Qed.

Lemma word_fill_loop_frame (P : platform) (fuel : nat) :
  forall (m : list Z) (v d end_p : Z) (m' : list Z),
    0 < WORDSIZE P ->
    word_fill_loop P fuel m v d end_p = Done m' -> d < end_p ->
    forall i, 0 <= i -> i < d \/ end_p + WORDSIZE P - 1 <= i ->
              m' !! Z.to_nat i = m !! Z.to_nat i.
Proof.
  induction fuel as [|fuel IH]; intros m v d end_p m' HW E Hd i Hi Hout;
    [discriminate|].
  cbn [word_fill_loop] in E.
  destruct (put_unaligned_word P v m d) as [m1| |] eqn:E1; cbn [rbind] in E;
    try discriminate.
  unfold put_unaligned_word in E1.
  apply store_bytes_inv in E1 as (_ & _ & _ & _ & Hlook).
  rewrite bytes_of_word_length in Hlook.
  assert (Hfr : m1 !! Z.to_nat i = m !! Z.to_nat i).
  { rewrite Hlook by lia. destruct (decide _) as [Hin|_]; [lia|reflexivity]. }
  destruct (Z.ltb_spec (d + WORDSIZE P) end_p) as [Hmore|Hdone].
  - rewrite (IH _ _ _ _ _ HW E Hmore i Hi) by lia. exact Hfr.
  - injection E as <-. exact Hfr.
Qed.

(** X14.  Under the preconditions of the amended C1, [lz_copy] changes
    nothing before [dst], and nothing from [dst + length] on except, on the
    word-at-a-time paths, the at most [WORDSIZE - 1] bytes right after the
    match; the bytewise path changes exactly the bytes of the match. *)
Theorem lz_copy_frame (P : platform) (fuel : nat) (mem : list Z)
    (dst len offset bufend min_length : Z) :
  platform_ok P -> Mem.bytes_ok mem ->
  0 <= offset <= dst ->
  1 <= len < 2 ^ 32 ->
  Z.min min_length 3 <= len ->
  dst + len <= bufend <= Z.of_nat (length mem) ->
  (Z.to_nat len <= fuel)%nat ->
  exists mem',
    lz_copy P fuel mem dst len offset bufend min_length = Done (mem', dst + len) /\
    length mem' = length mem /\
    0 <= lz_copy_overrun P dst len offset bufend <= bufend - (dst + len) /\
    forall i, 0 <= i ->
      i < dst \/ dst + len + lz_copy_overrun P dst len offset bufend <= i ->
      mem' !! Z.to_nat i = mem !! Z.to_nat i.
Proof.
  intros HP Hok Hoff Hlen Hmin Hbuf Hfuel.
  pose proof (platform_ok_pos P HP) as HW.
  assert (Hshort : shortest_length min_length <= len < 2 ^ 32)
    by (unfold shortest_length; lia).
  destruct (lz_copy_copied P fuel mem dst len offset bufend min_length HP Hok Hoff
              Hshort Hbuf Hfuel) as (mem' & E & Hl & _).
  exists mem'. split; [exact E|]. split; [exact Hl|].
  assert (Hbytewise :
    lz_copy_bytewise fuel mem (dst - offset) dst len min_length = Done (mem', dst + len) ->
    forall i, 0 <= i -> i < dst \/ dst + len + 0 <= i ->
              mem' !! Z.to_nat i = mem !! Z.to_nat i).
  { intros Eb. rewrite lz_copy_bytewise_reference in Eb by assumption.
    destruct (reference_copy_Done mem dst offset (Z.to_nat len) Hoff mem dst
                (copied_start _ _ _) ltac:(lia) ltac:(lia)) as (m' & Er & _ & Hfr).
    rewrite Er in Eb. cbn [rbind] in Eb. injection Eb as <-.
    intros i Hi Hout. apply Hfr; lia. }
  unfold lz_copy_overrun. unfold lz_copy in E.
  destruct (FAST_UNALIGNED_ACCESS P && (bufend - (dst + len) >=? WORDSIZE P - 1)) eqn:Efast;
    cbn [andb]; [|split; [lia|now apply Hbytewise]].
  apply andb_true_iff in Efast as (_ & Hroom). apply Z.geb_le in Hroom.
  destruct (Z.geb_spec offset (WORDSIZE P)) as [Hfar|Hnear]; cbn [orb].
  - split; [lia|]. intros i Hi Hout.
    destruct (copy_unaligned_word P mem (dst - offset) dst) as [m1| |] eqn:E1;
      cbn [rbind] in E; try discriminate.
    destruct (copy_unaligned_word_inv P mem _ _ m1 Hok ltac:(lia) E1)
      as (_ & _ & _ & _ & Hm1).
    pose proof (copy_unaligned_word_frame P mem _ _ m1 Hok ltac:(lia) E1) as Hfr.
    assert (Hok1 : Mem.bytes_ok m1).
    { rewrite Hm1. unfold Mem.bytes_ok. rewrite !Forall_app.
      split; [apply Forall_take, Hok|].
      split; [apply Forall_take, Forall_drop, Hok|apply Forall_drop, Hok]. }
    destruct (Z.ltb_spec (dst + WORDSIZE P) (dst + len)) as [Hmore|Hdone].
    + destruct (word_copy_loop P fuel m1 _ _ _) as [m2| |] eqn:E2; cbn [rbind] in E;
        try discriminate.
      injection E as <-.
      rewrite (word_copy_loop_frame P fuel _ _ _ _ _ Hok1 ltac:(lia) E2 Hmore i Hi) by lia.
      apply Hfr; lia.
    + injection E as <-. apply Hfr; lia.
  - destruct (Z.eqb_spec offset 1) as [->|Hne].
    + split; [lia|]. intros i Hi Hout.
      destruct (Mem.load mem (dst - 1)) as [b| |]; cbn [rbind] in E; try discriminate.
      destruct (word_fill_loop P fuel mem _ _ _) as [m1| |] eqn:E1; cbn [rbind] in E;
        try discriminate.
      injection E as <-.
      apply (word_fill_loop_frame P fuel _ _ _ _ _ ltac:(lia) E1 ltac:(lia) i Hi). lia.
    + split; [lia|]. now apply Hbytewise.
Qed.

Lemma lz_copy_frame_witness :
  exists mem',
    lz_copy x86_64 5 [1; 2; 3; 4; 5; 6; 7; 8; 9; 0; 0; 0; 0; 0; 0; 0; 0; 0; 0; 0; 0; 77] 9 5 8 22 3
      = Done (mem', 9 + 5) /\
    mem' !! Z.to_nat 21 = Some 77.
Proof.
  destruct (lz_copy_frame x86_64 5
              [1; 2; 3; 4; 5; 6; 7; 8; 9; 0; 0; 0; 0; 0; 0; 0; 0; 0; 0; 0; 0; 77] 9 5 8 22 3)
    as (mem' & H1 & _ & _ & H2).
  - right. reflexivity.
  - repeat constructor; lia.
  - lia.
  - lia.
  - lia.
  - cbn. lia.
  - cbn. lia.
  - exists mem'. split; [exact H1|].
    rewrite (H2 21 ltac:(lia) ltac:(right; vm_compute; discriminate)). reflexivity.
Defined.

(** ** lz_copy: every byte written is a byte that was there *)

Lemma copy_byte_Forall (Q : Z -> Prop) (m : list Z) (src dst : Z) (m' : list Z) :
  copy_byte m src dst = Done m' -> Forall Q m -> Forall Q m'.
Proof.
  unfold copy_byte, Mem.load, Mem.store. intros E HQ.
  destruct (decide (0 <= src)); [|discriminate].
  destruct (m !! Z.to_nat src) as [b|] eqn:Eb; [|discriminate]. cbn [rbind] in E.
  destruct (decide _); [|discriminate]. injection E as <-.
  apply Forall_insert; [exact HQ|]. rewrite Forall_lookup in HQ. eapply HQ, Eb.
Qed.

Lemma reference_copy_Forall (Q : Z -> Prop) (offset : Z) (n : nat) :
  forall (m : list Z) (d : Z) (m' : list Z),
    reference_copy n m d offset = Done m' -> Forall Q m -> Forall Q m'.
Proof.
  induction n as [|n IH]; intros m d m' E HQ; [injection E as <-; exact HQ|].
  cbn [reference_copy] in E.
  destruct (Mem.load m (d - offset)) as [b| |] eqn:El; cbn [rbind] in E; try discriminate.
  destruct (Mem.store m d b) as [m1| |] eqn:Es; cbn [rbind] in E; try discriminate.
  apply (IH m1 (d + 1) m' E).
  apply (copy_byte_Forall Q m (d - offset) d m1); [|exact HQ].
  unfold copy_byte. rewrite El. cbn [rbind]. exact Es.
Qed.

Lemma copy_unaligned_word_Forall (Q : Z -> Prop) (P : platform) (m : list Z)
    (src dst : Z) (m' : list Z) :
  Mem.bytes_ok m -> 0 <= WORDSIZE P ->
  copy_unaligned_word P m src dst = Done m' -> Forall Q m -> Forall Q m'.
Proof.
  intros Hok HW E HQ.
  destruct (copy_unaligned_word_inv P m src dst m' Hok HW E) as (_ & _ & _ & _ & ->).
  rewrite !Forall_app.
  split; [apply Forall_take, HQ|].
  split; [apply Forall_take, Forall_drop, HQ|apply Forall_drop, HQ].
Qed.

Lemma word_copy_loop_Forall (Q : Z -> Prop) (P : platform) (fuel : nat) :
  forall (m : list Z) (src d end_p : Z) (m' : list Z),
    Mem.bytes_ok m -> 0 <= WORDSIZE P ->
    word_copy_loop P fuel m src d end_p = Done m' -> Forall Q m -> Forall Q m'.
Proof.
  induction fuel as [|fuel IH]; intros m src d end_p m' Hok HW E HQ; [discriminate|].
  cbn [word_copy_loop] in E.
  destruct (copy_unaligned_word P m src d) as [m1| |] eqn:E1; cbn [rbind] in E;
    try discriminate.
  pose proof (copy_unaligned_word_Forall Q P m src d m1 Hok HW E1 HQ) as HQ1.
  pose proof (copy_unaligned_word_Forall _ P m src d m1 Hok HW E1 Hok) as Hok1.
  destruct (d + WORDSIZE P <? end_p).
  - exact (IH _ _ _ _ _ Hok1 HW E HQ1).
  - injection E as <-. exact HQ1.
Qed.

Lemma word_fill_loop_Forall (Q : Z -> Prop) (P : platform) (b : Z) (fuel : nat) :
  platform_ok P -> 0 <= b < 256 -> Q b ->
  forall (m : list Z) (d end_p : Z) (m' : list Z),
    word_fill_loop P fuel m (repeat_byte P b) d end_p = Done m' ->
    Forall Q m -> Forall Q m'.
Proof.
  intros HP Hb HQb.
  induction fuel as [|fuel IH]; intros m d end_p m' E HQ; [discriminate|].
  cbn [word_fill_loop] in E.
  destruct (put_unaligned_word P (repeat_byte P b) m d) as [m1| |] eqn:E1;
    cbn [rbind] in E; try discriminate.
  assert (HQ1 : Forall Q m1).
  { unfold put_unaligned_word in E1. rewrite bytes_of_repeat_byte in E1 by assumption.
    apply store_bytes_inv in E1 as (_ & _ & -> & _).
    rewrite !Forall_app.
    split; [apply Forall_take, HQ|].
    split; [apply Forall_replicate, HQb|apply Forall_drop, HQ]. }
  destruct (d + WORDSIZE P <? end_p).
  - exact (IH _ _ _ _ E HQ1).
  - injection E as <-. exact HQ1.
Qed.

Lemma lz_copy_Forall (Q : Z -> Prop) (P : platform) (fuel : nat) (mem : list Z)
    (dst len offset bufend min_length : Z) (mem' : list Z) (r : Z) :
  platform_ok P -> Mem.bytes_ok mem ->
  shortest_length min_length <= len < 2 ^ 32 -> (Z.to_nat len <= fuel)%nat ->
  lz_copy P fuel mem dst len offset bufend min_length = Done (mem', r) ->
  Forall Q mem -> Forall Q mem'.
Proof.
  intros HP Hok Hlen Hfuel E HQ. pose proof (platform_ok_pos P HP) as HW.
  assert (Hbytewise :
    lz_copy_bytewise fuel mem (dst - offset) dst len min_length = Done (mem', r) ->
    Forall Q mem').
  { intros Eb. rewrite lz_copy_bytewise_reference in Eb by assumption.
    destruct (reference_copy (Z.to_nat len) mem dst offset) as [m'| |] eqn:Er;
      cbn [rbind] in Eb; try discriminate.
    injection Eb as <- _. exact (reference_copy_Forall Q _ _ _ _ _ Er HQ). }
  unfold lz_copy in E.
  destruct (FAST_UNALIGNED_ACCESS P && (bufend - (dst + len) >=? WORDSIZE P - 1));
    [|now apply Hbytewise].
  destruct (offset >=? WORDSIZE P).
  - destruct (copy_unaligned_word P mem (dst - offset) dst) as [m1| |] eqn:E1;
      cbn [rbind] in E; try discriminate.
    pose proof (copy_unaligned_word_Forall Q P _ _ _ _ Hok ltac:(lia) E1 HQ) as HQ1.
    pose proof (copy_unaligned_word_Forall _ P _ _ _ _ Hok ltac:(lia) E1 Hok) as Hok1.
    destruct (dst + WORDSIZE P <? dst + len).
    + destruct (word_copy_loop P fuel m1 _ _ _) as [m2| |] eqn:E2; cbn [rbind] in E;
        try discriminate.
      injection E as <- _.
      exact (word_copy_loop_Forall Q P fuel _ _ _ _ _ Hok1 ltac:(lia) E2 HQ1).
    + injection E as <- _. exact HQ1.
  - destruct (offset =? 1); [|now apply Hbytewise].
    destruct (Mem.load mem (dst - 1)) as [b| |] eqn:El; cbn [rbind] in E; try discriminate.
    destruct (word_fill_loop P fuel mem _ _ _) as [m1| |] eqn:E1; cbn [rbind] in E;
      try discriminate.
    injection E as <- _.
    unfold Mem.load in El. destruct (decide _); [|discriminate].
    destruct (mem !! Z.to_nat (dst - 1)) as [b'|] eqn:Eb; [|discriminate].
    injection El as ->.
    refine (word_fill_loop_Forall Q P b fuel HP _ _ _ _ _ _ E1 HQ).
    + eapply bytes_ok_lookup; eauto.
    + rewrite Forall_lookup in HQ. eapply HQ, Eb.
Qed.

(** X15.  Under the preconditions of the amended C1, every byte of the
    buffer after [lz_copy], the bytes a word-at-a-time path writes past the
    match included, is a byte the buffer held before the call: whatever holds
    of all bytes before holds of all bytes after. *)
Theorem lz_copy_no_new_bytes (P : platform) (fuel : nat) (mem : list Z)
    (dst len offset bufend min_length : Z) :
  platform_ok P -> Mem.bytes_ok mem ->
  0 <= offset <= dst ->
  1 <= len < 2 ^ 32 ->
  Z.min min_length 3 <= len ->
  dst + len <= bufend <= Z.of_nat (length mem) ->
  (Z.to_nat len <= fuel)%nat ->
  exists mem',
    lz_copy P fuel mem dst len offset bufend min_length = Done (mem', dst + len) /\
    (forall Q : Z -> Prop, Forall Q mem -> Forall Q mem') /\
    (forall x, In x mem' -> In x mem).
Proof.
  intros HP Hok Hoff Hlen Hmin Hbuf Hfuel.
  assert (Hshort : shortest_length min_length <= len < 2 ^ 32)
    by (unfold shortest_length; lia).
  destruct (lz_copy_copied P fuel mem dst len offset bufend min_length HP Hok Hoff
              Hshort Hbuf Hfuel) as (mem' & E & _).
  assert (HQ : forall Q : Z -> Prop, Forall Q mem -> Forall Q mem').
  { intros Q. exact (lz_copy_Forall Q P fuel _ _ _ _ _ _ _ _ HP Hok Hshort Hfuel E). }
  exists mem'. split; [exact E|]. split; [exact HQ|].
  intros x Hx.
  assert (Hall : Forall (fun y => In y mem) mem').
  { apply HQ, Forall_forall. intros y Hy. apply list_elem_of_In, Hy. }
  rewrite Forall_forall in Hall. apply Hall, list_elem_of_In, Hx.
Qed.

Lemma lz_copy_no_new_bytes_witness :
  exists mem',
    lz_copy x86_64 3 [10; 20; 30; 40; 50; 60; 70; 80; 0; 0; 0; 0; 0; 0; 0; 0; 0; 0] 8 3 8 18 3
      = Done (mem', 8 + 3) /\
    (forall x, In x mem' -> In x [10; 20; 30; 40; 50; 60; 70; 80; 0; 0; 0; 0; 0; 0; 0; 0; 0; 0]).
Proof.
  destruct (lz_copy_no_new_bytes x86_64 3
              [10; 20; 30; 40; 50; 60; 70; 80; 0; 0; 0; 0; 0; 0; 0; 0; 0; 0] 8 3 8 18 3)
    as (mem' & H1 & _ & H2).
  - right. reflexivity.
  - repeat constructor; lia.
  - lia.
  - lia.
  - lia.
  - cbn. lia.
  - cbn. lia.
  - exists mem'. split; assumption.
Defined.

(** ** lz_copy: two matches in a row *)

(** X16.  A match copied in two calls, [len1] bytes and then [len2] bytes
    from the returned cursor with the same offset, gives below
    [dst + len1 + len2] the buffer that one call with [len1 + len2] gives,
    and the same cursor: what a word-at-a-time first call writes past its
    match is overwritten by the second before it is read. *)
Theorem lz_copy_split_match (P : platform) (fuel : nat) (mem : list Z)
    (dst len1 len2 offset bufend min_length : Z) :
  platform_ok P -> Mem.bytes_ok mem ->
  1 <= offset <= dst ->
  1 <= len1 -> 1 <= len2 -> len1 + len2 < 2 ^ 32 ->
  Z.min min_length 3 <= len1 -> Z.min min_length 3 <= len2 ->
  dst + len1 + len2 <= bufend <= Z.of_nat (length mem) ->
  (Z.to_nat (len1 + len2) <= fuel)%nat ->
  exists m1 m2 m,
    lz_copy P fuel mem dst len1 offset bufend min_length = Done (m1, dst + len1) /\
    lz_copy P fuel m1 (dst + len1) len2 offset bufend min_length
      = Done (m2, dst + len1 + len2) /\
    lz_copy P fuel mem dst (len1 + len2) offset bufend min_length
      = Done (m, dst + (len1 + len2)) /\
    take (Z.to_nat (dst + len1 + len2)) m2 = take (Z.to_nat (dst + len1 + len2)) m.
Proof.
  intros HP Hok Hoff H1 H2 H32 Hmin1 Hmin2 Hbuf Hfuel.
  assert (Hs1 : shortest_length min_length <= len1 < 2 ^ 32)
    by (unfold shortest_length; lia).
  assert (Hs2 : shortest_length min_length <= len2 < 2 ^ 32)
    by (unfold shortest_length; lia).
  assert (Hs : shortest_length min_length <= len1 + len2 < 2 ^ 32)
    by (unfold shortest_length; lia).
  destruct (lz_copy_copied P fuel mem dst len1 offset bufend min_length HP Hok
              ltac:(lia) Hs1 ltac:(lia) ltac:(lia)) as (m1 & E1 & Hl1 & Hpre1 & Hrec1).
  pose proof (lz_copy_Forall _ P fuel _ _ _ _ _ _ _ _ HP Hok Hs1 ltac:(lia) E1 Hok) as Hok1.
  destruct (lz_copy_copied P fuel m1 (dst + len1) len2 offset bufend min_length HP Hok1
              ltac:(lia) Hs2 ltac:(lia) ltac:(lia)) as (m2 & E2 & Hl2 & Hpre2 & Hrec2).
  destruct (lz_copy_copied P fuel mem dst (len1 + len2) offset bufend min_length HP Hok
              ltac:(lia) Hs ltac:(lia) Hfuel) as (m & E & Hc).
  exists m1, m2, m. split; [exact E1|].
  split; [rewrite E2; do 2 f_equal; lia|]. split; [exact E|].
  assert (Hc2 : copied mem dst offset m2 (dst + (len1 + len2))).
  { split; [lia|]. split.
    - intros i Hi. rewrite Hpre2 by lia. apply Hpre1. lia.
    - intros i Hi. destruct (Z.lt_ge_cases i (dst + len1)).
      + rewrite !Hpre2 by lia. apply Hrec1. lia.
      + apply Hrec2. lia. }
  apply list_eq. intros i.
  destruct (Nat.lt_ge_cases i (Z.to_nat (dst + len1 + len2))) as [Hlt|Hge].
  - rewrite !lookup_take_lt by exact Hlt.
    replace i with (Z.to_nat (Z.of_nat i)) by lia.
    apply (copied_unique mem dst offset m2 m (dst + (len1 + len2)) Hoff Hc2 Hc). lia.
  - rewrite !lookup_take_ge by exact Hge. reflexivity.
Qed.

Lemma lz_copy_split_match_witness :
  exists m1 m2 m,
    lz_copy x86_64 7 [1; 2; 3; 4; 5; 6; 7; 8; 9; 0; 0; 0; 0; 0; 0; 0; 0; 0; 0; 0; 0; 0; 0; 0]
            9 3 8 24 3 = Done (m1, 9 + 3) /\
    lz_copy x86_64 7 m1 (9 + 3) 4 8 24 3 = Done (m2, 9 + 3 + 4) /\
    lz_copy x86_64 7 [1; 2; 3; 4; 5; 6; 7; 8; 9; 0; 0; 0; 0; 0; 0; 0; 0; 0; 0; 0; 0; 0; 0; 0]
            9 (3 + 4) 8 24 3 = Done (m, 9 + (3 + 4)) /\
    take (Z.to_nat (9 + 3 + 4)) m2 = take (Z.to_nat (9 + 3 + 4)) m.
Proof.
  apply (lz_copy_split_match x86_64 7
           [1; 2; 3; 4; 5; 6; 7; 8; 9; 0; 0; 0; 0; 0; 0; 0; 0; 0; 0; 0; 0; 0; 0; 0]
           9 3 4 8 24 3).
  - right. reflexivity.
  - repeat constructor; lia.
  - lia.
  - lia.
  - lia.
  - lia.
  - lia.
  - lia.
  - cbn. lia.
  - cbn. lia.
Defined.

(** ** Input consumed by bit reads *)

(** X17.  A second [bitstream_ensure_bits] for no more bits than the first
    ([m <= n <= 16]) changes nothing: in particular it loads no further unit
    and does not move the cursor. *)
Theorem ensure_bits_idempotent (buf : list Z) (istream : input_bitstream) (n m : Z) :
  cursor_ok buf istream -> 0 <= bitsleft istream -> m <= n -> n <= 16 ->
  exists istream',
    bitstream_ensure_bits buf istream n = Done istream' /\
    bitstream_ensure_bits buf istream' m = Done istream'.
Proof.
  intros Hc Hbl Hmn Hn.
  assert (Hnoop : forall s, m <= bitsleft s -> bitstream_ensure_bits buf s m = Done s).
  { intros s Hs. unfold bitstream_ensure_bits.
    destruct (Z.ltb_spec (bitsleft s) m); [lia|reflexivity]. }
  destruct (ensure_bits_cases buf istream n Hc)
    as [(Hlt & _ & b0 & b1 & _ & _ & E)|[(Hlt & _ & E)|(Hge & E)]];
    eexists; (split; [exact E|]); apply Hnoop; cbn [bitsleft];
    rewrite ?wrap32_small by lia; lia.
Qed.

Lemma ensure_bits_idempotent_witness :
  exists istream',
    bitstream_ensure_bits [0x34; 0x12; 0x78; 0x56] (init_input_bitstream 4) 9 = Done istream' /\
    bitstream_ensure_bits [0x34; 0x12; 0x78; 0x56] istream' 4 = Done istream'.
Proof.
  apply (ensure_bits_idempotent [0x34; 0x12; 0x78; 0x56] (init_input_bitstream 4) 9 4).
  - unfold cursor_ok; cbn; lia.
  - cbn; lia.
  - lia.
  - lia.
Defined.

Lemma read_chunks_accounting (buf : list Z) (sizes : list nat) :
  Forall (fun n => (n <= 16)%nat) sizes ->
  forall istream,
    cursor_ok buf istream -> Z.even (next istream) = true ->
    0 <= bitsleft istream < 16 ->
    8 * next istream - bitsleft istream + Z.of_nat (list_sum sizes)
      <= 8 * (2 * (Z.of_nat (length buf) / 2)) ->
    exists vs istream',
      read_chunks buf istream sizes = Done (vs, istream') /\
      length vs = length sizes /\
      8 * next istream' - bitsleft istream'
        = 8 * next istream - bitsleft istream + Z.of_nat (list_sum sizes) /\
      0 <= bitsleft istream' < 16 /\
      Z.even (next istream') = true.
Proof.
  induction 1 as [|n sizes Hn _ IH]; intros istream Hc Hev Hbl Hroom.
  - exists [], istream. change (list_sum []) with 0%nat. cbn [read_chunks length].
    split; [reflexivity|]. split; [reflexivity|]. split; [lia|]. auto.
  - change (list_sum (n :: sizes)) with (n + list_sum sizes)%nat in *.
    rewrite Nat2Z.inj_add in Hroom.
    pose proof Hc as (Hn0 & He & Hs).
    pose proof (Z.div_mod (Z.of_nat (length buf)) 2 ltac:(lia)) as Hdm.
    pose proof (Z.mod_pos_bound (Z.of_nat (length buf)) 2 ltac:(lia)) as Hm.
    assert (Hstep : exists v s,
              bitstream_read_bits buf istream (Z.of_nat n) = Done (v, s) /\
              cursor_ok buf s /\ Z.even (next s) = true /\
              0 <= bitsleft s < 16 /\
              8 * next s - bitsleft s = 8 * next istream - bitsleft istream + Z.of_nat n).
    { unfold bitstream_read_bits.
      destruct (ensure_bits_cases buf istream (Z.of_nat n) Hc)
        as [(Hlt & H2 & b0 & b1 & _ & _ & E)|[(Hlt & H2 & E)|(Hge & E)]];
        rewrite E; cbn [rbind bitstream_pop_bits].
      - eexists _, _. split; [reflexivity|].
        cbn [bitstream_remove_bits next end_ bitsleft].
        rewrite (wrap32_small (bitsleft istream + 16)) by lia.
        rewrite (wrap32_small (bitsleft istream + 16 - Z.of_nat n)) by lia.
        split; [unfold cursor_ok; cbn [bitstream_remove_bits next end_]; lia|].
        split; [rewrite Z.even_add, Hev; reflexivity|]. lia.
      - exfalso. apply Z.even_spec in Hev as [k Hk]. lia.
      - eexists _, _. split; [reflexivity|].
        cbn [bitstream_remove_bits next end_ bitsleft].
        rewrite (wrap32_small (bitsleft istream - Z.of_nat n)) by lia.
        split; [exact Hc|]. split; [exact Hev|]. lia. }
    destruct Hstep as (v & s & E & Hcs & Hevs & Hbls & Hacc).
    destruct (IH s Hcs Hevs Hbls ltac:(lia)) as (vs & s' & E' & Hlen & Hacc' & Hbl' & Hev').
    exists (v :: vs), s'. cbn [read_chunks]. rewrite E. cbn [rbind]. rewrite E'.
    cbn [rbind length]. split; [reflexivity|]. split; [lia|].
    rewrite Nat2Z.inj_add. split; [lia|]. auto.
Qed.

(** X18.  Input accounting.  Reading chunks of at most 16 bits each from
    [init_input_bitstream] on, as long as the whole units of the input hold
    that many bits, consumes exactly the units needed: afterwards
    [8 * next - bitsleft] is the number of bits read, fewer than 16 bits are
    buffered, and the cursor is at an even offset. *)
Theorem read_bits_input_accounting (buf : list Z) (sizes : list nat) :
  Forall (fun n => (n <= 16)%nat) sizes ->
  Z.of_nat (length buf) < 2 ^ 32 ->
  Z.of_nat (list_sum sizes) <= 8 * (2 * (Z.of_nat (length buf) / 2)) ->
  exists vs istream',
    read_chunks buf (init_input_bitstream (Z.of_nat (length buf))) sizes
      = Done (vs, istream') /\
    length vs = length sizes /\
    8 * next istream' - bitsleft istream' = Z.of_nat (list_sum sizes) /\
    0 <= bitsleft istream' < 16 /\
    Z.even (next istream') = true.
Proof.
  intros Hall Hsize Hroom.
  destruct (read_chunks_accounting buf sizes Hall
              (init_input_bitstream (Z.of_nat (length buf))))
    as (vs & s & E & Hlen & Hacc & Hbl & Hev).
  - unfold cursor_ok, init_input_bitstream. cbn. lia.
  - reflexivity.
  - cbn. lia.
  - cbn [init_input_bitstream next bitsleft]. lia.
  - exists vs, s. cbn [init_input_bitstream next bitsleft] in Hacc.
    split; [exact E|]. split; [exact Hlen|]. split; [lia|]. auto.
Qed.

Lemma read_bits_input_accounting_witness :
  exists vs istream',
    read_chunks [1; 2; 3; 4; 5; 6; 7] (init_input_bitstream 7) [3; 16; 5; 9]%nat
      = Done (vs, istream') /\
    8 * next istream' - bitsleft istream' = 33.
Proof.
  destruct (read_bits_input_accounting [1; 2; 3; 4; 5; 6; 7] [3; 16; 5; 9]%nat)
    as (vs & s & H1 & _ & H2 & _).
  - repeat constructor; lia.
  - cbn; lia.
  - vm_compute. discriminate.
  - exists vs, s. split; [exact H1|exact H2].
Defined.
